(** * A retrieval-augmented-generation backend (main.js), verified

    The repository's [main.js] comes in three listings, three variants of
    one server.  The first serves [POST /index] and [POST /query], the
    third [POST /upload], [POST /chat] and [GET /health]; both chunk a
    document by the cosine similarity of sentence embeddings, and they are
    the ones embedded here, as the modules [V1] and [V3].  Of the
    second listing, which chunks by word count and keeps its records in
    another collection, the chunker [semanticChunk] is embedded, as the
    module [V2]; its handlers are not modelled.

    - JavaScript numbers are IEEE 754 binary64 values ([spec_float] with
      precision 53 and maximal exponent 1024), so that [cosineSimilarity]
      rounds, overflows and produces NaN as the program does.
    - JavaScript strings are [string]s, one character per code unit; the
      model covers texts whose code units fit in eight bits.
    - A handler is a state-passing function over a [world]: the staged
      upload files, the vector store, the global [console.log] binding,
      what has been printed, the clock and a trace of the calls made to
      the file system and to the external services.  The services'
      answers come from an [env] of oracles, and so does what the
      embedding client prints while it is called.
    - A handler applied to a world is the handler run alone: from its
      first statement to its response no other request runs, and every
      call it awaits settles, by resolving or by rejecting.  Where the
      code keeps shared state across an [await] (the [console.log]
      binding in [getEmbeddings] of the first listing) the function is
      given in two parts, before and after the [await], so that calls
      that overlap can be run part by part. *)

From Stdlib Require Import ZArith List String Ascii Bool Lia.
From Stdlib Require Import Floats.SpecFloat.
From Stdlib Require Import DecimalString DecimalN.
From stdpp Require Import base option list gmap strings.

Open Scope string_scope.

(** ** JavaScript numbers *)

Module Num.

Definition num : Type := spec_float.

Definition prec : Z := 53.
Definition emax : Z := 1024.

Definition add : num -> num -> num := SFadd prec emax.
Definition mul : num -> num -> num := SFmul prec emax.
Definition div : num -> num -> num := SFdiv prec emax.
Definition sqrt : num -> num := SFsqrt prec emax.

(** [a >= b] and [a < b]; both are false as soon as one side is NaN. *)
Definition geb (a b : num) : bool := SFleb b a.
Definition ltb (a b : num) : bool := SFltb a b.

Definition nan : num := S754_nan.
Definition zero : num := S754_zero false.
Definition of_Z (z : Z) : num := binary_normalize prec emax z 0 false.

Definition is_nan (x : num) : bool :=
  match x with S754_nan => true | _ => false end.

Definition is_zero (x : num) : bool :=
  match x with S754_zero _ => true | _ => false end.

End Num.

Declare Scope num_scope.
Delimit Scope num_scope with num.
Infix "+" := Num.add : num_scope.
Infix "*" := Num.mul : num_scope.
Infix "/" := Num.div : num_scope.

(** An embedding is an array of numbers. *)
Definition vec : Type := list Num.num.

(** ** Arrays *)

(** [Array.prototype.reduce(f, init)]: the callback receives the
    accumulator, the element and its index. *)
Fixpoint reduce_from {A B : Type} (f : B -> A -> nat -> B)
    (i : nat) (l : list A) (acc : B) : B :=
  match l with
  | [] => acc
  | a :: l' => reduce_from f (S i) l' (f acc a i)
  end.

Definition reduce {A B : Type} (f : B -> A -> nat -> B) (l : list A) (init : B) : B :=
  reduce_from f 0 l init.

(** [v[i]] used as a number: an index past the end reads [undefined],
    which arithmetic turns into NaN. *)
Definition at_index (v : vec) (i : nat) : Num.num :=
  match v !! i with
  | Some x => x
  | None => Num.nan
  end.

(** ** Cosine similarity (main.js 44-49 and 386-391) *)

Definition dot (vecA vecB : vec) : Num.num :=
  reduce (fun sum a i => (sum + a * at_index vecB i)%num) vecA Num.zero.

Definition magnitude (v : vec) : Num.num :=
  Num.sqrt (reduce (fun sum a _ => (sum + a * a)%num) v Num.zero).

Definition cosineSimilarity (vecA vecB : vec) : Num.num :=
  let dotProduct := dot vecA vecB in
  let magnitudeA := magnitude vecA in
  let magnitudeB := magnitude vecB in
  (dotProduct / (magnitudeA * magnitudeB))%num.

(** ** Strings *)

Definition is_terminator (c : ascii) : bool :=
  (Ascii.eqb c "." || Ascii.eqb c "!" || Ascii.eqb c "?")%char.

(** White space and line terminators, as [String.prototype.trim] strips
    them: TAB, LF, VT, FF, CR, SPACE and NBSP among eight-bit code units. *)
Definition is_space (c : ascii) : bool :=
  let n := nat_of_ascii c in
  (Nat.eqb n 9 || Nat.eqb n 10 || Nat.eqb n 11 || Nat.eqb n 12 ||
   Nat.eqb n 13 || Nat.eqb n 32 || Nat.eqb n 160)%nat.

Fixpoint trimStart (s : string) : string :=
  match s with
  | String c s' => if is_space c then trimStart s' else s
  | EmptyString => EmptyString
  end.

Fixpoint trimEnd (s : string) : string :=
  match s with
  | String c s' =>
      match trimEnd s' with
      | EmptyString => if is_space c then EmptyString else String c EmptyString
      | t => String c t
      end
  | EmptyString => EmptyString
  end.

Definition trim (s : string) : string := trimEnd (trimStart s).

Definition is_empty (s : string) : bool :=
  match s with EmptyString => true | _ => false end.

(** [s + c] for a single code unit [c]. *)
Definition snoc (s : string) (c : ascii) : string := s ++ String c EmptyString.

(** *** The sentence pattern [/[^.!?]+[.!?]+/g]

    [text.match] with the global flag returns every match, scanning left
    to right and restarting after each one.  A match is a maximal run of
    non-terminators followed by a maximal run of terminators; greedy
    quantifiers over two disjoint character classes never need to give
    anything back, so the scan is the automaton below.  What lies outside
    every match is not returned: terminators seen while no match is open,
    and a last run of non-terminators that no terminator closes. *)
Inductive scan :=
| Outside                      (* no match open *)
| InBody (acc : string)        (* inside [^.!?]+ *)
| InTerm (acc : string).       (* inside [.!?]+ *)

Fixpoint match_from (st : scan) (s : string) : list string :=
  match s with
  | EmptyString =>
      match st with
      | InTerm acc => [acc]
      | _ => []
      end
  | String c s' =>
      if is_terminator c then
        match st with
        | Outside => match_from Outside s'
        | InBody acc => match_from (InTerm (snoc acc c)) s'
        | InTerm acc => match_from (InTerm (snoc acc c)) s'
        end
      else
        match st with
        | Outside => match_from (InBody (String c EmptyString)) s'
        | InBody acc => match_from (InBody (snoc acc c)) s'
        | InTerm acc => acc :: match_from (InBody (String c EmptyString)) s'
        end
  end.

(** [text.match(/[^.!?]+[.!?]+/g)]: [None] is JavaScript's [null]. *)
Definition match_sentences (text : string) : option (list string) :=
  match match_from Outside text with
  | [] => None
  | ms => Some ms
  end.

(** The segmenter (main.js 53-54 and 410-411). *)
Definition segment (text : string) : list string :=
  let sentences :=
    match match_sentences text with
    | Some ms => ms
    | None => [text]
    end in
  let cleanSentences :=
    List.filter (fun s => negb (is_empty s)) (List.map trim sentences) in
  cleanSentences.

(** ** Exceptions and results *)

(** A thrown error is represented by its [message]. *)
Definition exn : Type := string.

Inductive result (A : Type) : Type :=
| Ok (a : A)
| Throw (e : exn).
Arguments Ok {A} a.
Arguments Throw {A} e.

(** The message of the [TypeError] for reading the property [prop] of
    [undefined]. *)
Definition TypeError_reading (prop : string) : exn :=
  "Cannot read properties of undefined (reading '" ++ prop ++ "')".

(** The message of the [TypeError] for destructuring [obj], which is
    [undefined], at its property [prop]. *)
Definition TypeError_destructure (prop obj : string) : exn :=
  "Cannot destructure property '" ++ prop ++ "' of '" ++ obj ++
  "' as it is undefined.".

(** ** The chunking loop (main.js 59-76 and 415-432) *)

(** What [hf.featureExtraction] resolves to: an array of vectors, or for
    some models a single flat vector. *)
Inductive hf_resp :=
| Nested (vs : list vec)
| Flat (v : vec).

(** [Array.isArray(embeddings[0]) ? embeddings : [embeddings]] *)
Definition vecs_of (embeddings : hf_resp) : list vec :=
  match embeddings with
  | Nested (v :: vs) => v :: vs
  | Nested [] => [[]]
  | Flat v => [v]
  end.

(** The loop's variables. *)
Record chunker := Chunker {
  chunks : list string;
  currentChunk : string;
  currentVec : vec;
}.

(** [cosineSimilarity(vecA, undefined)] throws: when [vecA] has a
    component the callback of line 45 reads [vecB[0]]; when it has none
    the callback never runs and line 47 reads [vecB.reduce]. *)
Definition cosineSimilarity_undefined (vecA : vec) : exn :=
  match vecA with
  | _ :: _ => TypeError_reading "0"
  | [] => TypeError_reading "reduce"
  end.

(** One iteration, for sentence [s] at index [i].  Reading [vecs[i]] past
    the end gives [undefined], on which [cosineSimilarity] throws. *)
Definition step (threshold : Num.num) (vecs : list vec)
    (i : nat) (s : string) (st : chunker) : result chunker :=
  match vecs !! i with
  | None => Throw (cosineSimilarity_undefined (currentVec st))
  | Some v =>
      let sim := cosineSimilarity (currentVec st) v in
      if Num.geb sim threshold then
        Ok (Chunker (chunks st) (currentChunk st ++ " " ++ s) (currentVec st))
      else
        Ok (Chunker (chunks st ++ [currentChunk st]) s v)
  end.

(** [for (let i = ...; i < cleanSentences.length; i++)], over the
    sentences from index [i] on. *)
Fixpoint chunk_from (threshold : Num.num) (vecs : list vec)
    (i : nat) (rest : list string) (st : chunker) : result chunker :=
  match rest with
  | [] => Ok st
  | s :: rest' =>
      match step threshold vecs i s st with
      | Ok st' => chunk_from threshold vecs (S i) rest' st'
      | Throw e => Throw e
      end
  end.

(** [if (currentChunk) chunks.push(currentChunk); return chunks] *)
Definition finish (st : chunker) : list string :=
  if is_empty (currentChunk st) then chunks st
  else chunks st ++ [currentChunk st].

Definition chunkLoop (threshold : Num.num) (cleanSentences : list string)
    (embeddings : hf_resp) : result (list string) :=
  let vecs := vecs_of embeddings in
  match cleanSentences with
  | [] => Ok []
  | s0 :: rest =>
      match vecs with
      | v0 :: _ =>
          match chunk_from threshold vecs 1 rest (Chunker [] s0 v0) with
          | Ok st => Ok (finish st)
          | Throw e => Throw e
          end
      | [] =>
          (* [vecs[0]] is [undefined]: the first comparison throws at
             [vecA.reduce], line 45 *)
          match rest with
          | [] => Ok [s0]
          | _ :: _ => Throw (TypeError_reading "reduce")
          end
      end
  end.

(** ** The world the handlers run in *)

(** Metadata of an index record, and the record itself. *)
Record metadata := Metadata {
  source : string;
  part : nat;
  context : string;
}.

(** [embeddings[i]]: a vector, a number when the response was flat, or
    [undefined] past the end. *)
Inductive slot :=
| SlotVec (v : vec)
| SlotNum (x : Num.num)
| SlotUndefined.

Definition resp_at (embeddings : hf_resp) (i : nat) : slot :=
  match embeddings with
  | Nested vs => match vs !! i with Some v => SlotVec v | None => SlotUndefined end
  | Flat v => match v !! i with Some x => SlotNum x | None => SlotUndefined end
  end.

Record record := Record_ {
  document : string;
  embedding : slot;
  meta : metadata;
}.

(** The value bound to the global [console.log]. *)
Inductive logger :=
| NativeLog          (* the runtime's own function: prints *)
| SilentLog.         (* [() => {}] *)

(** Calls to the external services and to the file system. *)
Inductive event :=
| FeatureExtraction (inputs : list string)
| GetOrCreateCollection (name : string)
| Upsert (name : string) (records : list (string * record))
| Query (name : string) (nResults : nat) (where_ : option string)
| GenerateContent (prompt : string)
| ReadFile (path : string)
| Unlink (path : string).

Record world := World {
  files : gmap string string;                 (* staged uploads: path to content *)
  store : gmap string (gmap string record);   (* collections by name, records by id *)
  console_log : logger;
  stdout : list string;
  stderr : list string;
  ticks : nat;                                (* readings of [Date.now()] so far *)
  trace : list event;
}.

Definition with_files (f : gmap string string) (w : world) : world :=
  World f (store w) (console_log w) (stdout w) (stderr w) (ticks w) (trace w).
Definition with_store (s : gmap string (gmap string record)) (w : world) : world :=
  World (files w) s (console_log w) (stdout w) (stderr w) (ticks w) (trace w).
Definition with_console_log (l : logger) (w : world) : world :=
  World (files w) (store w) l (stdout w) (stderr w) (ticks w) (trace w).
Definition with_stdout (o : list string) (w : world) : world :=
  World (files w) (store w) (console_log w) o (stderr w) (ticks w) (trace w).
Definition with_stderr (o : list string) (w : world) : world :=
  World (files w) (store w) (console_log w) (stdout w) o (ticks w) (trace w).
Definition with_ticks (n : nat) (w : world) : world :=
  World (files w) (store w) (console_log w) (stdout w) (stderr w) n (trace w).
Definition with_trace (t : list event) (w : world) : world :=
  World (files w) (store w) (console_log w) (stdout w) (stderr w) (ticks w) t.

(** The environment: configuration and the external services' answers. *)
Record env := Env {
  CHUNK_THRESHOLD : Num.num;
  featureExtraction : list string -> result hf_resp;
  store_fault : event -> option exn;          (* a store call that rejects *)
  rank : slot -> list record -> list record;  (* the store's similarity ranking *)
  generateContent : string -> result string;
  randomUUID : string;
  clock : nat -> N;                           (* [Date.now()] at the n-th reading *)
  diagnostics : list string -> list string;   (* what the embedding client prints
                                                 through [console.log] during a call *)
}.

(** ** A state and exception monad *)

Definition M (A : Type) : Type := world -> result A * world.

#[global] Instance M_ret : MRet M := fun A a w => (Ok a, w).

#[global] Instance M_bind : MBind M := fun A B f m w =>
  match m w with
  | (Ok a, w') => f a w'
  | (Throw e, w') => (Throw e, w')
  end.

Definition throw {A : Type} (e : exn) : M A := fun w => (Throw e, w).

Definition lift {A : Type} (r : result A) : M A := fun w => (r, w).

(** [try { body } catch (err) { handler }] *)
Definition try_catch {A : Type} (body : M A) (handler : exn -> M A) : M A :=
  fun w =>
    match body w with
    | (Ok a, w') => (Ok a, w')
    | (Throw e, w') => handler e w'
    end.

Definition get : M world := fun w => (Ok w, w).
Definition modify (f : world -> world) : M unit := fun w => (Ok tt, f w).

Definition emit (ev : event) : M unit :=
  modify (fun w => with_trace (trace w ++ [ev]) w).

(** [console.log(msg)]: whatever is bound to [console.log] is called. *)
Definition log (msg : string) : M unit :=
  modify (fun w =>
    match console_log w with
    | NativeLog => with_stdout (stdout w ++ [msg]) w
    | SilentLog => w
    end).

(** [console.error(msg)] *)
Definition log_error (msg : string) : M unit :=
  modify (fun w => with_stderr (stderr w ++ [msg]) w).

(** Monadic iteration over an array, in order. *)
Fixpoint foldM {A B : Type} (f : B -> A -> M B) (acc : B) (l : list A) : M B :=
  match l with
  | [] => mret acc
  | a :: l' => acc' ← f acc a; foldM f acc' l'
  end.

(** Decimal rendering of a number inside a template literal. *)
Definition show (n : N) : string := NilEmpty.string_of_uint (N.to_uint n).
Definition show_nat (n : nat) : string := show (N.of_nat n).

(** [arr.map((x, i) => f(x, i))] *)
Fixpoint mapi_from {A B : Type} (f : A -> nat -> B) (i : nat) (l : list A) : list B :=
  match l with
  | [] => []
  | a :: l' => f a i :: mapi_from f (S i) l'
  end.
Definition mapi {A B : Type} (f : A -> nat -> B) (l : list A) : list B :=
  mapi_from f 0 l.

(** *** Requests and responses *)

(** A staged upload, as multer hands it to the handler. *)
Record file := File {
  file_path : string;
  file_originalname : string;
}.

Record ingest_request := IngestRequest {
  req_files : option (list file);        (* [req.files] *)
  req_context : option string;           (* [req.get("context")] *)
}.

(** The JSON body of a query: [{ q, k, c }], each of which may be
    missing. *)
Record query_body := QueryBody {
  q_of : option string;
  k_of : option nat;
  c_of : option string;
}.

(** A query request: [req.body] is [undefined] when the request came
    without a body that the JSON parser took. *)
Record query_request := QueryRequest {
  req_body : option query_body;
}.

(** [req.body.q], [req.body.k] and [req.body.c] of a request that has a
    body. *)
Definition body_q (req : query_request) : option string := req_body req ≫= q_of.
Definition body_k (req : query_request) : option nat := req_body req ≫= k_of.
Definition body_c (req : query_request) : option string := req_body req ≫= c_of.

Record retrieved_item := Retrieved {
  r_text : string;
  r_metadata : metadata;
}.

Inductive body :=
| ErrorBody (error : string)
| OkBody (msg : string)
| AnswerBody (answer : string) (retrieved : list retrieved_item)
| TextBody (s : string).

Record response := Response {
  status : nat;
  body_of : body;
}.

(** Truthiness of a string-valued expression that may be [undefined] or
    [null]. *)
Definition truthy (s : option string) : bool :=
  match s with
  | Some s => negb (is_empty s)
  | None => false
  end.

(** A chunk waiting to be indexed. *)
Record chunk := Chunk {
  chunk_text : string;
  chunk_metadata : metadata;
}.

(** ** The external services *)

Section Services.

Variable E : env.

(** [console.log(line)] for each line, in order. *)
Definition print_all (lines : list string) : M unit :=
  foldM (fun _ line => log line) tt lines.

(** The promise of [hf.featureExtraction] settles: the client has
    printed its diagnostics through whatever is bound to [console.log],
    and the call resolves or rejects. *)
Definition hf_settle (inputs : list string) : M hf_resp :=
  _ ← print_all (diagnostics E inputs);
  lift (featureExtraction E inputs).

(** [await hf.featureExtraction({ model, inputs })]: the call is issued
    and its promise settles. *)
Definition hf_featureExtraction (inputs : list string) : M hf_resp :=
  _ ← emit (FeatureExtraction inputs);
  hf_settle inputs.

(** [client.getOrCreateCollection({ name })]: the handle is the name. *)
Definition getOrCreateCollection (name : string) : M string :=
  _ ← emit (GetOrCreateCollection name);
  match store_fault E (GetOrCreateCollection name) with
  | Some e => throw e
  | None =>
      _ ← modify (fun w =>
             match store w !! name with
             | Some _ => w
             | None => with_store (<[name := ∅]> (store w)) w
             end);
      mret name
  end.

(** Writing records in order: a record whose id is already present is
    replaced. *)
Definition upsert_all (rs : list (string * record)) (coll : gmap string record)
    : gmap string record :=
  foldl (fun m ir => <[ir.1 := ir.2]> m) coll rs.

(** [collection.upsert({ ids, documents, embeddings, metadatas })] *)
Definition collection_upsert (name : string) (rs : list (string * record)) : M unit :=
  _ ← emit (Upsert name rs);
  match store_fault E (Upsert name rs) with
  | Some e => throw e
  | None =>
      modify (fun w =>
        with_store (<[name := upsert_all rs (default ∅ (store w !! name))]> (store w)) w)
  end.

(** The records a query ranks: all of the collection, or those whose
    [context] metadata equals the filter. *)
Definition matches (where_ : option string) (r : record) : bool :=
  match where_ with
  | Some ctx => String.eqb (context (meta r)) ctx
  | None => true
  end.

Definition candidates (where_ : option string) (coll : gmap string record)
    : list record :=
  List.filter (matches where_) (map_to_list coll).*2.

(** What the store answers: the [nResults] best-ranked candidates. *)
Definition search (name : string) (queryEmbedding : slot) (nResults : nat)
    (where_ : option string) (w : world) : list record :=
  take nResults
       (rank E queryEmbedding
          (candidates where_ (default ∅ (store w !! name)))).

(** [collection.query({ queryEmbeddings, nResults, where })] *)
Definition collection_query (name : string) (queryEmbedding : slot) (nResults : nat)
    (where_ : option string) : M (list record) :=
  _ ← emit (Query name nResults where_);
  match store_fault E (Query name nResults where_) with
  | Some e => throw e
  | None =>
      w ← get;
      mret (search name queryEmbedding nResults where_ w)
  end.

(** [llmModel.generateContent(prompt)] followed by [.response.text()] *)
Definition llm_generateContent (prompt : string) : M string :=
  _ ← emit (GenerateContent prompt);
  lift (generateContent E prompt).

(** [fs.readFileSync(path, "utf-8")] *)
Definition readFileSync (p : string) : M string :=
  _ ← emit (ReadFile p);
  w ← get;
  match files w !! p with
  | Some content => mret content
  | None => throw "ENOENT: no such file or directory"
  end.

(** [fs.unlinkSync(path)] *)
Definition unlinkSync (p : string) : M unit :=
  _ ← emit (Unlink p);
  w ← get;
  match files w !! p with
  | Some _ => modify (fun w => with_files (delete p (files w)) w)
  | None => throw "ENOENT: no such file or directory"
  end.

(** [Date.now()] *)
Definition Date_now : M N :=
  w ← get;
  _ ← modify (fun w => with_ticks (S (ticks w)) w);
  mret (clock E (ticks w)).

End Services.

Definition nl : string := String (ascii_of_nat 10) EmptyString.
Definition dq : string := String (ascii_of_nat 34) EmptyString.

(** [a || b] on a string that may be missing. *)
Definition or_else (a : option string) (b : string) : string :=
  match a with
  | Some s => if is_empty s then b else s
  | None => b
  end.

(** [where: c ? { context: c } : undefined] *)
Definition where_filter (c : option string) : option string :=
  if truthy c then c else None.

Definition to_retrieved (result : list record) : list retrieved_item :=
  List.map (fun r => Retrieved (document r) (meta r)) result.

Definition make_prompt (contextText q : string) : string :=
  "Use the following context to answer the question." ++ nl ++ nl ++
  contextText ++ nl ++ nl ++ "Question: " ++ q ++ nl ++ "Answer:".

Definition separator : string := nl ++ nl ++ "---" ++ nl ++ nl.

(** The collection every handler of the first and third listing names. *)
Definition COLLECTION : string := "Damian_Ingested".

(** ** First listing: [POST /index] and [POST /query] (main.js 1-183) *)

Module V1.
Section V1.

Variable E : env.

(** main.js 81-85, up to the [await]: the binding of [console.log] is
    saved and replaced, and the call is issued.  Every caller passes an
    array, so [inputs] is [texts]. *)
Definition getEmbeddings_begin (texts : list string) : M logger :=
  let inputs := texts in
  w ← get;
  let originalLog := console_log w in
  _ ← modify (with_console_log SilentLog);
  _ ← emit (FeatureExtraction inputs);
  mret originalLog.

(** main.js 85-88, from the [await] on: when the promise has resolved
    the saved binding is put back; when it has rejected the function is
    left at once. *)
Definition getEmbeddings_resume (originalLog : logger) (texts : list string)
    : M hf_resp :=
  resp ← hf_settle E texts;
  _ ← modify (with_console_log originalLog);
  mret resp.

(** main.js 80-89, when nothing else runs during the [await]. *)
Definition getEmbeddings (texts : list string) : M hf_resp :=
  originalLog ← getEmbeddings_begin texts;
  getEmbeddings_resume originalLog texts.

(** main.js 55-76: the chunker proper, on the cleaned sentences. *)
Definition chunk_sentences (threshold : Num.num) (cleanSentences : list string)
    : M (list string) :=
  match cleanSentences with
  | [] => mret []
  | _ =>
      _ ← log ("> Embedding " ++ show_nat (length cleanSentences) ++ " sentences...");
      embeddings ← getEmbeddings cleanSentences;
      lift (chunkLoop threshold cleanSentences embeddings)
  end.

(** main.js 52-77 *)
Definition semanticChunking (text : string) (threshold : Num.num)
    : M (list string) :=
  chunk_sentences threshold (segment text).

(** The ids of main.js 124. *)
Definition ids_of (context : string) (allChunks : list chunk) : list string :=
  mapi (fun _ i => context ++ "-" ++ show_nat i) allChunks.

(** The body of the [for (const file of req.files)] loop. *)
Definition ingest_file (context : string) (allChunks : list chunk) (f : file)
    : M (list chunk) :=
  text ← readFileSync (file_path f);
  chunks ← semanticChunking text (CHUNK_THRESHOLD E);
  let allChunks' :=
    (allChunks ++
     mapi (fun chunk i => Chunk chunk (Metadata (file_originalname f) i context))
          chunks)%list in
  _ ← unlinkSync (file_path f);
  mret allChunks'.

(** main.js 92-138.  The module-level variable [collection] is assigned
    the handle and read back within the handler; the handle is the
    collection's name. *)
Definition post_index (req : ingest_request) : M response :=
  try_catch
    (match req_files req with
     | None | Some [] => mret (Response 400 (ErrorBody "No files uploaded"))
     | Some fs =>
         let context :=
           or_else (req_context req)
                   ("ctx-" ++ substring 0 8 (randomUUID E)) in
         collection ← getOrCreateCollection E COLLECTION;
         allChunks ← foldM (ingest_file context) [] fs;
         embeddings ← getEmbeddings (List.map chunk_text allChunks);
         _ ← collection_upsert E collection
               (zip (ids_of context allChunks)
                    (mapi (fun c i =>
                             Record_ (chunk_text c) (resp_at embeddings i)
                                     (chunk_metadata c))
                          allChunks));
         _ ← log ("✅ Indexed " ++ show_nat (length allChunks) ++
                  " chunks for context " ++ dq ++ context ++ dq);
         mret (Response 200
                 (OkBody ("Indexed " ++ show_nat (length allChunks) ++ " chunks.")))
     end)
    (fun err =>
       _ ← log_error ("❌ Error in /index: " ++ err);
       mret (Response 500 (ErrorBody err))).

Definition block (r : retrieved_item) : string :=
  "Source: " ++ source (r_metadata r) ++ "#" ++ show_nat (part (r_metadata r)) ++
  nl ++ r_text r.

(** main.js 141-179.  Line 143 destructures [req.body], and throws
    when there is none. *)
Definition post_query (req : query_request) : M response :=
  try_catch
    (match req_body req with
     | None => throw (TypeError_destructure "q" "req.body")
     | Some body =>
         if negb (truthy (q_of body)) then
           mret (Response 400 (ErrorBody "Missing query"))
         else
           let q := or_else (q_of body) EmptyString in
           let k := default 5 (k_of body) in
           embeddings ← getEmbeddings [q];
           let queryEmbedding := resp_at embeddings 0 in
           collection ← getOrCreateCollection E COLLECTION;
           result ← collection_query E collection queryEmbedding k
                      (where_filter (c_of body));
           let retrieved := to_retrieved result in
           let contextText := String.concat separator (List.map block retrieved) in
           let prompt := make_prompt contextText q in
           answer ← llm_generateContent E prompt;
           _ ← log ("✅ Query answered: " ++ dq ++ q ++ dq);
           mret (Response 200 (AnswerBody answer retrieved))
     end)
    (fun err =>
       _ ← log_error ("❌ Error in /query: " ++ err);
       mret (Response 500 (ErrorBody err))).

End V1.
End V1.

(** ** Third listing: [POST /upload], [POST /chat], [GET /health]
       (main.js 345-531) *)

Module V3.
Section V3.

Variable E : env.

(** main.js 394-406 *)
Definition getEmbeddings (texts : list string) : M hf_resp :=
  let inputs := texts in
  try_catch
    (resp ← hf_featureExtraction E inputs;
     mret resp)
    (fun err =>
       _ ← log_error ("❌ Embedding Error: " ++ err);
       throw err).

(** main.js 412-432: the chunker proper, on the cleaned sentences. *)
Definition chunk_sentences (threshold : Num.num) (cleanSentences : list string)
    : M (list string) :=
  match cleanSentences with
  | [] => mret []
  | _ =>
      embeddings ← getEmbeddings cleanSentences;
      lift (chunkLoop threshold cleanSentences embeddings)
  end.

(** main.js 409-433 *)
Definition semanticChunking (text : string) (threshold : Num.num)
    : M (list string) :=
  chunk_sentences threshold (segment text).

(** main.js 436-438 *)
Definition get_health : M response :=
  mret (Response 200 (TextBody "OK")).

(** The ids of main.js 470: [Date.now()] is read once per chunk. *)
Fixpoint ids_from (context : string) (i : nat) (allChunks : list chunk)
    : M (list string) :=
  match allChunks with
  | [] => mret []
  | _ :: rest =>
      now ← Date_now E;
      ids ← ids_from context (S i) rest;
      mret ((context ++ "-" ++ show now ++ "-" ++ show_nat i) :: ids)
  end.

Definition ids_of (context : string) (allChunks : list chunk) : M (list string) :=
  ids_from context 0 allChunks.

(** The body of the [for (const file of req.files)] loop. *)
Definition ingest_file (context : string) (allChunks : list chunk) (f : file)
    : M (list chunk) :=
  text ← readFileSync (file_path f);
  chunks ← semanticChunking text (CHUNK_THRESHOLD E);
  let allChunks' :=
    (allChunks ++
     mapi (fun chunk i => Chunk chunk (Metadata (file_originalname f) i context))
          chunks)%list in
  _ ← unlinkSync (file_path f);
  mret allChunks'.

(** main.js 441-484 *)
Definition post_upload (req : ingest_request) : M response :=
  try_catch
    (match req_files req with
     | None | Some [] => mret (Response 400 (ErrorBody "No files"))
     | Some fs =>
         let context :=
           or_else (req_context req)
                   ("ctx-" ++ substring 0 8 (randomUUID E)) in
         collection ← getOrCreateCollection E COLLECTION;
         allChunks ← foldM (ingest_file context) [] fs;
         embeddings ← getEmbeddings (List.map chunk_text allChunks);
         ids ← ids_of context allChunks;
         _ ← collection_upsert E collection
               (zip ids
                    (mapi (fun c i =>
                             Record_ (chunk_text c) (resp_at embeddings i)
                                     (chunk_metadata c))
                          allChunks));
         mret (Response 200
                 (OkBody ("Indexed " ++ show_nat (length allChunks) ++
                          " chunks for context: " ++ context)))
     end)
    (fun err =>
       _ ← log_error ("❌ Error in /index: " ++ err);
       mret (Response 500 (ErrorBody err))).

Definition block (r : retrieved_item) : string :=
  "Source: " ++ source (r_metadata r) ++ nl ++ r_text r.

Definition NO_MATCH : string := "No matching documents found.".

(** main.js 487-527.  Line 489 destructures [req.body], and throws
    when there is none. *)
Definition post_chat (req : query_request) : M response :=
  try_catch
    (match req_body req with
     | None => throw (TypeError_destructure "q" "req.body")
     | Some body =>
         if negb (truthy (q_of body)) then
           mret (Response 400 (ErrorBody "Missing query"))
         else
           let q := or_else (q_of body) EmptyString in
           let k := default 5 (k_of body) in
           embeddings ← getEmbeddings [q];
           let queryEmbedding := resp_at embeddings 0 in
           collection ← getOrCreateCollection E COLLECTION;
           result ← collection_query E collection queryEmbedding k
                      (where_filter (c_of body));
           match result with
           | [] => mret (Response 200 (AnswerBody NO_MATCH []))
           | _ =>
               let retrieved := to_retrieved result in
               let contextText :=
                 String.concat separator (List.map block retrieved) in
               let prompt := make_prompt contextText q in
               answer ← llm_generateContent E prompt;
               mret (Response 200 (AnswerBody answer retrieved))
           end
     end)
    (fun err =>
       _ ← log_error ("❌ Error in /query: " ++ err);
       mret (Response 500 (ErrorBody err))).

End V3.
End V3.

(** ** Second listing: the word-count chunker (main.js 223-242)

    The second listing chunks without embeddings: sentences are gathered
    until the next one would take the chunk past a target number of
    words.  Its handlers store their records with [collection.add], whose
    treatment of ids that are already present is the store's own; only the
    chunker, a pure function, is embedded. *)

Module V2.

(** Where a scan of [String.prototype.split] stands: inside a piece,
    whose last character is or is not a sentence terminator, or inside a
    separator that has matched and is consuming white space. *)
Inductive mode :=
| InPiece (after_terminator : bool)
| InSeparator.

(** [s.split(re)] for the two patterns of the listing: [/\s+/] (a
    separator is a maximal run of white space) and [/(?<=[.!?])\s+/]
    (the run must follow a terminator; [behind] is [true]).  The piece
    under construction is [acc]; a separator at the very end leaves an
    empty last piece, and the empty string splits into one empty piece. *)
Fixpoint split_from (behind : bool) (acc : string) (m : mode) (s : string)
    : list string :=
  match s with
  | EmptyString => [acc]
  | String c s' =>
      match m with
      | InSeparator =>
          if is_space c then split_from behind EmptyString InSeparator s'
          else split_from behind (String c EmptyString) (InPiece (is_terminator c)) s'
      | InPiece after_terminator =>
          if is_space c && (negb behind || after_terminator) then
            acc :: split_from behind EmptyString InSeparator s'
          else
            split_from behind (snoc acc c) (InPiece (is_terminator c)) s'
      end
  end.

(** [text.split(/(?<=[.!?])\s+/)] *)
Definition split_sentences (text : string) : list string :=
  split_from true EmptyString (InPiece false) text.

(** [s.split(/\s+/)] *)
Definition split_words (s : string) : list string :=
  split_from false EmptyString (InPiece false) s.

Definition CHUNK_LENGTH_DEFAULT : Z := 150.

(** The loop's variables. *)
Record gather := Gather {
  chunks : list string;
  cur : list string;
  curWords : nat;
}.

(** The body of [for (const s of sentences)]. *)
Definition step (targetWords : Z) (st : gather) (s : string) : gather :=
  let w := length (split_words s) in
  if (Z.of_nat (curWords st + w) >? targetWords)%Z
     && negb (Nat.eqb (length (cur st)) 0) then
    Gather (chunks st ++ [String.concat " " (cur st)]) [s] w
  else
    Gather (chunks st) (cur st ++ [s]) (curWords st + w).

(** [if (cur.length) chunks.push(cur.join(" ")); return chunks] *)
Definition finish (st : gather) : list string :=
  match cur st with
  | [] => chunks st
  | _ => chunks st ++ [String.concat " " (cur st)]
  end.

(** main.js 223-242 *)
Definition semanticChunk (text : string) (targetWords : Z) : list string :=
  let sentences := split_sentences text in
  finish (fold_left (step targetWords) sentences (Gather [] [] 0)).

End V2.

(** * Specification vocabulary *)

(** A vector of zero magnitude: every component is [+0] or [-0]. *)
Definition zero_vec (v : vec) : Prop := Forall (fun x => Num.is_zero x = true) v.

(** The values a sum of products with zeros can take. *)
Definition zero_or_nan (x : Num.num) : bool :=
  match x with
  | S754_zero _ | S754_nan => true
  | _ => false
  end.

(** [group.join(" ")]: the text of a chunk made of the sentences [group]. *)
Definition join (group : list string) : string := String.concat " " group.

Definition nonempty (s : string) : Prop := s <> EmptyString.

(** The chunker's variables account for the sentences [seen] so far: the
    closed chunks and the open one are the joined groups of a split of
    [seen] into consecutive non-empty runs. *)
Definition covers (seen : list string) (st : chunker) : Prop :=
  exists (groups : list (list string)) (g : list string),
    chunks st = List.map join groups /\
    currentChunk st = join g /\
    g <> [] /\
    Forall (fun g => g <> []) groups /\
    (concat groups ++ g)%list = seen.

(** The loop's first state: sentence 0 opens the first chunk and its
    embedding is the anchor. *)
Definition init (s0 : string) (v0 : vec) : chunker := Chunker [] s0 v0.

(** Sentence [j] opened the current run: the open chunk is made of the
    sentences from [j] on, and the anchor is that sentence's embedding. *)
Definition opened_at (sentences : list string) (vecs : list vec) (j : nat)
    (st : chunker) : Prop :=
  j < length sentences /\
  vecs !! j = Some (currentVec st) /\
  currentChunk st = join (drop j sentences).

(** The non-whitespace characters of a text, in order. *)
Definition non_space_chars (s : string) : list ascii :=
  List.filter (fun c => negb (is_space c)) (list_ascii_of_string s).

(** *** Environments for the examples *)

Definition three_quarters : Num.num := (Num.of_Z 3 / Num.of_Z 4)%num.

(** A toy embedding model with two directions. *)
Definition toy_embed (s : string) : vec :=
  if String.prefix "The" s then [Num.of_Z 0; Num.of_Z 1]
  else [Num.of_Z 1; Num.of_Z 0].

(** Every service answers; the clock does not advance within the example. *)
Definition env_up : env :=
  Env three_quarters
      (fun inputs => Ok (Nested (List.map toy_embed inputs)))
      (fun _ => None)
      (fun _ rs => rs)
      (fun _ => Ok "(generated)")
      "3f2b8c1e-5d4a-4e8b-9c7d-1a2b3c4d5e6f"
      (fun _ => 1700000000000%N)
      (fun _ => []).

(** The embedding service rejects every call. *)
Definition env_hf_down : env :=
  Env three_quarters
      (fun _ => Throw "Invalid credentials in Authorization header")
      (fun _ => None)
      (fun _ rs => rs)
      (fun _ => Ok "(generated)")
      "3f2b8c1e-5d4a-4e8b-9c7d-1a2b3c4d5e6f"
      (fun _ => 1700000000000%N)
      (fun _ => []).

(** A fresh process: nothing staged, an empty store, the native logger. *)
Definition boot : world := World ∅ ∅ NativeLog [] [] 0 [].

(** multer stages an upload before the handler runs. *)
Definition stage (p content : string) (w : world) : world :=
  with_files (<[p := content]> (files w)) w.

(** The records of a collection, with their ids. *)
Definition records_of (name : string) (w : world) : list (string * record) :=
  map_to_list (default ∅ (store w !! name)).

(** A string without the hyphen that separates the parts of an id. *)
Fixpoint dash_free (s : string) : bool :=
  match s with
  | EmptyString => true
  | String c s' => negb (Ascii.eqb c "-") && dash_free s'
  end.

(** Two uploads under the same context, one file with one sentence each. *)
Definition upload_a : ingest_request :=
  IngestRequest (Some [File "/tmp/u1" "a.txt"]) (Some "A").
Definition upload_b : ingest_request :=
  IngestRequest (Some [File "/tmp/u2" "b.txt"]) (Some "A").

Definition is_generation (ev : event) : bool :=
  match ev with GenerateContent _ => true | _ => false end.

Definition question : query_request :=
  QueryRequest (Some (QueryBody (Some "What is this document about?") None None)).

(** The id arrays of the upserts in a trace, in order. *)
Definition upserted_ids (t : list event) : list (list string) :=
  omap (fun ev => match ev with Upsert _ rs => Some rs.*1 | _ => None end) t.

(** The context an ingestion request runs under: the header, or a random
    one. *)
Definition context_of (E : env) (req : ingest_request) : string :=
  or_else (req_context req) ("ctx-" ++ substring 0 8 (randomUUID E)).

(** What an ingestion call may ask of the store: the one collection, and
    records tagged with the call's context. *)
Definition ingest_event_ok (ctx : string) (ev : event) : Prop :=
  match ev with
  | GetOrCreateCollection name => name = COLLECTION
  | Upsert name rs =>
      name = COLLECTION /\ Forall (fun ir => context (meta ir.2) = ctx) rs
  | Query _ _ _ => False
  | _ => True
  end.

(** What a query call may ask of the store: the one collection, searched
    with the filter made from the request's [c]. *)
Definition query_event_ok (c : option string) (ev : event) : Prop :=
  match ev with
  | GetOrCreateCollection name => name = COLLECTION
  | Query name _ where_ => name = COLLECTION /\ where_ = where_filter c
  | Upsert _ _ => False
  | _ => True
  end.

(** A computation relates the world it starts in to the world it ends in
    by [R], and a value it returns satisfies [Q]. *)
Definition respects_with {A : Type} (R : world -> world -> Prop) (Q : A -> Prop)
    (m : M A) : Prop :=
  forall w, R w (m w).2 /\ forall a, (m w).1 = Ok a -> Q a.

(** The trace has grown by events that satisfy [P]. *)
Definition appends (P : event -> Prop) (w w' : world) : Prop :=
  exists evs, trace w' = (trace w ++ evs)%list /\ Forall P evs.

(** A computation appends to the trace only events satisfying [P], and a
    value it returns satisfies [Q]. *)
Definition emits_with {A : Type} (P : event -> Prop) (Q : A -> Prop) (m : M A) : Prop :=
  respects_with (appends P) Q m.

Definition emits {A : Type} (P : event -> Prop) (m : M A) : Prop :=
  emits_with P (fun _ => True) m.

(** No file has appeared: a path that was free is still free. *)
Definition no_new_files (w w' : world) : Prop :=
  forall p, files w !! p = None -> files w' !! p = None.

(** A computation that stages no file. *)
Definition stages_nothing {A : Type} (m : M A) : Prop :=
  respects_with no_new_files (fun _ => True) m.

(** The world after one more traced call. *)
Definition traced (ev : event) (w : world) : world :=
  with_trace (trace w ++ [ev]) w.

(** The world after [lines] have gone through [console.log]: on standard
    output when the native function is bound, nowhere otherwise. *)
Definition printed (lines : list string) (w : world) : world :=
  match console_log w with
  | NativeLog => with_stdout (stdout w ++ lines) w
  | SilentLog => w
  end.

(** Chunks that all carry the context [ctx] in their metadata. *)
Definition tagged (ctx : string) (allChunks : list chunk) : Prop :=
  Forall (fun c => context (chunk_metadata c) = ctx) allChunks.

(** The world after [getOrCreateCollection]: the collection exists. *)
Definition created (name : string) (w : world) : world :=
  match store w !! name with
  | Some _ => w
  | None => with_store (<[name := ∅]> (store w)) w
  end.

(** *** The word-count chunker *)

(** The number of words the chunker counts in a sentence. *)
Definition words (s : string) : nat := length (V2.split_words s).

Definition total (g : list string) : nat := sum_list_with words g.

(** A group respects the target unless it is a single sentence. *)
Definition fits (targetWords : Z) (g : list string) : Prop :=
  length g = 1 \/ (Z.of_nat (total g) <= targetWords)%Z.

(** No group could have taken the first sentence of the next one. *)
Fixpoint packed (targetWords : Z) (gs : list (list string)) : Prop :=
  match gs with
  | g :: rest =>
      match rest with
      | g' :: _ =>
          match g' with
          | s :: _ => (targetWords < Z.of_nat (total g + words s))%Z
          | [] => True
          end /\ packed targetWords rest
      | [] => True
      end
  | [] => True
  end.

(** The loop's variables account for the sentences [seen] so far. *)
Definition gathered (targetWords : Z) (seen : list string) (st : V2.gather) : Prop :=
  exists groups : list (list string),
    V2.chunks st = List.map join groups /\
    Forall (fun g => g <> []) groups /\
    (concat groups ++ V2.cur st)%list = seen /\
    V2.curWords st = total (V2.cur st) /\
    Forall (fits targetWords) groups /\
    (V2.cur st = [] \/ fits targetWords (V2.cur st)) /\
    packed targetWords (groups ++ [V2.cur st])%list /\
    (V2.cur st = [] -> groups = []).

(** The non-whitespace characters of a list of texts, in order. *)
Definition non_space_of (l : list string) : list ascii :=
  concat (List.map non_space_chars l).

Definition no_terminator (s : string) : Prop :=
  forall c, In c (list_ascii_of_string s) -> is_terminator c = false.

(** *** The segmenter *)

Definition first_char (s : string) : option ascii :=
  match s with
  | String c _ => Some c
  | EmptyString => None
  end.

Fixpoint last_char (s : string) : option ascii :=
  match s with
  | EmptyString => None
  | String c EmptyString => Some c
  | String _ s' => last_char s'
  end.

Definition all_terminators (s : string) : Prop :=
  forall c, In c (list_ascii_of_string s) -> is_terminator c = true.

(** A text made of terminated sentences: it begins with a character that
    is no terminator and ends with a terminator. *)
Definition well_terminated (text : string) : Prop :=
  (exists c, first_char text = Some c /\ is_terminator c = false) /\
  (exists c, last_char text = Some c /\ is_terminator c = true).

(** The text of the match a scan state holds. *)
Definition acc_of (st : scan) : string :=
  match st with
  | Outside => EmptyString
  | InBody acc => acc
  | InTerm acc => acc
  end.

(** A run of non-terminators closed by a run of terminators. *)
Definition sentence_shaped (m : string) : Prop :=
  exists body terms,
    m = body ++ terms /\
    body <> EmptyString /\ no_terminator body /\
    terms <> EmptyString /\ all_terminators terms.

(** *** The chunking loop *)

Definition blank (text : string) : Prop :=
  forall c, In c (list_ascii_of_string text) -> is_space c = true.

(** *** The handlers *)

(** The collections hold the same records ([getOrCreateCollection] may
    have created an empty one). *)
Definition same_records (w w' : world) : Prop :=
  forall name, default ∅ (store w' !! name) = default ∅ (store w !! name).

(** Nothing was written: same records and same staged files. *)
Definition read_only (w w' : world) : Prop :=
  files w' = files w /\ same_records w w'.

(** The clock advances by one millisecond at every reading. *)
Definition env_ticking : env :=
  Env three_quarters
      (fun inputs => Ok (Nested (List.map toy_embed inputs)))
      (fun _ => None)
      (fun _ rs => rs)
      (fun _ => Ok "(generated)")
      "3f2b8c1e-5d4a-4e8b-9c7d-1a2b3c4d5e6f"
      (fun n => (1700000000000 + N.of_nat n)%N)
      (fun _ => []).

(** The vector store is down. *)
Definition env_store_down : env :=
  Env three_quarters
      (fun inputs => Ok (Nested (List.map toy_embed inputs)))
      (fun _ => Some "Failed to connect to chromadb")
      (fun _ rs => rs)
      (fun _ => Ok "(generated)")
      "3f2b8c1e-5d4a-4e8b-9c7d-1a2b3c4d5e6f"
      (fun _ => 1700000000000%N)
      (fun _ => []).

(** A computation relates the world it starts in to the world it ends in
    by [R], however it ends. *)
Definition frames {A : Type} (R : world -> world -> Prop) (m : M A) : Prop :=
  respects_with R (fun _ => True) m.

(** A computation that, when it returns, returns a response with status
    200. *)
Definition returns_200 (m : M response) : Prop :=
  respects_with (fun _ _ => True) (fun resp => status resp = 200) m.

(** When the computation throws, the worlds before and after are related
    by [R]. *)
Definition on_throw {A : Type} (R : world -> world -> Prop) (m : M A) : Prop :=
  forall w e w', m w = (Throw e, w') -> R w w'.

(** The record stored under [id] in the collection [name]. *)
Definition stored (name id : string) (w : world) : option record :=
  store w !! name ≫= fun coll => coll !! id.

(** The response reports [n] indexed chunks. *)
Definition reports (b : body) (n : nat) : Prop :=
  exists rest, b = OkBody ("Indexed " ++ show_nat n ++ " chunks" ++ rest).

(** An upload of one file with two sentences, and the world it is staged
    in. *)
Definition two_sentences : string := "Cats purr. The dog barks.".
Definition staged_a : world := stage "/tmp/u1" two_sentences boot.

(** *** Calls that overlap *)

(** The embedding client prints one line at every call. *)
Definition env_chatty : env :=
  Env three_quarters
      (fun inputs => Ok (Nested (List.map toy_embed inputs)))
      (fun _ => None)
      (fun _ rs => rs)
      (fun _ => Ok "(generated)")
      "3f2b8c1e-5d4a-4e8b-9c7d-1a2b3c4d5e6f"
      (fun _ => 1700000000000%N)
      (fun inputs => ["embedding " ++ show_nat (length inputs) ++ " inputs"]).

(** A part of a call has run, and what it returned or threw is with its
    caller: an exception in one call does not stop the others. *)
Definition settled {A : Type} (m : M A) : M (result A) :=
  fun w => (Ok (m w).1, (m w).2).

(** Two calls of the first listing's [getEmbeddings], the second made
    after the first has returned. *)
Definition one_after_the_other (E : env) (texts1 texts2 : list string)
    : M (result hf_resp * result hf_resp) :=
  r1 ← settled (V1.getEmbeddings E texts1);
  r2 ← settled (V1.getEmbeddings E texts2);
  mret (r1, r2).

(** Two calls that overlap: the second is made while the first is
    awaited (another request came in), and the promises settle in the
    order of the calls. *)
Definition overlapping (E : env) (texts1 texts2 : list string)
    : M (result hf_resp * result hf_resp) :=
  saved1 ← V1.getEmbeddings_begin texts1;
  saved2 ← V1.getEmbeddings_begin texts2;
  r1 ← settled (V1.getEmbeddings_resume E saved1 texts1);
  r2 ← settled (V1.getEmbeddings_resume E saved2 texts2);
  mret (r1, r2).

(** Two calls that overlap, the second promise settling first. *)
Definition overlapping_reversed (E : env) (texts1 texts2 : list string)
    : M (result hf_resp * result hf_resp) :=
  saved1 ← V1.getEmbeddings_begin texts1;
  saved2 ← V1.getEmbeddings_begin texts2;
  r2 ← settled (V1.getEmbeddings_resume E saved2 texts2);
  r1 ← settled (V1.getEmbeddings_resume E saved1 texts1);
  mret (r1, r2).

(** * Properties *)

(** ** Cosine similarity on a zero vector *)

Lemma mul_zero_l x y : Num.is_zero x = true -> zero_or_nan (x * y)%num = true.
Proof. destruct x; try discriminate; destruct y; reflexivity. Qed.

Lemma mul_zero_r x y : zero_or_nan y = true -> zero_or_nan (x * y)%num = true.
Proof. destruct y; try discriminate; destruct x; reflexivity. Qed.

Lemma mul_zero_or_nan_l x y : zero_or_nan x = true -> zero_or_nan (x * y)%num = true.
Proof. destruct x; try discriminate; destruct y; reflexivity. Qed.

Lemma add_zero_or_nan x y :
  zero_or_nan x = true -> zero_or_nan y = true -> zero_or_nan (x + y)%num = true.
Proof.
  destruct x as [[]| | |]; try discriminate;
    destruct y as [[]| | |]; try discriminate; reflexivity.
Qed.

Lemma sqrt_zero_or_nan x : zero_or_nan x = true -> zero_or_nan (Num.sqrt x) = true.
Proof. destruct x; try discriminate; reflexivity. Qed.

Lemma div_zero_or_nan x y :
  zero_or_nan x = true -> zero_or_nan y = true -> (x / y)%num = Num.nan.
Proof.
  destruct x; try discriminate; destruct y; try discriminate; reflexivity.
Qed.

Lemma is_zero_zero_or_nan x : Num.is_zero x = true -> zero_or_nan x = true.
Proof. destruct x; try discriminate; reflexivity. Qed.

Lemma at_index_zero_vec v i : zero_vec v -> zero_or_nan (at_index v i) = true.
Proof.
  intros Hv. unfold at_index. destruct (v !! i) as [x|] eqn:Hx; [|reflexivity].
  apply is_zero_zero_or_nan.
  eapply Forall_lookup_1 in Hv; eauto.
Qed.

Lemma reduce_from_zero_or_nan {A} (f : Num.num -> A -> nat -> Num.num) (P : A -> Prop) :
  (forall acc a i, zero_or_nan acc = true -> P a -> zero_or_nan (f acc a i) = true) ->
  forall l i acc, Forall P l -> zero_or_nan acc = true ->
    zero_or_nan (reduce_from f i l acc) = true.
Proof.
  intros Hf l. induction l as [|a l IH]; intros i acc Hl Hacc; simpl; [exact Hacc|].
  inversion Hl; subst. apply IH; auto.
Qed.

Lemma dot_zero_l vecA vecB : zero_vec vecA -> zero_or_nan (dot vecA vecB) = true.
Proof.
  intros HA. unfold dot, reduce.
  apply reduce_from_zero_or_nan with (P := fun x => Num.is_zero x = true); auto.
  intros acc a i Hacc Ha. apply add_zero_or_nan; [exact Hacc|]. now apply mul_zero_l.
Qed.

Lemma dot_zero_r vecA vecB : zero_vec vecB -> zero_or_nan (dot vecA vecB) = true.
Proof.
  intros HB. unfold dot, reduce.
  apply reduce_from_zero_or_nan with (P := fun _ => True); auto.
  - intros acc a i Hacc _. apply add_zero_or_nan; [exact Hacc|].
    apply mul_zero_r. now apply at_index_zero_vec.
  - clear. induction vecA; constructor; auto.
Qed.

Lemma magnitude_zero v : zero_vec v -> zero_or_nan (magnitude v) = true.
Proof.
  intros Hv. unfold magnitude, reduce. apply sqrt_zero_or_nan.
  apply reduce_from_zero_or_nan with (P := fun x => Num.is_zero x = true); auto.
  intros acc a i Hacc Ha. apply add_zero_or_nan; [exact Hacc|]. now apply mul_zero_l.
Qed.

(** The quotient is [0/0] or involves a NaN: the similarity is NaN. *)
Lemma cosineSimilarity_zero vecA vecB :
  zero_vec vecA \/ zero_vec vecB -> cosineSimilarity vecA vecB = Num.nan.
Proof.
  intros [HA|HB]; unfold cosineSimilarity; apply div_zero_or_nan.
  - now apply dot_zero_l.
  - apply mul_zero_or_nan_l. now apply magnitude_zero.
  - now apply dot_zero_r.
  - apply mul_zero_r. now apply magnitude_zero.
Qed.

Lemma geb_nan threshold : Num.geb Num.nan threshold = false.
Proof. destruct threshold; reflexivity. Qed.

Lemma ltb_nan threshold : Num.ltb Num.nan threshold = false.
Proof. destruct threshold; reflexivity. Qed.

(** ** Strings *)

Lemma append_cons (a : ascii) (s1 s2 : string) :
  String a s1 ++ s2 = String a (s1 ++ s2).
Proof. reflexivity. Qed.

Lemma append_nil_l (s : string) : EmptyString ++ s = s.
Proof. reflexivity. Qed.

Lemma append_nil_r (s : string) : s ++ EmptyString = s.
Proof.
  induction s as [|a s IH]; [reflexivity|]. now rewrite append_cons, IH.
Qed.

Lemma append_assoc (s1 s2 s3 : string) : (s1 ++ s2) ++ s3 = s1 ++ (s2 ++ s3).
Proof.
  induction s1 as [|a s1 IH]; [reflexivity|]. now rewrite !append_cons, IH.
Qed.

Lemma append_nonempty_r (s1 s2 : string) : nonempty s2 -> nonempty (s1 ++ s2).
Proof.
  intros H. destruct s1; [exact H|]. rewrite append_cons. discriminate.
Qed.

Lemma is_empty_false (s : string) : nonempty s -> is_empty s = false.
Proof. destruct s; [intros H; now elim H|reflexivity]. Qed.

Lemma join_snoc (g : list string) (s : string) :
  g <> [] -> join (g ++ [s]) = join g ++ " " ++ s.
Proof.
  induction g as [|x g IH]; intros Hg; [now elim Hg|].
  destruct g as [|y g].
  - reflexivity.
  - change (join ((x :: y :: g) ++ [s])) with (x ++ " " ++ join ((y :: g) ++ [s])).
    rewrite IH by discriminate.
    change (join (x :: y :: g)) with (x ++ " " ++ join (y :: g)).
    now rewrite !append_assoc.
Qed.

Lemma join_nonempty (g : list string) :
  g <> [] -> Forall nonempty g -> nonempty (join g).
Proof.
  destruct g as [|x g]; intros Hg Hall; [now elim Hg|].
  inversion Hall as [|? ? Hx _]; subst.
  destruct g as [|y g]; [exact Hx|].
  change (join (x :: y :: g)) with (x ++ " " ++ join (y :: g)).
  apply append_nonempty_r. discriminate.
Qed.

(** ** The chunking loop *)

Lemma chunk_from_app threshold vecs l1 : forall l2 i st,
  chunk_from threshold vecs i (l1 ++ l2) st =
  match chunk_from threshold vecs i l1 st with
  | Ok st' => chunk_from threshold vecs (i + length l1) l2 st'
  | Throw e => Throw e
  end.
Proof.
  induction l1 as [|s l1 IH]; intros l2 i st; cbn.
  - now rewrite Nat.add_0_r.
  - destruct (step threshold vecs i s st) as [st'|e]; [|reflexivity].
    rewrite IH. now replace (S i + length l1) with (i + S (length l1)) by lia.
Qed.

(** Reaching one sentence further is one more iteration. *)
Lemma chunk_from_snoc threshold vecs pre s i st :
  chunk_from threshold vecs i (pre ++ [s]) st =
  match chunk_from threshold vecs i pre st with
  | Ok st' => step threshold vecs (i + length pre) s st'
  | Throw e => Throw e
  end.
Proof.
  rewrite chunk_from_app.
  destruct (chunk_from threshold vecs i pre st) as [st'|e]; [|reflexivity].
  cbn. now destruct (step threshold vecs (i + length pre) s st').
Qed.

Lemma step_total threshold vecs i s st :
  i < length vecs -> exists st', step threshold vecs i s st = Ok st'.
Proof.
  intros Hi. unfold step.
  destruct (lookup_lt_is_Some_2 vecs i Hi) as [v ->].
  destruct (Num.geb _ _); eauto.
Qed.

(** With a vector for every sentence the loop runs to its end. *)
Lemma chunk_from_total threshold vecs rest : forall i st,
  i + length rest <= length vecs ->
  exists st', chunk_from threshold vecs i rest st = Ok st'.
Proof.
  induction rest as [|s rest IH]; intros i st Hlen; cbn in *; [eauto|].
  destruct (step_total threshold vecs i s st) as [st' ->]; [lia|].
  apply IH. lia.
Qed.

Lemma step_covers threshold vecs i s st st' seen :
  covers seen st -> step threshold vecs i s st = Ok st' ->
  covers (seen ++ [s]) st'.
Proof.
  intros (groups & g & Hc & Hcur & Hg & Hgs & Hseen). unfold step.
  destruct (vecs !! i) as [v|]; [|discriminate].
  destruct (Num.geb _ _); intros [= <-]; cbn.
  - exists groups, (g ++ [s])%list. cbn. split_and!.
    + exact Hc.
    + rewrite Hcur. symmetry. now apply join_snoc.
    + destruct g; discriminate.
    + exact Hgs.
    + now rewrite List.app_assoc, Hseen.
  - exists (groups ++ [g])%list, [s]. cbn. split_and!.
    + now rewrite map_app, Hc, Hcur.
    + reflexivity.
    + discriminate.
    + apply Forall_app; split; auto.
    + rewrite concat_app. cbn. now rewrite List.app_nil_r, Hseen.
Qed.

Lemma chunk_from_covers threshold vecs rest : forall i st st' seen,
  covers seen st -> chunk_from threshold vecs i rest st = Ok st' ->
  covers (seen ++ rest) st'.
Proof.
  induction rest as [|s rest IH]; intros i st st' seen Hcov; cbn.
  - intros [= <-]. now rewrite List.app_nil_r.
  - destruct (step threshold vecs i s st) as [st1|e] eqn:Hstep; [|discriminate].
    intros Hrest. replace (seen ++ s :: rest)%list with ((seen ++ [s]) ++ rest)%list
      by now rewrite <- List.app_assoc.
    eapply IH; [|exact Hrest]. eapply step_covers; eauto.
Qed.

Lemma init_covers s0 v0 : covers [s0] (init s0 v0).
Proof. exists [], [s0]. cbn. split_and!; auto; discriminate. Qed.

Lemma finish_covers seen st :
  covers seen st -> Forall nonempty seen ->
  exists groups, finish st = List.map join groups /\
                 concat groups = seen /\ Forall (fun g => g <> []) groups.
Proof.
  intros (groups & g & Hc & Hcur & Hg & Hgs & Hseen) Hall.
  exists (groups ++ [g])%list. unfold finish.
  rewrite is_empty_false.
  - rewrite map_app, Hc, Hcur. cbn. split_and!.
    + reflexivity.
    + rewrite concat_app. cbn. now rewrite List.app_nil_r.
    + apply Forall_app; split; auto.
  - rewrite Hcur. apply join_nonempty; [exact Hg|].
    rewrite <- Hseen in Hall. now apply Forall_app in Hall as [_ ?].
Qed.

Lemma vecs_of_nonempty embeddings : vecs_of embeddings <> [].
Proof. destruct embeddings as [[|v vs]|v]; discriminate. Qed.

(** The loop on cleaned sentences, given a vector for each of them. *)
Lemma chunkLoop_covers threshold cleanSentences embeddings :
  Forall nonempty cleanSentences ->
  length cleanSentences <= length (vecs_of embeddings) ->
  exists groups,
    chunkLoop threshold cleanSentences embeddings = Ok (List.map join groups) /\
    concat groups = cleanSentences /\ Forall (fun g => g <> []) groups.
Proof.
  intros Hall Hlen. unfold chunkLoop.
  destruct cleanSentences as [|s0 rest].
  - exists []. split_and!; auto.
  - pose proof (vecs_of_nonempty embeddings) as Hne.
    destruct (vecs_of embeddings) as [|v0 vs] eqn:Hv; [now elim Hne|].
    destruct (chunk_from_total threshold (v0 :: vs) rest 1 (Chunker [] s0 v0))
      as [st Hst]; [cbn in *; lia|].
    rewrite Hst.
    destruct (finish_covers (s0 :: rest) st) as (groups & Hf & Hcat & Hgs);
      [|exact Hall|].
    + apply (chunk_from_covers _ _ _ _ _ _ [s0] (init_covers s0 v0) Hst).
    + exists groups. now rewrite Hf.
Qed.

Lemma chunkLoop_single threshold s embeddings :
  nonempty s -> chunkLoop threshold [s] embeddings = Ok [s].
Proof.
  intros Hs. unfold chunkLoop.
  destruct (vecs_of embeddings); [reflexivity|].
  cbn. unfold finish. cbn. now rewrite is_empty_false.
Qed.

(** ** Comparisons *)

Lemma SFcompare_antisym (a b : Num.num) (c : comparison) :
  SFcompare a b = Some c -> SFcompare b a = Some (CompOpp c).
Proof.
  destruct a as [sa|sa| |sa ma ea], b as [sb|sb| |sb mb eb]; cbn;
    try discriminate;
    try (destruct sa; intros [= <-]; reflexivity);
    try (destruct sb; intros [= <-]; reflexivity);
    try (destruct sa, sb; intros [= <-]; reflexivity).
  pose proof (Pos.compare_cont_antisym ma mb Eq) as Hm. cbn in Hm.
  destruct sa, sb; intros [= <-]; try reflexivity;
    rewrite (Z.compare_antisym ea eb); destruct (ea ?= eb)%Z; cbn; try reflexivity;
    rewrite <- Hm; now destruct (Pos.compare_cont Eq ma mb).
Qed.

Lemma SFcompare_defined (a b : Num.num) :
  Num.is_nan a = false -> Num.is_nan b = false -> exists c, SFcompare a b = Some c.
Proof.
  destruct a, b; cbn; try discriminate; intros _ _; eauto.
Qed.

(** On numbers, not [>=] is [<]. *)
Lemma not_geb_ltb (sim threshold : Num.num) :
  Num.is_nan sim = false -> Num.is_nan threshold = false ->
  Num.geb sim threshold = false -> Num.ltb sim threshold = true.
Proof.
  intros Hs Ht. unfold Num.geb, Num.ltb, SFleb, SFltb.
  destruct (SFcompare_defined threshold sim Ht Hs) as [c Hc].
  rewrite Hc, (SFcompare_antisym _ _ _ Hc).
  now destruct c.
Qed.

Lemma ltb_not_geb (sim threshold : Num.num) :
  Num.ltb sim threshold = true -> Num.geb sim threshold = false.
Proof.
  unfold Num.geb, Num.ltb, SFleb, SFltb.
  destruct (SFcompare sim threshold) as [c|] eqn:Hc; [|discriminate].
  rewrite (SFcompare_antisym _ _ _ Hc). now destruct c.
Qed.

(** ** The anchor *)

Lemma step_similar threshold vecs i s st v :
  vecs !! i = Some v ->
  Num.geb (cosineSimilarity (currentVec st) v) threshold = true ->
  step threshold vecs i s st =
  Ok (Chunker (chunks st) (currentChunk st ++ " " ++ s) (currentVec st)).
Proof. intros Hv Hsim. unfold step. now rewrite Hv, Hsim. Qed.

Lemma step_boundary threshold vecs i s st v :
  vecs !! i = Some v ->
  Num.geb (cosineSimilarity (currentVec st) v) threshold = false ->
  step threshold vecs i s st =
  Ok (Chunker (chunks st ++ [currentChunk st]) s v).
Proof. intros Hv Hsim. unfold step. now rewrite Hv, Hsim. Qed.

(** Whatever the loop has done so far, the anchor is the embedding of the
    sentence that opened the chunk under construction. *)
Lemma anchor_opened threshold vecs s0 v0 pre : forall st,
  vecs !! 0 = Some v0 ->
  chunk_from threshold vecs 1 pre (init s0 v0) = Ok st ->
  exists j, opened_at (s0 :: pre) vecs j st.
Proof.
  induction pre as [|s pre IH] using rev_ind; intros st Hv0.
  - cbn. intros [= <-]. exists 0. unfold opened_at. cbn. split_and!; auto.
  - rewrite chunk_from_snoc.
    destruct (chunk_from threshold vecs 1 pre (init s0 v0)) as [st1|e] eqn:Hpre;
      [|discriminate].
    destruct (IH st1 Hv0 eq_refl) as (j & Hj & Hanchor & Hcur).
    unfold step. destruct (vecs !! (1 + length pre)) as [v|] eqn:Hv; [|discriminate].
    destruct (Num.geb _ _); intros [= <-].
    + exists j. unfold opened_at. cbn [chunks currentChunk currentVec].
      split_and!.
      * cbn in *. rewrite length_app. cbn. lia.
      * exact Hanchor.
      * change (s0 :: pre ++ [s])%list with ((s0 :: pre) ++ [s])%list.
        rewrite drop_app_le by (cbn in *; lia).
        rewrite join_snoc, Hcur; [reflexivity|].
        intros Hnil. apply (f_equal length) in Hnil.
        rewrite length_drop in Hnil. cbn in *. lia.
    + exists (1 + length pre). unfold opened_at. cbn [chunks currentChunk currentVec].
      split_and!.
      * cbn. rewrite length_app. cbn. lia.
      * exact Hv.
      * change (s0 :: pre ++ [s])%list with ((s0 :: pre) ++ [s])%list.
        rewrite drop_app_length'; [reflexivity|]. cbn. lia.
Qed.

(** C4. While the loop runs, the anchor is the embedding of the sentence
    that opened the chunk under construction.  When the loop reaches the
    next sentence [s], with embedding [v]: if the similarity of the anchor
    and [v] is at least the threshold, [s] is appended to the open chunk
    after a space and the anchor is kept; if it is below the threshold,
    the open chunk is emitted, [s] starts a new chunk and [v] becomes the
    anchor.  A chunk is emitted at this point only if the comparison
    [sim >= threshold] fails, which for numbers means [sim < threshold]. *)
Theorem anchor_stays_at_run_start threshold vecs s0 v0 pre s st v :
  vecs !! 0 = Some v0 ->
  chunk_from threshold vecs 1 pre (init s0 v0) = Ok st ->
  vecs !! (1 + length pre) = Some v ->
  let sim := cosineSimilarity (currentVec st) v in
  let next := chunk_from threshold vecs 1 (pre ++ [s]) (init s0 v0) in
  (exists j, opened_at (s0 :: pre) vecs j st) /\
  (Num.geb sim threshold = true ->
     next = Ok (Chunker (chunks st) (currentChunk st ++ " " ++ s) (currentVec st))) /\
  (Num.ltb sim threshold = true ->
     next = Ok (Chunker (chunks st ++ [currentChunk st]) s v)) /\
  (forall st', next = Ok st' -> chunks st' <> chunks st ->
     Num.geb sim threshold = false /\
     (Num.is_nan sim = false -> Num.is_nan threshold = false ->
      Num.ltb sim threshold = true)).
Proof.
  intros Hv0 Hpre Hv sim next. subst next.
  rewrite chunk_from_snoc, Hpre. split_and!.
  - eapply anchor_opened; eauto.
  - intros Hsim. now apply (step_similar _ _ _ _ _ v).
  - intros Hlt. apply step_boundary; [exact Hv|]. now apply ltb_not_geb.
  - intros st' Hnext Hemit.
    destruct (Num.geb sim threshold) eqn:Hsim.
    + rewrite (step_similar _ _ _ _ _ v Hv Hsim) in Hnext.
      injection Hnext as <-. now elim Hemit.
    + split; [reflexivity|]. intros Hs Ht. now apply not_geb_ltb.
Qed.

Lemma anchor_stays_at_run_start_witness :
  let vecs := [[Num.of_Z 1; Num.of_Z 0]; [Num.of_Z 1; Num.of_Z 1]] in
  let st := init "Cats are mammals." [Num.of_Z 1; Num.of_Z 0] in
  let v := [Num.of_Z 1; Num.of_Z 1] in
  let threshold := Num.of_Z 0 in
  let s := "Dogs are mammals too." in
  let sim := cosineSimilarity (currentVec st) v in
  let next := chunk_from threshold vecs 1 ([] ++ [s]) st in
  (exists j, opened_at ["Cats are mammals."] vecs j st) /\
  (Num.geb sim threshold = true ->
     next = Ok (Chunker (chunks st) (currentChunk st ++ " " ++ s) (currentVec st))) /\
  (Num.ltb sim threshold = true ->
     next = Ok (Chunker (chunks st ++ [currentChunk st]) s v)) /\
  (forall st', next = Ok st' -> chunks st' <> chunks st ->
     Num.geb sim threshold = false /\
     (Num.is_nan sim = false -> Num.is_nan threshold = false ->
      Num.ltb sim threshold = true)).
Proof.
  exact (anchor_stays_at_run_start (Num.of_Z 0)
           [[Num.of_Z 1; Num.of_Z 0]; [Num.of_Z 1; Num.of_Z 1]]
           "Cats are mammals." [Num.of_Z 1; Num.of_Z 0] []
           "Dogs are mammals too."
           (init "Cats are mammals." [Num.of_Z 1; Num.of_Z 0])
           [Num.of_Z 1; Num.of_Z 1] eq_refl eq_refl eq_refl).
Defined.

(** C5. When the loop compares the anchor with the embedding of the next
    sentence and one of the two is a zero vector, [cosineSimilarity]
    returns NaN (no exception is thrown), the test [sim >= threshold] is
    false whatever the threshold, and the iteration closes the open chunk
    and starts a new one at that sentence. *)
Theorem zero_magnitude_forces_boundary threshold vecs s0 v0 pre s st v :
  chunk_from threshold vecs 1 pre (init s0 v0) = Ok st ->
  vecs !! (1 + length pre) = Some v ->
  zero_vec (currentVec st) \/ zero_vec v ->
  cosineSimilarity (currentVec st) v = Num.nan /\
  Num.geb (cosineSimilarity (currentVec st) v) threshold = false /\
  chunk_from threshold vecs 1 (pre ++ [s]) (init s0 v0) =
    Ok (Chunker (chunks st ++ [currentChunk st]) s v).
Proof.
  intros Hpre Hv Hzero.
  pose proof (cosineSimilarity_zero _ _ Hzero) as Hnan.
  assert (Num.geb (cosineSimilarity (currentVec st) v) threshold = false) as Hsim
    by (rewrite Hnan; apply geb_nan).
  split_and!; [exact Hnan|exact Hsim|].
  rewrite chunk_from_snoc, Hpre. now apply step_boundary.
Qed.

Lemma zero_magnitude_forces_boundary_witness :
  let anchor := [Num.of_Z 1; Num.of_Z 0] in
  let v := [Num.zero; S754_zero true] in
  let threshold := Num.of_Z (-5) in
  cosineSimilarity anchor v = Num.nan /\
  Num.geb (cosineSimilarity anchor v) threshold = false /\
  chunk_from threshold [anchor; v] 1 ([] ++ ["B."]) (init "A." anchor) =
    Ok (Chunker [ "A." ] "B." v).
Proof.
  refine (zero_magnitude_forces_boundary (Num.of_Z (-5))
            [[Num.of_Z 1; Num.of_Z 0]; [Num.zero; S754_zero true]]
            "A." [Num.of_Z 1; Num.of_Z 0] [] "B."
            (init "A." [Num.of_Z 1; Num.of_Z 0])
            [Num.zero; S754_zero true] eq_refl eq_refl _).
  right. repeat constructor.
Defined.

(** The anchor is not the last sentence added: with embeddings at 0, 45
    and 90 degrees and a threshold of one half, the third sentence is
    compared with the first (similarity 0) and opens a new chunk, although
    it is similar enough to the second. *)
Example anchor_is_not_the_last_sentence :
  let v0 := [Num.of_Z 1; Num.of_Z 0] in
  let v1 := [Num.of_Z 1; Num.of_Z 1] in
  let v2 := [Num.of_Z 0; Num.of_Z 1] in
  let half := (Num.of_Z 1 / Num.of_Z 2)%num in
  chunkLoop half ["A."; "B."; "C."] (Nested [v0; v1; v2]) = Ok ["A. B."; "C."] /\
  Num.geb (cosineSimilarity v1 v2) half = true.
Proof. vm_compute. auto. Qed.

(** A vector is compared with itself at similarity 1 only up to rounding:
    for [(1, 2)] the quotient is the double just below 1. *)
Example cosineSimilarity_self_rounds :
  cosineSimilarity [Num.of_Z 1; Num.of_Z 2] [Num.of_Z 1; Num.of_Z 2] =
  S754_finite false 9007199254740990 (-53).
Proof. vm_compute. reflexivity. Qed.

(** The zero vector is the only case the boundary rule is about.  A
    non-zero vector whose squares underflow has a computed magnitude of
    zero too; against it the quotient is an infinity, not NaN, and
    [+Infinity >= threshold] holds. *)
Example underflow_is_not_a_zero_vector :
  let tiny := [S754_finite false 4503599627370496 (-752)] in
  let big := [S754_finite false 4503599627370496 48] in
  magnitude tiny = Num.zero /\
  cosineSimilarity tiny big = S754_infinity false /\
  Num.geb (cosineSimilarity tiny big) three_quarters = true.
Proof. vm_compute. auto. Qed.

(** ** Running the monad *)

Lemma bind_ok {A B} (m : M A) (f : A -> M B) w a w' :
  m w = (Ok a, w') -> (m ≫= f) w = f a w'.
Proof. intros H. unfold mbind, M_bind. now rewrite H. Qed.

Lemma bind_throw {A B} (m : M A) (f : A -> M B) w e w' :
  m w = (Throw e, w') -> (m ≫= f) w = (Throw e, w').
Proof. intros H. unfold mbind, M_bind. now rewrite H. Qed.

Lemma bind_inv_ok {A B} (m : M A) (f : A -> M B) w b w' :
  (m ≫= f) w = (Ok b, w') ->
  exists a w1, m w = (Ok a, w1) /\ f a w1 = (Ok b, w').
Proof.
  unfold mbind, M_bind. destruct (m w) as [[a|e] w1]; [eauto|discriminate].
Qed.

Lemma bind_inv_throw {A B} (m : M A) (f : A -> M B) w e w' :
  (m ≫= f) w = (Throw e, w') ->
  m w = (Throw e, w') \/ exists a w1, m w = (Ok a, w1) /\ f a w1 = (Throw e, w').
Proof.
  unfold mbind, M_bind. destruct (m w) as [[a|e0] w1]; [eauto|].
  intros [= <- <-]. auto.
Qed.

Lemma print_all_run lines : forall w, print_all lines w = (Ok tt, printed lines w).
Proof.
  unfold print_all. induction lines as [|l ls IH]; intros w.
  - cbn. unfold mret, M_ret, printed. f_equal.
    destruct w as [? ? [] ? ? ? ?]; cbn; [|reflexivity].
    unfold with_stdout; cbn. now rewrite List.app_nil_r.
  - cbn [foldM]. erewrite bind_ok by reflexivity. rewrite IH. f_equal.
    destruct w as [? ? [] ? ? ? ?]; cbn; [|reflexivity].
    unfold printed, with_stdout; cbn. now rewrite <- List.app_assoc.
Qed.

Lemma printed_silent lines w : console_log w = SilentLog -> printed lines w = w.
Proof. intros H. unfold printed. now rewrite H. Qed.

Lemma trace_printed lines w : trace (printed lines w) = trace w.
Proof. unfold printed. now destruct (console_log w). Qed.

Lemma hf_settle_run E inputs w :
  hf_settle E inputs w = (featureExtraction E inputs, printed (diagnostics E inputs) w).
Proof. unfold hf_settle. erewrite bind_ok by apply print_all_run. reflexivity. Qed.

Lemma hf_featureExtraction_run E inputs w :
  hf_featureExtraction E inputs w =
  (featureExtraction E inputs,
   printed (diagnostics E inputs) (traced (FeatureExtraction inputs) w)).
Proof.
  unfold hf_featureExtraction. erewrite bind_ok by reflexivity. apply hf_settle_run.
Qed.

(** *** The embedding client of the first listing *)

Lemma V1_getEmbeddings_begin_run texts w :
  V1.getEmbeddings_begin texts w =
  (Ok (console_log w),
   traced (FeatureExtraction texts) (with_console_log SilentLog w)).
Proof. reflexivity. Qed.

(** While the binding is silent the client's diagnostics go nowhere, and
    a call that resolves is traced and nothing more. *)
Lemma V1_getEmbeddings_ok E texts resp w :
  featureExtraction E texts = Ok resp ->
  V1.getEmbeddings E texts w = (Ok resp, traced (FeatureExtraction texts) w).
Proof.
  intros H. unfold V1.getEmbeddings.
  erewrite bind_ok by apply V1_getEmbeddings_begin_run.
  unfold V1.getEmbeddings_resume.
  erewrite bind_ok by (rewrite hf_settle_run, H, printed_silent; reflexivity).
  now destruct w.
Qed.

Lemma V1_getEmbeddings_throw E texts e w :
  featureExtraction E texts = Throw e ->
  V1.getEmbeddings E texts w =
  (Throw e, with_console_log SilentLog (traced (FeatureExtraction texts) w)).
Proof.
  intros H. unfold V1.getEmbeddings.
  erewrite bind_ok by apply V1_getEmbeddings_begin_run.
  unfold V1.getEmbeddings_resume.
  erewrite bind_throw by (rewrite hf_settle_run, H, printed_silent; reflexivity).
  now destruct w.
Qed.

(** *** The embedding client of the third listing *)

Lemma V3_getEmbeddings_ok E texts resp w :
  featureExtraction E texts = Ok resp ->
  V3.getEmbeddings E texts w =
  (Ok resp, printed (diagnostics E texts) (traced (FeatureExtraction texts) w)).
Proof.
  intros H. unfold V3.getEmbeddings, try_catch.
  erewrite bind_ok by (rewrite hf_featureExtraction_run, H; reflexivity).
  reflexivity.
Qed.

Lemma V3_getEmbeddings_throw E texts e w :
  featureExtraction E texts = Throw e ->
  V3.getEmbeddings E texts w =
  (Throw e,
   with_stderr (stderr (printed (diagnostics E texts) w) ++
                ["❌ Embedding Error: " ++ e])
               (printed (diagnostics E texts) (traced (FeatureExtraction texts) w))).
Proof.
  intros H. unfold V3.getEmbeddings, try_catch.
  erewrite bind_throw by (rewrite hf_featureExtraction_run, H; reflexivity).
  unfold mbind, M_bind, log_error, modify, throw. cbn. do 2 f_equal.
  unfold printed. now destruct w as [? ? [] ? ? ? ?].
Qed.

(** *** The chunker, once the embeddings have arrived *)

Lemma V1_chunk_sentences_ok E threshold sentences resp w :
  sentences <> [] ->
  featureExtraction E sentences = Ok resp ->
  exists w', V1.chunk_sentences E threshold sentences w =
             (chunkLoop threshold sentences resp, w').
Proof.
  intros Hne H. destruct sentences as [|s0 rest]; [now elim Hne|].
  unfold V1.chunk_sentences.
  eexists. erewrite bind_ok by reflexivity.
  erewrite bind_ok by (apply V1_getEmbeddings_ok; exact H).
  reflexivity.
Qed.

Lemma V3_chunk_sentences_ok E threshold sentences resp w :
  sentences <> [] ->
  featureExtraction E sentences = Ok resp ->
  V3.chunk_sentences E threshold sentences w =
  (chunkLoop threshold sentences resp,
   printed (diagnostics E sentences) (traced (FeatureExtraction sentences) w)).
Proof.
  intros Hne H. destruct sentences as [|s0 rest]; [now elim Hne|].
  unfold V3.chunk_sentences.
  erewrite bind_ok by (apply V3_getEmbeddings_ok; exact H).
  reflexivity.
Qed.

(** With a vector for every sentence, the chunks are the joined groups of
    a split of the sentences into consecutive non-empty runs. *)
Lemma V1_chunk_sentences_covers E threshold sentences resp w :
  Forall nonempty sentences ->
  featureExtraction E sentences = Ok resp ->
  length sentences <= length (vecs_of resp) ->
  exists groups w',
    V1.chunk_sentences E threshold sentences w = (Ok (List.map join groups), w') /\
    concat groups = sentences /\
    Forall (fun g => g <> []) groups.
Proof.
  intros Hall Hresp Hlen.
  destruct (chunkLoop_covers threshold sentences resp Hall Hlen)
    as (groups & Hloop & Hcat & Hgs).
  destruct sentences as [|s0 rest].
  - exists [], w. destruct groups; [|discriminate]. split_and!; auto.
  - destruct (V1_chunk_sentences_ok E threshold (s0 :: rest) resp w) as [w' Hrun];
      [discriminate|exact Hresp|].
    exists groups, w'. rewrite Hrun, Hloop. auto.
Qed.

(** C2. On cleaned (non-empty) sentences the chunker of main.js 55-76
    returns, whenever the embedding call answers with a vector for every
    sentence, the space-joined texts of a split of the sentences into
    consecutive non-empty groups: concatenated in order the groups are the
    input, every sentence once and in its place.  No sentence gives no
    chunk, without any call; one sentence gives that sentence as the only
    chunk. *)
Theorem chunker_covers_sentences E threshold sentences w :
  Forall nonempty sentences ->
  (sentences = [] ->
     V1.chunk_sentences E threshold sentences w = (Ok [], w)) /\
  (forall resp,
     featureExtraction E sentences = Ok resp ->
     length sentences <= length (vecs_of resp) ->
     exists groups w',
       V1.chunk_sentences E threshold sentences w = (Ok (List.map join groups), w') /\
       concat groups = sentences /\
       Forall (fun g => g <> []) groups) /\
  (forall s resp,
     sentences = [s] ->
     featureExtraction E sentences = Ok resp ->
     exists w', V1.chunk_sentences E threshold sentences w = (Ok [s], w')).
Proof.
  intros Hall. split_and!.
  - intros ->. reflexivity.
  - intros resp Hresp Hlen. now apply (V1_chunk_sentences_covers E _ _ resp).
  - intros s resp -> Hresp.
    destruct (V1_chunk_sentences_ok E threshold [s] resp w) as [w' Hrun];
      [discriminate|exact Hresp|].
    exists w'. rewrite Hrun, chunkLoop_single; [reflexivity|].
    now inversion Hall.
Qed.

Lemma chunker_covers_sentences_witness :
  let sentences := ["Cats are mammals."; "Dogs are mammals too.";
                    "The stock market crashed today."] in
  (sentences = [] ->
     V1.chunk_sentences env_up three_quarters sentences boot = (Ok [], boot)) /\
  (forall resp,
     featureExtraction env_up sentences = Ok resp ->
     length sentences <= length (vecs_of resp) ->
     exists groups w',
       V1.chunk_sentences env_up three_quarters sentences boot =
         (Ok (List.map join groups), w') /\
       concat groups = sentences /\
       Forall (fun g => g <> []) groups) /\
  (forall s resp,
     sentences = [s] ->
     featureExtraction env_up sentences = Ok resp ->
     exists w', V1.chunk_sentences env_up three_quarters sentences boot = (Ok [s], w')).
Proof.
  apply (chunker_covers_sentences env_up three_quarters
           ["Cats are mammals."; "Dogs are mammals too.";
            "The stock market crashed today."] boot).
  repeat constructor; discriminate.
Defined.

(** The scenario of the specification, with the toy model: two chunks. *)
Example scenario_two_chunks :
  (V1.semanticChunking env_up
     "Cats are mammals. Dogs are mammals too. The stock market crashed today."
     three_quarters boot).1 =
  Ok ["Cats are mammals. Dogs are mammals too.";
      "The stock market crashed today."].
Proof. vm_compute. reflexivity. Qed.

(** ** The segmenter *)

Lemma segment_nonempty (text : string) : Forall nonempty (segment text).
Proof.
  unfold segment. apply List.Forall_forall. intros s Hs.
  apply List.filter_In in Hs as [_ Hs].
  destruct s; [discriminate|]. discriminate.
Qed.

(** The chunker on a whole text: its sentences are cleaned, so the chunks
    split them into consecutive non-empty runs. *)
Lemma semanticChunking_covers E threshold text resp w :
  featureExtraction E (segment text) = Ok resp ->
  length (segment text) <= length (vecs_of resp) ->
  exists groups w',
    V1.semanticChunking E text threshold w = (Ok (List.map join groups), w') /\
    concat groups = segment text /\
    Forall (fun g => g <> []) groups.
Proof.
  intros Hresp Hlen. unfold V1.semanticChunking.
  apply (V1_chunk_sentences_covers E _ _ resp); auto using segment_nonempty.
Qed.

Lemma match_from_no_terminator (s : string) :
  (forall c, In c (list_ascii_of_string s) -> is_terminator c = false) ->
  forall st, (st = Outside \/ exists acc, st = InBody acc) -> match_from st s = [].
Proof.
  induction s as [|c s IH]; intros Hs st Hst.
  - destruct Hst as [->|[acc ->]]; reflexivity.
  - cbn [match_from]. rewrite (Hs c) by (cbn; auto).
    assert (forall c', In c' (list_ascii_of_string s) -> is_terminator c' = false)
      as Hs' by (intros c' Hc'; apply Hs; cbn; auto).
    destruct Hst as [->|[acc ->]]; apply IH; eauto.
Qed.

(** Without any terminator the whole text is the one sentence. *)
Lemma segment_no_terminator (text : string) :
  (forall c, In c (list_ascii_of_string text) -> is_terminator c = false) ->
  nonempty (trim text) ->
  segment text = [trim text].
Proof.
  intros Hs Hne. unfold segment, match_sentences.
  rewrite (match_from_no_terminator text Hs Outside) by auto.
  cbn. now rewrite is_empty_false.
Qed.

(** What the pattern matches: after any number of stray terminators, a
    run of non-terminators closed by a run of terminators is one sentence,
    and the scan goes on behind it. *)
Lemma match_from_body (body : string) : forall acc rest,
  (forall c, In c (list_ascii_of_string body) -> is_terminator c = false) ->
  match_from (InBody acc) (body ++ rest) = match_from (InBody (acc ++ body)) rest.
Proof.
  induction body as [|c body IH]; intros acc rest Hb.
  - now rewrite append_nil_l, append_nil_r.
  - rewrite append_cons. cbn [match_from]. rewrite (Hb c) by (cbn; auto).
    rewrite IH by (intros c' Hc'; apply Hb; cbn; auto).
    unfold snoc. now rewrite append_assoc.
Qed.

Lemma match_from_terms (terms : string) : forall acc rest,
  (forall c, In c (list_ascii_of_string terms) -> is_terminator c = true) ->
  match_from (InTerm acc) (terms ++ rest) = match_from (InTerm (acc ++ terms)) rest.
Proof.
  induction terms as [|c terms IH]; intros acc rest Ht.
  - now rewrite append_nil_l, append_nil_r.
  - rewrite append_cons. cbn [match_from]. rewrite (Ht c) by (cbn; auto).
    rewrite IH by (intros c' Hc'; apply Ht; cbn; auto).
    unfold snoc. now rewrite append_assoc.
Qed.

Lemma match_from_sentence (b t : ascii) (body terms rest : string) :
  is_terminator b = false ->
  (forall c, In c (list_ascii_of_string body) -> is_terminator c = false) ->
  is_terminator t = true ->
  (forall c, In c (list_ascii_of_string terms) -> is_terminator c = true) ->
  (forall c rest', rest = String c rest' -> is_terminator c = false) ->
  match_from Outside (String b body ++ String t terms ++ rest) =
  (String b body ++ String t terms) ::
    match rest with
    | EmptyString => []
    | String c rest' => match_from (InBody (String c EmptyString)) rest'
    end.
Proof.
  intros Hb Hbody Ht Hterms Hrest.
  rewrite (append_cons b body). cbn [match_from]. rewrite Hb.
  rewrite match_from_body by exact Hbody.
  rewrite (append_cons t terms). cbn [match_from]. rewrite Ht.
  rewrite match_from_terms by exact Hterms.
  unfold snoc. rewrite !append_assoc, !append_cons, !append_nil_l.
  destruct rest as [|c rest']; [reflexivity|].
  cbn [match_from]. now rewrite (Hrest c rest' eq_refl).
Qed.

(** C3. The text ["Hi. Bye"] has the sentence ["Hi."] and an unterminated
    tail; the segmenter returns the sentence alone, so the characters
    [B], [y], [e] of the input are in no output sentence. *)
Theorem segment_drops_unterminated_tail :
  segment "Hi. Bye" = ["Hi."] /\
  non_space_chars (join (segment "Hi. Bye")) = ["H"; "i"; "."]%char /\
  non_space_chars "Hi. Bye" = ["H"; "i"; "."; "B"; "y"; "e"]%char.
Proof. vm_compute. auto. Qed.

(** Terminators in front of the first sentence are lost as well. *)
Example segment_drops_leading_terminators :
  segment "...and so on." = ["and so on."].
Proof. vm_compute. reflexivity. Qed.

(** ** Record ids *)

Lemma mapi_from_length {A B} (f : A -> nat -> B) (l : list A) : forall i,
  length (mapi_from f i l) = length l.
Proof. induction l as [|a l IH]; intros i; cbn; [reflexivity|]. now rewrite IH. Qed.

Lemma mapi_from_lookup {A B} (f : A -> nat -> B) (l : list A) : forall i j a,
  l !! j = Some a -> mapi_from f i l !! j = Some (f a (i + j)).
Proof.
  induction l as [|x l IH]; intros i j a Hj; [discriminate|].
  destruct j as [|j].
  - cbn in *. injection Hj as ->. now rewrite Nat.add_0_r.
  - change (l !! j = Some a) in Hj.
    change (mapi_from f (S i) l !! j = Some (f a (i + S j))).
    rewrite (IH (S i) j a Hj). do 2 f_equal. lia.
Qed.

(** In [POST /index] the ids are the context and the position, whatever
    the chunks are. *)
Lemma V1_ids_of_lookup context (allChunks : list chunk) i :
  i < length allChunks ->
  V1.ids_of context allChunks !! i = Some (context ++ "-" ++ show_nat i).
Proof.
  intros Hi. destruct (lookup_lt_is_Some_2 allChunks i Hi) as [c Hc].
  unfold V1.ids_of, mapi. now rewrite (mapi_from_lookup _ _ 0 i c Hc).
Qed.

(** Any two batches indexed under one context share the ids of the
    shorter one. *)
Lemma V1_ids_shared context (chunks1 chunks2 : list chunk) i :
  i < length chunks1 -> i < length chunks2 ->
  V1.ids_of context chunks1 !! i = V1.ids_of context chunks2 !! i.
Proof. intros H1 H2. now rewrite !V1_ids_of_lookup. Qed.

(** C1. Two [POST /index] calls under context ["A"], one document each:
    both answer 200 and both write the id ["A-0"], so that after the
    second call the collection holds one record, the second document; the
    first call's record is gone. *)
Theorem index_ids_collide_across_calls :
  let r1 := V1.post_index env_up upload_a (stage "/tmp/u1" "First report." boot) in
  let r2 := V1.post_index env_up upload_b (stage "/tmp/u2" "Second report." r1.2) in
  r1.1 = Ok (Response 200 (OkBody "Indexed 1 chunks.")) /\
  r2.1 = Ok (Response 200 (OkBody "Indexed 1 chunks.")) /\
  upserted_ids (trace r2.2) = [["A-0"]; ["A-0"]] /\
  List.map (fun ir => (ir.1, document ir.2)) (records_of COLLECTION r1.2)
    = [("A-0", "First report.")] /\
  List.map (fun ir => (ir.1, document ir.2)) (records_of COLLECTION r2.2)
    = [("A-0", "Second report.")].
Proof. vm_compute. auto 6. Qed.

(** *** The ids of [POST /upload] *)

Lemma string_of_uint_dash_free (d : Decimal.uint) :
  dash_free (NilEmpty.string_of_uint d) = true.
Proof. induction d; cbn; auto. Qed.

Lemma show_dash_free (n : N) : dash_free (show n) = true.
Proof. apply string_of_uint_dash_free. Qed.

Lemma show_inj (n m : N) : show n = show m -> n = m.
Proof.
  unfold show. intros H. apply DecimalN.Unsigned.to_uint_inj.
  apply (f_equal NilEmpty.uint_of_string) in H.
  rewrite !NilEmpty.usu in H. now injection H.
Qed.

Lemma show_nat_inj (n m : nat) : show_nat n = show_nat m -> n = m.
Proof. unfold show_nat. intros H. apply show_inj in H. lia. Qed.

(** The first hyphen of a string determines how it splits. *)
Lemma split_at_dash (a : string) : forall a' b b',
  dash_free a = true -> dash_free a' = true ->
  a ++ "-" ++ b = a' ++ "-" ++ b' -> a = a' /\ b = b'.
Proof.
  induction a as [|c a IH]; intros [|c' a'] b b' Ha Ha'.
  - rewrite !append_nil_l. intros H. split; [reflexivity|].
    now apply (inj (String.append "-")) in H.
  - rewrite append_nil_l, append_cons. intros [= <- _]. discriminate.
  - rewrite append_nil_l, append_cons. intros [= -> _]. discriminate.
  - rewrite !append_cons. intros [= <- H].
    cbn in Ha, Ha'. apply andb_prop in Ha as [_ Ha], Ha' as [_ Ha'].
    destruct (IH a' b b' Ha Ha' H) as [-> ->]. auto.
Qed.

(** An id of [POST /upload] determines its timestamp and its position. *)
Lemma upload_id_inj context (t1 t2 : N) (i1 i2 : nat) :
  context ++ "-" ++ show t1 ++ "-" ++ show_nat i1 =
  context ++ "-" ++ show t2 ++ "-" ++ show_nat i2 ->
  t1 = t2 /\ i1 = i2.
Proof.
  intros H. apply (inj (String.append context)) in H.
  apply (inj (String.append "-")) in H.
  apply split_at_dash in H as [Ht Hi]; auto using show_dash_free.
  split; [now apply show_inj|now apply show_nat_inj].
Qed.

Lemma Date_now_run E w :
  Date_now E w = (Ok (clock E (ticks w)), with_ticks (S (ticks w)) w).
Proof. reflexivity. Qed.

Lemma V3_ids_from_spec E context (allChunks : list chunk) : forall i w,
  exists ids,
    V3.ids_from E context i allChunks w =
      (Ok ids, with_ticks (ticks w + length allChunks) w) /\
    length ids = length allChunks /\
    forall j, j < length allChunks ->
      ids !! j = Some (context ++ "-" ++ show (clock E (ticks w + j)) ++ "-" ++
                       show_nat (i + j)).
Proof.
  induction allChunks as [|c rest IH]; intros i w.
  - exists []. cbn. split_and!; [|reflexivity|intros j Hj; lia].
    unfold mret, M_ret. f_equal. destruct w; cbn. now rewrite Nat.add_0_r.
  - destruct (IH (S i) (with_ticks (S (ticks w)) w)) as (ids & Hrun & Hlen & Hids).
    exists ((context ++ "-" ++ show (clock E (ticks w)) ++ "-" ++ show_nat i) :: ids).
    split_and!.
    + cbn [V3.ids_from].
      erewrite bind_ok by apply Date_now_run.
      erewrite bind_ok by exact Hrun.
      unfold mret, M_ret. f_equal.
      destruct w; cbn. unfold with_ticks; cbn. f_equal. lia.
    + cbn. now rewrite Hlen.
    + intros [|j] Hj.
      * cbn. now rewrite !Nat.add_0_r.
      * change (ids !! j = Some (context ++ "-" ++ show (clock E (ticks w + S j)) ++
                                 "-" ++ show_nat (i + S j))).
        rewrite Hids by (cbn in Hj; lia).
        replace (ticks (with_ticks (S (ticks w)) w) + j) with (ticks w + S j)
          by (destruct w; cbn; lia).
        now replace (S i + j) with (i + S j) by lia.
Qed.

(** X22. Two [POST /upload] calls under one context write disjoint ids as
    long as no reading of the clock in one equals a reading in the
    other. *)
Lemma upload_ids_distinct E context chunks1 chunks2 w1 w2 ids1 ids2 w1' w2' :
  V3.ids_of E context chunks1 w1 = (Ok ids1, w1') ->
  V3.ids_of E context chunks2 w2 = (Ok ids2, w2') ->
  (forall a b, a < length chunks1 -> b < length chunks2 ->
     clock E (ticks w1 + a) <> clock E (ticks w2 + b)) ->
  forall id, id ∈ ids1 -> id ∉ ids2.
Proof.
  unfold V3.ids_of. intros H1 H2 Hclock id Hin1 Hin2.
  destruct (V3_ids_from_spec E context chunks1 0 w1) as (l1 & Hr1 & Hl1 & Hat1).
  destruct (V3_ids_from_spec E context chunks2 0 w2) as (l2 & Hr2 & Hl2 & Hat2).
  rewrite Hr1 in H1. rewrite Hr2 in H2.
  injection H1 as -> _. injection H2 as -> _.
  apply list_elem_of_lookup in Hin1 as [a Ha], Hin2 as [b Hb].
  assert (a < length chunks1) as Hla by (rewrite <- Hl1; eauto using lookup_lt_Some).
  assert (b < length chunks2) as Hlb by (rewrite <- Hl2; eauto using lookup_lt_Some).
  rewrite (Hat1 a Hla) in Ha. rewrite (Hat2 b Hlb) in Hb.
  injection Ha as <-. injection Hb as Hb.
  apply upload_id_inj in Hb as [Ht _].
  now apply (Hclock a b Hla Hlb).
Qed.

(** Within one millisecond the timestamp does not tell two calls apart. *)
Example upload_ids_collide_in_one_millisecond :
  let r1 := V3.post_upload env_up upload_a (stage "/tmp/u1" "First report." boot) in
  let r2 := V3.post_upload env_up upload_b (stage "/tmp/u2" "Second report." r1.2) in
  List.map (fun ir => (ir.1, document ir.2)) (records_of COLLECTION r1.2)
    = [("A-1700000000000-0", "First report.")] /\
  List.map (fun ir => (ir.1, document ir.2)) (records_of COLLECTION r2.2)
    = [("A-1700000000000-0", "Second report.")].
Proof. vm_compute. auto. Qed.

(** ** Exit paths *)

(** C9. [getEmbeddings] of the first listing, when the embedding call
    rejects: the exception leaves the function with [console.log] still
    bound to the silent function, although it was the native one on
    entry. *)
Theorem getEmbeddings_failure_leaves_log_silenced :
  let r := V1.getEmbeddings env_hf_down ["What is this document about?"] boot in
  console_log boot = NativeLog /\
  r.1 = Throw "Invalid credentials in Authorization header" /\
  console_log r.2 = SilentLog.
Proof. vm_compute. auto. Qed.

(** On the path without exception the binding is put back. *)
Lemma V1_getEmbeddings_restores E texts resp w :
  featureExtraction E texts = Ok resp ->
  console_log (V1.getEmbeddings E texts w).2 = console_log w.
Proof. intros H. now rewrite (V1_getEmbeddings_ok E texts resp w H). Qed.

(** On the path with exception it is not, whatever it was. *)
Lemma V1_getEmbeddings_silences E texts e w :
  featureExtraction E texts = Throw e ->
  console_log (V1.getEmbeddings E texts w).2 = SilentLog.
Proof. intros H. now rewrite (V1_getEmbeddings_throw E texts e w H). Qed.

(** After one failed query the server's own log lines are lost: the next
    successful upload prints nothing. *)
Example silenced_log_swallows_later_lines :
  let w1 := (V1.post_query env_hf_down question boot).2 in
  let r2 := V1.post_index env_up upload_a (stage "/tmp/u1" "First report." w1) in
  r2.1 = Ok (Response 200 (OkBody "Indexed 1 chunks.")) /\ stdout r2.2 = [].
Proof. vm_compute. auto. Qed.

(** C6. An upload during which the embedding call rejects: both ingestion
    handlers answer 500 and the staged file is still on disk when the
    request completes. *)
Theorem ingest_failure_leaves_staged_file :
  let w := stage "/tmp/u1" "First report." boot in
  let r1 := V1.post_index env_hf_down upload_a w in
  let r3 := V3.post_upload env_hf_down upload_a w in
  r1.1 = Ok (Response 500 (ErrorBody "Invalid credentials in Authorization header")) /\
  files r1.2 !! "/tmp/u1" = Some "First report." /\
  r3.1 = Ok (Response 500 (ErrorBody "Invalid credentials in Authorization header")) /\
  files r3.2 !! "/tmp/u1" = Some "First report.".
Proof. vm_compute. auto. Qed.

(** C7. [POST /query] of the first listing on an empty store: the search
    returns nothing, yet the generation service is called, with a prompt
    that has no context, and its text is the answer. *)
Theorem query_generates_on_empty_result :
  let r := V1.post_query env_up question boot in
  search env_up COLLECTION (resp_at (Nested [toy_embed "What is this document about?"]) 0)
         5 None boot = [] /\
  r.1 = Ok (Response 200 (AnswerBody "(generated)" [])) /\
  List.filter is_generation (trace r.2) =
    [GenerateContent (make_prompt EmptyString "What is this document about?")].
Proof. vm_compute. auto. Qed.

(** C8. An ingestion request without files, or with an empty file array,
    is answered with status 400 by [POST /index] and by [POST /upload],
    and the world is left as it was: no call to the embedding service or
    to the store has been made and the store holds what it held. *)
Theorem empty_file_set_is_rejected E req w :
  req_files req = None \/ req_files req = Some [] ->
  V1.post_index E req w = (Ok (Response 400 (ErrorBody "No files uploaded")), w) /\
  V3.post_upload E req w = (Ok (Response 400 (ErrorBody "No files")), w).
Proof.
  intros Hfiles. unfold V1.post_index, V3.post_upload, try_catch.
  destruct Hfiles as [-> | ->]; split; reflexivity.
Qed.

Lemma empty_file_set_is_rejected_witness :
  V1.post_index env_up (IngestRequest (Some []) (Some "A")) boot =
    (Ok (Response 400 (ErrorBody "No files uploaded")), boot) /\
  V3.post_upload env_up (IngestRequest (Some []) (Some "A")) boot =
    (Ok (Response 400 (ErrorBody "No files")), boot).
Proof.
  apply (empty_file_set_is_rejected env_up (IngestRequest (Some []) (Some "A")) boot).
  right. reflexivity.
Defined.

(** ** Store calls *)

Lemma getOrCreateCollection_run E name w :
  store_fault E (GetOrCreateCollection name) = None ->
  getOrCreateCollection E name w =
  (Ok name, created name (traced (GetOrCreateCollection name) w)).
Proof.
  intros H. unfold getOrCreateCollection, mbind, M_bind. cbn.
  rewrite H. reflexivity.
Qed.

Lemma getOrCreateCollection_throw E name e w :
  store_fault E (GetOrCreateCollection name) = Some e ->
  getOrCreateCollection E name w = (Throw e, traced (GetOrCreateCollection name) w).
Proof.
  intros H. unfold getOrCreateCollection, mbind, M_bind. cbn.
  rewrite H. reflexivity.
Qed.

Lemma collection_query_run E name qe n where_ w :
  store_fault E (Query name n where_) = None ->
  collection_query E name qe n where_ w =
  (Ok (search E name qe n where_ w), traced (Query name n where_) w).
Proof.
  intros H. unfold collection_query, mbind, M_bind. cbn.
  rewrite H. reflexivity.
Qed.

(** Creating the collection when it is missing does not change what a
    search in it returns, and neither does the trace. *)
Lemma search_created E name qe n where_ w :
  search E name qe n where_ (created name w) = search E name qe n where_ w.
Proof.
  unfold search, created.
  destruct (store w !! name) eqn:Hs; [now rewrite Hs|].
  cbn. now rewrite lookup_insert_eq.
Qed.

Lemma search_traced E name qe n where_ ev w :
  search E name qe n where_ (traced ev w) = search E name qe n where_ w.
Proof. reflexivity. Qed.

Lemma search_printed E name qe n where_ lines w :
  search E name qe n where_ (printed lines w) = search E name qe n where_ w.
Proof. unfold printed. now destruct (console_log w). Qed.

Lemma trace_created name w : trace (created name w) = trace w.
Proof. unfold created. now destruct (store w !! name). Qed.

Lemma truthy_Some (s : string) : nonempty s -> truthy (Some s) = true.
Proof. intros H. cbn. now rewrite is_empty_false. Qed.

Lemma or_else_Some (s d : string) : nonempty s -> or_else (Some s) d = s.
Proof. intros H. cbn. now rewrite is_empty_false. Qed.

(** A request with a [q] has a body, and [k] and [c] are read from it. *)
Lemma request_with_q req qtext :
  body_q req = Some qtext ->
  exists b, req_body req = Some b /\ q_of b = Some qtext /\
            body_k req = k_of b /\ body_c req = c_of b.
Proof.
  unfold body_q, body_k, body_c.
  destruct (req_body req) as [b|]; [|discriminate]. cbn. eauto.
Qed.

(** X23. [POST /chat] when the search returns nothing: the fixed answer,
    an empty [retrieved], and three calls in all, none of them to the
    generation service. *)
Lemma chat_skips_generation_on_empty_result E req w qtext resp :
  let n := default 5 (body_k req) in
  let where_ := where_filter (body_c req) in
  body_q req = Some qtext -> nonempty qtext ->
  featureExtraction E [qtext] = Ok resp ->
  store_fault E (GetOrCreateCollection COLLECTION) = None ->
  store_fault E (Query COLLECTION n where_) = None ->
  search E COLLECTION (resp_at resp 0) n where_ w = [] ->
  exists w',
    V3.post_chat E req w = (Ok (Response 200 (AnswerBody V3.NO_MATCH [])), w') /\
    trace w' = (trace w ++ [FeatureExtraction [qtext];
                            GetOrCreateCollection COLLECTION;
                            Query COLLECTION n where_])%list.
Proof.
  intros n where_ Hq Hne Hresp Hgoc Hquery Hnone.
  destruct (request_with_q req qtext Hq) as (b & Hb & Hqb & Hk & Hc).
  unfold V3.post_chat, try_catch.
  rewrite Hb, Hqb, truthy_Some, or_else_Some by exact Hne.
  cbn [negb]. rewrite <- Hk, <- Hc. fold n where_.
  erewrite bind_ok by (apply V3_getEmbeddings_ok; exact Hresp).
  erewrite bind_ok by (apply getOrCreateCollection_run; exact Hgoc).
  erewrite bind_ok by (apply collection_query_run; exact Hquery).
  rewrite search_created, search_traced, search_printed, search_traced. rewrite Hnone.
  eexists. split; [reflexivity|].
  unfold traced. cbn [trace with_trace]. rewrite trace_created.
  cbn [trace with_trace traced]. rewrite trace_printed. cbn [trace with_trace traced].
  now rewrite <- !List.app_assoc.
Qed.

(** ** Relating the worlds before and after a computation *)

Section Respects.

Variable R : world -> world -> Prop.
Hypothesis R_refl : forall w, R w w.
Hypothesis R_trans : forall w1 w2 w3, R w1 w2 -> R w2 w3 -> R w1 w3.

Lemma respects_ret {A} (Q : A -> Prop) (a : A) : Q a -> respects_with R Q (mret a).
Proof. intros Ha w. split; [apply R_refl|]. intros a' [= <-]. exact Ha. Qed.

Lemma respects_throw {A} (Q : A -> Prop) (e : exn) : respects_with R Q (throw e).
Proof. intros w. split; [apply R_refl|]. intros a [=]. Qed.

Lemma respects_lift {A} (Q : A -> Prop) (r : result A) :
  (forall a, r = Ok a -> Q a) -> respects_with R Q (lift r).
Proof. intros Hr w. split; [apply R_refl|exact Hr]. Qed.

Lemma respects_get : respects_with R (fun _ => True) get.
Proof. intros w. split; [apply R_refl|auto]. Qed.

Lemma respects_modify (f : world -> world) :
  (forall w, R w (f w)) -> respects_with R (fun _ => True) (modify f).
Proof. intros Hf w. split; [apply Hf|auto]. Qed.

Lemma respects_bind {A B} (Qa : A -> Prop) (Qb : B -> Prop) (m : M A) (f : A -> M B) :
  respects_with R Qa m -> (forall a, Qa a -> respects_with R Qb (f a)) ->
  respects_with R Qb (m ≫= f).
Proof.
  intros Hm Hf w. unfold mbind, M_bind.
  destruct (Hm w) as [HR Hq].
  destruct (m w) as [[a|e] w1]; cbn in *.
  - destruct (Hf a (Hq a eq_refl) w1) as [HR2 Hq2].
    split; [|exact Hq2]. eapply R_trans; eauto.
  - split; [exact HR|]. intros a [=].
Qed.

Lemma respects_seq {A B} (Qb : B -> Prop) (m : M A) (f : A -> M B) :
  respects_with R (fun _ => True) m -> (forall a, respects_with R Qb (f a)) ->
  respects_with R Qb (m ≫= f).
Proof. intros Hm Hf. apply (respects_bind (fun _ => True)); auto. Qed.

Lemma respects_try_catch {A} (body : M A) (handler : exn -> M A) :
  respects_with R (fun _ => True) body ->
  (forall e, respects_with R (fun _ => True) (handler e)) ->
  respects_with R (fun _ => True) (try_catch body handler).
Proof.
  intros Hb Hh w. unfold try_catch.
  destruct (Hb w) as [HR _].
  destruct (body w) as [[a|e] w1]; cbn in *.
  - split; auto.
  - destruct (Hh e w1) as [HR2 _]. split; [|auto]. eapply R_trans; eauto.
Qed.

Lemma respects_foldM {A B} (Q : B -> Prop) (f : B -> A -> M B) (l : list A) :
  (forall acc a, Q acc -> respects_with R Q (f acc a)) ->
  forall acc, Q acc -> respects_with R Q (foldM f acc l).
Proof.
  intros Hf. induction l as [|a l IH]; intros acc Hacc; cbn [foldM].
  - now apply respects_ret.
  - apply (respects_bind Q); auto.
Qed.

End Respects.

(** ** What the handlers ask of the store *)

Section Emits.

Variable P : event -> Prop.

Lemma appends_refl w : appends P w w.
Proof. exists []. now rewrite List.app_nil_r. Qed.

Lemma appends_trans w1 w2 w3 : appends P w1 w2 -> appends P w2 w3 -> appends P w1 w3.
Proof.
  intros (evs & Ht & Hevs) (evs2 & Ht2 & Hevs2).
  exists (evs ++ evs2)%list. rewrite Ht2, Ht, List.app_assoc.
  split; [reflexivity|]. now apply Forall_app.
Qed.

Lemma emits_ret {A} (Q : A -> Prop) (a : A) : Q a -> emits_with P Q (mret a).
Proof. apply respects_ret, appends_refl. Qed.

Lemma emits_throw {A} (Q : A -> Prop) (e : exn) : emits_with P Q (throw e).
Proof. apply respects_throw, appends_refl. Qed.

Lemma emits_lift {A} (Q : A -> Prop) (r : result A) :
  (forall a, r = Ok a -> Q a) -> emits_with P Q (lift r).
Proof. apply respects_lift, appends_refl. Qed.

Lemma emits_get : emits P get.
Proof. apply respects_get, appends_refl. Qed.

Lemma emits_modify (f : world -> world) :
  (forall w, trace (f w) = trace w) -> emits P (modify f).
Proof.
  intros Hf. apply respects_modify. intros w.
  exists []. now rewrite Hf, List.app_nil_r.
Qed.

Lemma emits_emit (ev : event) : P ev -> emits P (emit ev).
Proof.
  intros Hev. apply respects_modify. intros w.
  exists [ev]. destruct w; cbn. auto.
Qed.

Lemma emits_bind {A B} (Qa : A -> Prop) (Qb : B -> Prop) (m : M A) (f : A -> M B) :
  emits_with P Qa m -> (forall a, Qa a -> emits_with P Qb (f a)) ->
  emits_with P Qb (m ≫= f).
Proof. apply respects_bind, appends_trans. Qed.

Lemma emits_seq {A B} (Qb : B -> Prop) (m : M A) (f : A -> M B) :
  emits P m -> (forall a, emits_with P Qb (f a)) -> emits_with P Qb (m ≫= f).
Proof. apply respects_seq, appends_trans. Qed.

Lemma emits_try_catch {A} (body : M A) (handler : exn -> M A) :
  emits P body -> (forall e, emits P (handler e)) ->
  emits P (try_catch body handler).
Proof. apply respects_try_catch, appends_trans. Qed.

Lemma emits_foldM {A B} (Q : B -> Prop) (f : B -> A -> M B) (l : list A) :
  (forall acc a, Q acc -> emits_with P Q (f acc a)) ->
  forall acc, Q acc -> emits_with P Q (foldM f acc l).
Proof. apply respects_foldM; [apply appends_refl|apply appends_trans]. Qed.

End Emits.

(** *** Stepping through a [try] block *)

Lemma try_catch_bind_ok {A B} (m : M A) (f : A -> M B) (h : exn -> M B) w a w1 :
  m w = (Ok a, w1) -> try_catch (m ≫= f) h w = try_catch (f a) h w1.
Proof. intros H. unfold try_catch. now rewrite (bind_ok m f w a w1 H). Qed.

Lemma try_catch_bind_throw {A B} (m : M A) (f : A -> M B) (h : exn -> M B) w e w1 :
  m w = (Throw e, w1) -> try_catch (m ≫= f) h w = h e w1.
Proof. intros H. unfold try_catch. now rewrite (bind_throw m f w e w1 H). Qed.

Lemma collection_query_throw E name qe n where_ e w :
  store_fault E (Query name n where_) = Some e ->
  collection_query E name qe n where_ w = (Throw e, traced (Query name n where_) w).
Proof.
  intros H. unfold collection_query, mbind, M_bind. cbn.
  rewrite H. reflexivity.
Qed.

(** The trace after the [catch] block of a handler. *)
Lemma trace_caught (tag err : string) w :
  trace ((_ ← log_error (tag ++ err); mret (Response 500 (ErrorBody err))) w).2
  = trace w.
Proof. reflexivity. Qed.

Section Calls.

Variable E : env.
Variable P : event -> Prop.

Hypothesis P_featureExtraction : forall inputs, P (FeatureExtraction inputs).
Hypothesis P_readFile : forall p, P (ReadFile p).
Hypothesis P_unlink : forall p, P (Unlink p).
Hypothesis P_generate : forall prompt, P (GenerateContent prompt).
Hypothesis P_collection : P (GetOrCreateCollection COLLECTION).

Lemma emits_log msg : emits P (log msg).
Proof. apply emits_modify. intros w. now destruct w as [? ? []]. Qed.

Lemma emits_log_error msg : emits P (log_error msg).
Proof. apply emits_modify. intros w. now destruct w. Qed.

Lemma emits_print_all lines : emits P (print_all lines).
Proof. apply emits_foldM; [|exact I]. intros acc line _. apply emits_log. Qed.

Lemma emits_hf_settle inputs : emits P (hf_settle E inputs).
Proof. apply emits_seq; [apply emits_print_all|]. intros _. now apply emits_lift. Qed.

Lemma emits_hf inputs : emits P (hf_featureExtraction E inputs).
Proof. apply emits_seq; [now apply emits_emit|]. intros _. apply emits_hf_settle. Qed.

Lemma emits_getOrCreateCollection :
  emits_with P (fun handle => handle = COLLECTION) (getOrCreateCollection E COLLECTION).
Proof.
  apply emits_seq; [now apply emits_emit|]. intros _.
  destruct (store_fault E _); [apply emits_throw|].
  apply emits_seq; [|intros _; now apply emits_ret].
  apply emits_modify. intros w. now destruct (store w !! COLLECTION), w.
Qed.

Lemma emits_upsert rs : P (Upsert COLLECTION rs) -> emits P (collection_upsert E COLLECTION rs).
Proof.
  intros Hrs. apply emits_seq; [now apply emits_emit|]. intros _.
  destruct (store_fault E _); [apply emits_throw|].
  apply emits_modify. intros w. now destruct w.
Qed.

Lemma emits_query qe n where_ :
  P (Query COLLECTION n where_) -> emits P (collection_query E COLLECTION qe n where_).
Proof.
  intros Hq. apply emits_seq; [now apply emits_emit|]. intros _.
  destruct (store_fault E _); [apply emits_throw|].
  apply emits_seq; [apply emits_get|]. intros w. now apply emits_ret.
Qed.

Lemma emits_generate prompt : emits P (llm_generateContent E prompt).
Proof.
  apply emits_seq; [now apply emits_emit|]. intros _. now apply emits_lift.
Qed.

Lemma emits_readFileSync p : emits P (readFileSync p).
Proof.
  apply emits_seq; [now apply emits_emit|]. intros _.
  apply emits_seq; [apply emits_get|]. intros w.
  destruct (files w !! p); [now apply emits_ret|apply emits_throw].
Qed.

Lemma emits_unlinkSync p : emits P (unlinkSync p).
Proof.
  apply emits_seq; [now apply emits_emit|]. intros _.
  apply emits_seq; [apply emits_get|]. intros w.
  destruct (files w !! p); [|apply emits_throw].
  apply emits_modify. intros w'. now destruct w'.
Qed.

Lemma emits_Date_now : emits P (Date_now E).
Proof.
  apply emits_seq; [apply emits_get|]. intros w.
  apply emits_seq; [|intros _; now apply emits_ret].
  apply emits_modify. intros w'. now destruct w'.
Qed.

Lemma emits_V1_getEmbeddings texts : emits P (V1.getEmbeddings E texts).
Proof.
  apply emits_seq.
  - apply emits_seq; [apply emits_get|]. intros w.
    apply emits_seq; [apply emits_modify; intros w'; now destruct w'|]. intros _.
    apply emits_seq; [now apply emits_emit|]. intros _. now apply emits_ret.
  - intros originalLog.
    apply emits_seq; [apply emits_hf_settle|]. intros resp.
    apply emits_seq; [apply emits_modify; intros w'; now destruct w'|]. intros _.
    now apply emits_ret.
Qed.

Lemma emits_V3_getEmbeddings texts : emits P (V3.getEmbeddings E texts).
Proof.
  apply emits_try_catch.
  - apply emits_seq; [apply emits_hf|]. intros resp. now apply emits_ret.
  - intros e. apply emits_seq; [apply emits_log_error|]. intros _. apply emits_throw.
Qed.

Lemma emits_V1_semanticChunking text threshold :
  emits P (V1.semanticChunking E text threshold).
Proof.
  unfold V1.semanticChunking, V1.chunk_sentences.
  destruct (segment text) as [|s0 rest]; [now apply emits_ret|].
  apply emits_seq; [apply emits_log|]. intros _.
  apply emits_seq; [apply emits_V1_getEmbeddings|]. intros resp.
  now apply emits_lift.
Qed.

Lemma emits_V3_semanticChunking text threshold :
  emits P (V3.semanticChunking E text threshold).
Proof.
  unfold V3.semanticChunking, V3.chunk_sentences.
  destruct (segment text) as [|s0 rest]; [now apply emits_ret|].
  apply emits_seq; [apply emits_V3_getEmbeddings|]. intros resp.
  now apply emits_lift.
Qed.

(** *** Ingestion *)

Variable ctx : string.

Hypothesis P_upsert : forall rs,
  Forall (fun ir : string * record => context (meta ir.2) = ctx) rs ->
  P (Upsert COLLECTION rs).

Lemma mapi_from_Forall {A B} (Q : B -> Prop) (f : A -> nat -> B) (l : list A) :
  (forall a i, Q (f a i)) -> forall i, Forall Q (mapi_from f i l).
Proof. intros Hf. induction l; intros i; cbn; constructor; auto. Qed.

Lemma tagged_new_chunks originalname (allChunks : list chunk) chunks :
  tagged ctx allChunks ->
  tagged ctx (allChunks ++ mapi (fun chunk i => Chunk chunk (Metadata originalname i ctx))
                            chunks).
Proof.
  intros H. apply Forall_app. split; [exact H|].
  apply mapi_from_Forall. reflexivity.
Qed.

Lemma tagged_records embeddings (ids : list string) : forall allChunks i,
  tagged ctx allChunks ->
  Forall (fun ir : string * record => context (meta ir.2) = ctx)
    (zip ids (mapi_from (fun c i => Record_ (chunk_text c) (resp_at embeddings i)
                                            (chunk_metadata c)) i allChunks)).
Proof.
  induction ids as [|id ids IH]; intros [|c allChunks] i Hall; cbn;
    try constructor.
  - cbn. now inversion Hall.
  - apply IH. now inversion Hall.
Qed.

Lemma emits_V1_ingest_file allChunks f :
  tagged ctx allChunks -> emits_with P (tagged ctx) (V1.ingest_file E ctx allChunks f).
Proof.
  intros Hall. unfold V1.ingest_file.
  apply emits_seq; [apply emits_readFileSync|]. intros text.
  apply emits_seq; [apply emits_V1_semanticChunking|]. intros chunks.
  apply emits_seq; [apply emits_unlinkSync|]. intros _.
  apply emits_ret. now apply tagged_new_chunks.
Qed.

Lemma emits_V3_ingest_file allChunks f :
  tagged ctx allChunks -> emits_with P (tagged ctx) (V3.ingest_file E ctx allChunks f).
Proof.
  intros Hall. unfold V3.ingest_file.
  apply emits_seq; [apply emits_readFileSync|]. intros text.
  apply emits_seq; [apply emits_V3_semanticChunking|]. intros chunks.
  apply emits_seq; [apply emits_unlinkSync|]. intros _.
  apply emits_ret. now apply tagged_new_chunks.
Qed.

Lemma emits_V3_ids_from allChunks : forall i,
  emits P (V3.ids_from E ctx i allChunks).
Proof.
  induction allChunks as [|c rest IH]; intros i; cbn [V3.ids_from].
  - now apply emits_ret.
  - apply emits_seq; [apply emits_Date_now|]. intros now.
    apply emits_seq; [apply IH|]. intros ids. now apply emits_ret.
Qed.

Lemma emits_V1_post_index req :
  context_of E req = ctx -> emits P (V1.post_index E req).
Proof.
  intros Hctx. unfold V1.post_index. fold (context_of E req). rewrite Hctx.
  apply emits_try_catch.
  - destruct (req_files req) as [[|f fs]|]; try now apply emits_ret.
    apply (emits_bind P (fun handle => handle = COLLECTION));
      [apply emits_getOrCreateCollection|]. intros ? ->.
    apply (emits_bind P (tagged ctx)).
    { apply emits_foldM; [|constructor].
      intros acc a Hacc. now apply emits_V1_ingest_file. }
    intros allChunks Hall.
    apply emits_seq; [apply emits_V1_getEmbeddings|]. intros embeddings.
    apply emits_seq; [apply emits_upsert, P_upsert, tagged_records, Hall|]. intros _.
    apply emits_seq; [apply emits_log|]. intros _. now apply emits_ret.
  - intros e. apply emits_seq; [apply emits_log_error|]. intros _.
    now apply emits_ret.
Qed.

Lemma emits_V3_post_upload req :
  context_of E req = ctx -> emits P (V3.post_upload E req).
Proof.
  intros Hctx. unfold V3.post_upload. fold (context_of E req). rewrite Hctx.
  apply emits_try_catch.
  - destruct (req_files req) as [[|f fs]|]; try now apply emits_ret.
    apply (emits_bind P (fun handle => handle = COLLECTION));
      [apply emits_getOrCreateCollection|]. intros ? ->.
    apply (emits_bind P (tagged ctx)).
    { apply emits_foldM; [|constructor].
      intros acc a Hacc. now apply emits_V3_ingest_file. }
    intros allChunks Hall.
    apply emits_seq; [apply emits_V3_getEmbeddings|]. intros embeddings.
    apply emits_seq; [apply emits_V3_ids_from|]. intros ids.
    apply emits_seq; [apply emits_upsert, P_upsert, tagged_records, Hall|]. intros _.
    now apply emits_ret.
  - intros e. apply emits_seq; [apply emits_log_error|]. intros _.
    now apply emits_ret.
Qed.

(** An ingestion request with files resolves the collection before
    anything else, whatever follows. *)
Lemma V1_post_index_resolves req w f fs :
  context_of E req = ctx -> req_files req = Some (f :: fs) ->
  exists evs,
    trace (V1.post_index E req w).2
      = (trace w ++ GetOrCreateCollection COLLECTION :: evs)%list /\
    Forall P evs.
Proof.
  intros Hctx Hfs. unfold V1.post_index. fold (context_of E req).
  rewrite Hctx, Hfs.
  destruct (store_fault E (GetOrCreateCollection COLLECTION)) as [e|] eqn:Hgoc.
  - rewrite (try_catch_bind_throw _ _ _ _ _ _
               (getOrCreateCollection_throw E COLLECTION e w Hgoc)).
    exists []. split; [|constructor]. now rewrite trace_caught.
  - rewrite (try_catch_bind_ok _ _ _ _ _ _
               (getOrCreateCollection_run E COLLECTION w Hgoc)).
    match goal with |- context [try_catch ?body ?h ?w1] =>
      assert (emits P (try_catch body h)) as Hrest end.
    { apply emits_try_catch.
      - apply (emits_bind P (tagged ctx)).
        { apply emits_foldM; [|constructor].
          intros acc a Hacc. now apply emits_V1_ingest_file. }
        intros allChunks Hall.
        apply emits_seq; [apply emits_V1_getEmbeddings|]. intros embeddings.
        apply emits_seq; [apply emits_upsert, P_upsert, tagged_records, Hall|].
        intros _.
        apply emits_seq; [apply emits_log|]. intros _. now apply emits_ret.
      - intros e. apply emits_seq; [apply emits_log_error|]. intros _.
        now apply emits_ret. }
    destruct (proj1 (Hrest (created COLLECTION
                              (traced (GetOrCreateCollection COLLECTION) w))))
      as (evs & Htrace & Hevs).
    exists evs. split; [|exact Hevs].
    rewrite Htrace, trace_created. cbn. now rewrite <- List.app_assoc.
Qed.

Lemma V3_post_upload_resolves req w f fs :
  context_of E req = ctx -> req_files req = Some (f :: fs) ->
  exists evs,
    trace (V3.post_upload E req w).2
      = (trace w ++ GetOrCreateCollection COLLECTION :: evs)%list /\
    Forall P evs.
Proof.
  intros Hctx Hfs. unfold V3.post_upload. fold (context_of E req).
  rewrite Hctx, Hfs.
  destruct (store_fault E (GetOrCreateCollection COLLECTION)) as [e|] eqn:Hgoc.
  - rewrite (try_catch_bind_throw _ _ _ _ _ _
               (getOrCreateCollection_throw E COLLECTION e w Hgoc)).
    exists []. split; [|constructor]. now rewrite trace_caught.
  - rewrite (try_catch_bind_ok _ _ _ _ _ _
               (getOrCreateCollection_run E COLLECTION w Hgoc)).
    match goal with |- context [try_catch ?body ?h ?w1] =>
      assert (emits P (try_catch body h)) as Hrest end.
    { apply emits_try_catch.
      - apply (emits_bind P (tagged ctx)).
        { apply emits_foldM; [|constructor].
          intros acc a Hacc. now apply emits_V3_ingest_file. }
        intros allChunks Hall.
        apply emits_seq; [apply emits_V3_getEmbeddings|]. intros embeddings.
        apply emits_seq; [apply emits_V3_ids_from|]. intros ids.
        apply emits_seq; [apply emits_upsert, P_upsert, tagged_records, Hall|].
        intros _.
        now apply emits_ret.
      - intros e. apply emits_seq; [apply emits_log_error|]. intros _.
        now apply emits_ret. }
    destruct (proj1 (Hrest (created COLLECTION
                              (traced (GetOrCreateCollection COLLECTION) w))))
      as (evs & Htrace & Hevs).
    exists evs. split; [|exact Hevs].
    rewrite Htrace, trace_created. cbn. now rewrite <- List.app_assoc.
Qed.

(** *** Queries *)

Variable c : option string.

Hypothesis P_query : forall n, P (Query COLLECTION n (where_filter c)).

Lemma emits_V1_post_query req :
  body_c req = c -> emits P (V1.post_query E req).
Proof.
  intros Hc. unfold V1.post_query, body_c in *.
  apply emits_try_catch.
  - destruct (req_body req) as [b|]; [|apply emits_throw]. cbn in Hc. rewrite Hc.
    destruct (negb (truthy (q_of b))); [now apply emits_ret|].
    apply emits_seq; [apply emits_V1_getEmbeddings|]. intros embeddings.
    apply (emits_bind P (fun handle => handle = COLLECTION));
      [apply emits_getOrCreateCollection|]. intros ? ->.
    apply emits_seq; [apply emits_query, P_query|]. intros result.
    apply emits_seq; [apply emits_generate|]. intros answer.
    apply emits_seq; [apply emits_log|]. intros _. now apply emits_ret.
  - intros e. apply emits_seq; [apply emits_log_error|]. intros _.
    now apply emits_ret.
Qed.

Lemma emits_V3_post_chat req :
  body_c req = c -> emits P (V3.post_chat E req).
Proof.
  intros Hc. unfold V3.post_chat, body_c in *.
  apply emits_try_catch.
  - destruct (req_body req) as [b|]; [|apply emits_throw]. cbn in Hc. rewrite Hc.
    destruct (negb (truthy (q_of b))); [now apply emits_ret|].
    apply emits_seq; [apply emits_V3_getEmbeddings|]. intros embeddings.
    apply (emits_bind P (fun handle => handle = COLLECTION));
      [apply emits_getOrCreateCollection|]. intros ? ->.
    apply emits_seq; [apply emits_query, P_query|]. intros [|r result].
    + now apply emits_ret.
    + apply emits_seq; [apply emits_generate|]. intros answer. now apply emits_ret.
  - intros e. apply emits_seq; [apply emits_log_error|]. intros _.
    now apply emits_ret.
Qed.

(** A query with a [q], once the question is embedded, resolves the
    collection, and once the collection is resolved, searches it, with
    the filter made from [c]. *)
Lemma V1_post_query_resolves req w b q resp :
  req_body req = Some b -> q_of b = Some q -> nonempty q -> c_of b = c ->
  featureExtraction E [q] = Ok resp ->
  exists evs,
    trace (V1.post_query E req w).2
      = (trace w ++ FeatureExtraction [q] :: GetOrCreateCollection COLLECTION :: evs)%list /\
    Forall P evs /\
    (store_fault E (GetOrCreateCollection COLLECTION) = None ->
     exists evs',
       evs = Query COLLECTION (default 5 (k_of b)) (where_filter c) :: evs').
Proof.
  intros Hb Hq Hne Hc Hresp. unfold V1.post_query.
  rewrite Hb, Hq, truthy_Some, or_else_Some, Hc by exact Hne. cbn [negb].
  rewrite (try_catch_bind_ok _ _ _ _ _ _ (V1_getEmbeddings_ok E [q] resp w Hresp)).
  destruct (store_fault E (GetOrCreateCollection COLLECTION)) as [e|] eqn:Hgoc.
  { rewrite (try_catch_bind_throw _ _ _ _ _ _
               (getOrCreateCollection_throw E COLLECTION e _ Hgoc)).
    exists []. split_and!; [|constructor|discriminate].
    rewrite trace_caught. cbn. now rewrite <- List.app_assoc. }
  rewrite (try_catch_bind_ok _ _ _ _ _ _
             (getOrCreateCollection_run E COLLECTION _ Hgoc)).
  set (k := default 5 (k_of b)).
  destruct (store_fault E (Query COLLECTION k (where_filter c))) as [e|] eqn:Hquery.
  { rewrite (try_catch_bind_throw _ _ _ _ _ _
               (collection_query_throw E COLLECTION _ k _ e _ Hquery)).
    exists [Query COLLECTION k (where_filter c)].
    split_and!; [|constructor; [apply P_query|constructor]|eauto].
    rewrite trace_caught. cbn. rewrite trace_created. cbn.
    now rewrite <- !List.app_assoc. }
  rewrite (try_catch_bind_ok _ _ _ _ _ _
             (collection_query_run E COLLECTION _ k _ _ Hquery)).
  match goal with |- context [try_catch ?body ?h ?w1] =>
    assert (emits P (try_catch body h)) as Hrest;
      [|destruct (proj1 (Hrest w1)) as (evs & Htrace & Hevs)] end.
  { apply emits_try_catch.
    - apply emits_seq; [apply emits_generate|]. intros answer.
      apply emits_seq; [apply emits_log|]. intros _. now apply emits_ret.
    - intros e. apply emits_seq; [apply emits_log_error|]. intros _.
      now apply emits_ret. }
  exists (Query COLLECTION k (where_filter c) :: evs).
  split_and!; [|constructor; [apply P_query|exact Hevs]|eauto].
  rewrite Htrace. cbn. rewrite trace_created. cbn.
  now rewrite <- !List.app_assoc.
Qed.

Lemma V3_post_chat_resolves req w b q resp :
  req_body req = Some b -> q_of b = Some q -> nonempty q -> c_of b = c ->
  featureExtraction E [q] = Ok resp ->
  exists evs,
    trace (V3.post_chat E req w).2
      = (trace w ++ FeatureExtraction [q] :: GetOrCreateCollection COLLECTION :: evs)%list /\
    Forall P evs /\
    (store_fault E (GetOrCreateCollection COLLECTION) = None ->
     exists evs',
       evs = Query COLLECTION (default 5 (k_of b)) (where_filter c) :: evs').
Proof.
  intros Hb Hq Hne Hc Hresp. unfold V3.post_chat.
  rewrite Hb, Hq, truthy_Some, or_else_Some, Hc by exact Hne. cbn [negb].
  rewrite (try_catch_bind_ok _ _ _ _ _ _ (V3_getEmbeddings_ok E [q] resp w Hresp)).
  destruct (store_fault E (GetOrCreateCollection COLLECTION)) as [e|] eqn:Hgoc.
  { rewrite (try_catch_bind_throw _ _ _ _ _ _
               (getOrCreateCollection_throw E COLLECTION e _ Hgoc)).
    exists []. split_and!; [|constructor|discriminate].
    rewrite trace_caught. cbn. rewrite trace_printed. cbn. now rewrite <- List.app_assoc. }
  rewrite (try_catch_bind_ok _ _ _ _ _ _
             (getOrCreateCollection_run E COLLECTION _ Hgoc)).
  set (k := default 5 (k_of b)).
  destruct (store_fault E (Query COLLECTION k (where_filter c))) as [e|] eqn:Hquery.
  { rewrite (try_catch_bind_throw _ _ _ _ _ _
               (collection_query_throw E COLLECTION _ k _ e _ Hquery)).
    exists [Query COLLECTION k (where_filter c)].
    split_and!; [|constructor; [apply P_query|constructor]|eauto].
    rewrite trace_caught. cbn. rewrite trace_created. cbn. rewrite trace_printed. cbn.
    now rewrite <- !List.app_assoc. }
  rewrite (try_catch_bind_ok _ _ _ _ _ _
             (collection_query_run E COLLECTION _ k _ _ Hquery)).
  match goal with |- context [try_catch ?body ?h ?w1] =>
    assert (emits P (try_catch body h)) as Hrest;
      [|destruct (proj1 (Hrest w1)) as (evs & Htrace & Hevs)] end.
  { apply emits_try_catch.
    - destruct (search _ _ _ _ _ _) as [|r result]; [now apply emits_ret|].
      apply emits_seq; [apply emits_generate|]. intros answer. now apply emits_ret.
    - intros e. apply emits_seq; [apply emits_log_error|]. intros _.
      now apply emits_ret. }
  exists (Query COLLECTION k (where_filter c) :: evs).
  split_and!; [|constructor; [apply P_query|exact Hevs]|eauto].
  rewrite Htrace. cbn. rewrite trace_created. cbn. rewrite trace_printed. cbn.
  now rewrite <- !List.app_assoc.
Qed.

End Calls.

Lemma emits_trace {A} (P : event -> Prop) (m : M A) :
  emits P m ->
  forall w, exists evs, trace (m w).2 = (trace w ++ evs)%list /\ Forall P evs.
Proof. intros Hm w. apply (Hm w). Qed.

Lemma candidates_unfiltered (coll : gmap string record) :
  candidates None coll = (map_to_list coll).*2.
Proof.
  unfold candidates. induction ((map_to_list coll).*2) as [|r l IH]; cbn; [reflexivity|].
  now rewrite IH.
Qed.

Lemma candidates_filtered (ctx : string) (coll : gmap string record) (r : record) :
  In r (candidates (Some ctx) coll) <->
  In r (map_to_list coll).*2 /\ context (meta r) = ctx.
Proof.
  unfold candidates. rewrite List.filter_In. cbn. now rewrite String.eqb_eq.
Qed.

(** Two uploads under different contexts land in the same collection; a
    question without [c] retrieves both, a question with [c] one. *)
Example unfiltered_query_crosses_contexts :
  let upload_other := IngestRequest (Some [File "/tmp/u2" "b.txt"]) (Some "B") in
  let w1 := (V3.post_upload env_up upload_a (stage "/tmp/u1" "First report." boot)).2 in
  let w2 := (V3.post_upload env_up upload_other (stage "/tmp/u2" "Second report." w1)).2 in
  let contexts (r : result response) :=
    match r with
    | Ok (Response _ (AnswerBody _ retrieved)) =>
        List.map (fun i => context (r_metadata i)) retrieved
    | _ => []
    end in
  contexts (V3.post_chat env_up question w2).1 = ["A"; "B"] /\
  contexts (V3.post_chat env_up
              (QueryRequest
                 (Some (QueryBody (Some "What is this document about?") None
                                  (Some "B")))) w2).1
    = ["B"].
Proof. vm_compute. auto. Qed.

(** ** Staged files on the success path *)

Lemma no_new_files_refl w : no_new_files w w.
Proof. intros p H. exact H. Qed.

Lemma no_new_files_trans w1 w2 w3 :
  no_new_files w1 w2 -> no_new_files w2 w3 -> no_new_files w1 w3.
Proof. intros H12 H23 p H. auto. Qed.

Section Cleanup.

Variable E : env.

Lemma sn_ret {A} (a : A) : stages_nothing (mret a).
Proof. now apply respects_ret; [apply no_new_files_refl|]. Qed.

Lemma sn_throw {A} (e : exn) : stages_nothing (@throw A e).
Proof. apply respects_throw, no_new_files_refl. Qed.

Lemma sn_lift {A} (r : result A) : stages_nothing (lift r).
Proof. now apply respects_lift; [apply no_new_files_refl|]. Qed.

Lemma sn_get : stages_nothing get.
Proof. apply respects_get, no_new_files_refl. Qed.

Lemma sn_modify (f : world -> world) :
  (forall w, files (f w) = files w) -> stages_nothing (modify f).
Proof. intros Hf. apply respects_modify. intros w p. now rewrite Hf. Qed.

Lemma sn_seq {A B} (m : M A) (f : A -> M B) :
  stages_nothing m -> (forall a, stages_nothing (f a)) -> stages_nothing (m ≫= f).
Proof. apply respects_seq, no_new_files_trans. Qed.

Lemma sn_try_catch {A} (body : M A) (handler : exn -> M A) :
  stages_nothing body -> (forall e, stages_nothing (handler e)) ->
  stages_nothing (try_catch body handler).
Proof. apply respects_try_catch, no_new_files_trans. Qed.

Lemma sn_foldM {A B} (f : B -> A -> M B) (l : list A) :
  (forall acc a, stages_nothing (f acc a)) -> forall acc, stages_nothing (foldM f acc l).
Proof.
  intros Hf acc.
  apply (respects_foldM no_new_files no_new_files_refl no_new_files_trans (fun _ => True));
    [|exact I].
  intros acc' a _. apply Hf.
Qed.

Lemma sn_emit ev : stages_nothing (emit ev).
Proof. apply sn_modify. intros w. now destruct w. Qed.

Lemma sn_log msg : stages_nothing (log msg).
Proof. apply sn_modify. intros w. now destruct w as [? ? []]. Qed.

Lemma sn_log_error msg : stages_nothing (log_error msg).
Proof. apply sn_modify. intros w. now destruct w. Qed.

Lemma sn_hf_settle inputs : stages_nothing (hf_settle E inputs).
Proof.
  apply sn_seq; [|intros _; apply sn_lift].
  apply sn_foldM. intros acc line. apply sn_log.
Qed.

Lemma sn_hf inputs : stages_nothing (hf_featureExtraction E inputs).
Proof. apply sn_seq; [apply sn_emit|]. intros _. apply sn_hf_settle. Qed.

Lemma sn_getOrCreateCollection name : stages_nothing (getOrCreateCollection E name).
Proof.
  apply sn_seq; [apply sn_emit|]. intros _.
  destruct (store_fault E _); [apply sn_throw|].
  apply sn_seq; [|intros _; apply sn_ret].
  apply sn_modify. intros w. now destruct (store w !! name), w.
Qed.

Lemma sn_upsert name rs : stages_nothing (collection_upsert E name rs).
Proof.
  apply sn_seq; [apply sn_emit|]. intros _.
  destruct (store_fault E _); [apply sn_throw|].
  apply sn_modify. intros w. now destruct w.
Qed.

Lemma sn_readFileSync p : stages_nothing (readFileSync p).
Proof.
  apply sn_seq; [apply sn_emit|]. intros _.
  apply sn_seq; [apply sn_get|]. intros w.
  destruct (files w !! p); [apply sn_ret|apply sn_throw].
Qed.

Lemma sn_unlinkSync p : stages_nothing (unlinkSync p).
Proof.
  apply sn_seq; [apply sn_emit|]. intros _.
  apply sn_seq; [apply sn_get|]. intros w.
  destruct (files w !! p); [|apply sn_throw].
  apply respects_modify. intros w' q Hq. destruct w'; cbn in *.
  apply lookup_delete_None. auto.
Qed.

Lemma sn_Date_now : stages_nothing (Date_now E).
Proof.
  apply sn_seq; [apply sn_get|]. intros w.
  apply sn_seq; [|intros _; apply sn_ret].
  apply sn_modify. intros w'. now destruct w'.
Qed.

Lemma sn_V1_getEmbeddings texts : stages_nothing (V1.getEmbeddings E texts).
Proof.
  apply sn_seq.
  - apply sn_seq; [apply sn_get|]. intros w.
    apply sn_seq; [apply sn_modify; intros w'; now destruct w'|]. intros _.
    apply sn_seq; [apply sn_emit|]. intros _. apply sn_ret.
  - intros originalLog.
    apply sn_seq; [apply sn_hf_settle|]. intros resp.
    apply sn_seq; [apply sn_modify; intros w'; now destruct w'|]. intros _.
    apply sn_ret.
Qed.

Lemma sn_V3_getEmbeddings texts : stages_nothing (V3.getEmbeddings E texts).
Proof.
  apply sn_try_catch.
  - apply sn_seq; [apply sn_hf|]. intros resp. apply sn_ret.
  - intros e. apply sn_seq; [apply sn_log_error|]. intros _. apply sn_throw.
Qed.

Lemma sn_V1_semanticChunking text threshold :
  stages_nothing (V1.semanticChunking E text threshold).
Proof.
  unfold V1.semanticChunking, V1.chunk_sentences.
  destruct (segment text) as [|s0 rest]; [apply sn_ret|].
  apply sn_seq; [apply sn_log|]. intros _.
  apply sn_seq; [apply sn_V1_getEmbeddings|]. intros resp. apply sn_lift.
Qed.

Lemma sn_V3_semanticChunking text threshold :
  stages_nothing (V3.semanticChunking E text threshold).
Proof.
  unfold V3.semanticChunking, V3.chunk_sentences.
  destruct (segment text) as [|s0 rest]; [apply sn_ret|].
  apply sn_seq; [apply sn_V3_getEmbeddings|]. intros resp. apply sn_lift.
Qed.

Lemma sn_V3_ids_from ctx allChunks : forall i,
  stages_nothing (V3.ids_from E ctx i allChunks).
Proof.
  induction allChunks as [|c rest IH]; intros i; cbn [V3.ids_from].
  - apply sn_ret.
  - apply sn_seq; [apply sn_Date_now|]. intros now.
    apply sn_seq; [apply IH|]. intros ids. apply sn_ret.
Qed.

Lemma sn_V1_ingest_file ctx allChunks f :
  stages_nothing (V1.ingest_file E ctx allChunks f).
Proof.
  apply sn_seq; [apply sn_readFileSync|]. intros text.
  apply sn_seq; [apply sn_V1_semanticChunking|]. intros chunks.
  apply sn_seq; [apply sn_unlinkSync|]. intros _. apply sn_ret.
Qed.

Lemma sn_V3_ingest_file ctx allChunks f :
  stages_nothing (V3.ingest_file E ctx allChunks f).
Proof.
  apply sn_seq; [apply sn_readFileSync|]. intros text.
  apply sn_seq; [apply sn_V3_semanticChunking|]. intros chunks.
  apply sn_seq; [apply sn_unlinkSync|]. intros _. apply sn_ret.
Qed.

(** A successful [unlinkSync] has removed the file. *)
Lemma unlinkSync_ok p w u w' :
  unlinkSync p w = (Ok u, w') -> files w' !! p = None.
Proof.
  unfold unlinkSync, mbind, M_bind. cbn.
  destruct (files w !! p) eqn:Hp; [|discriminate].
  intros [= _ <-]. cbn. apply lookup_delete_eq.
Qed.

Lemma V1_ingest_file_ok ctx allChunks f w allChunks' w' :
  V1.ingest_file E ctx allChunks f w = (Ok allChunks', w') ->
  files w' !! file_path f = None.
Proof.
  unfold V1.ingest_file. intros H.
  apply bind_inv_ok in H as (text & w1 & _ & H).
  apply bind_inv_ok in H as (chunks & w2 & _ & H).
  apply bind_inv_ok in H as (u & w3 & Hun & H).
  injection H as _ <-. eapply unlinkSync_ok; eauto.
Qed.

Lemma V3_ingest_file_ok ctx allChunks f w allChunks' w' :
  V3.ingest_file E ctx allChunks f w = (Ok allChunks', w') ->
  files w' !! file_path f = None.
Proof.
  unfold V3.ingest_file. intros H.
  apply bind_inv_ok in H as (text & w1 & _ & H).
  apply bind_inv_ok in H as (chunks & w2 & _ & H).
  apply bind_inv_ok in H as (u & w3 & Hun & H).
  injection H as _ <-. eapply unlinkSync_ok; eauto.
Qed.

(** A file loop that ran to its end has removed every file it went
    through. *)
Lemma foldM_ingest_ok (ingest : list chunk -> file -> M (list chunk)) :
  (forall acc f, stages_nothing (ingest acc f)) ->
  (forall acc f w acc' w',
     ingest acc f w = (Ok acc', w') -> files w' !! file_path f = None) ->
  forall fs acc w acc' w',
    foldM ingest acc fs w = (Ok acc', w') ->
    forall f, In f fs -> files w' !! file_path f = None.
Proof.
  intros Hsn Hok. induction fs as [|f0 fs IH]; intros acc w acc' w' Hrun f Hin.
  - destruct Hin.
  - cbn [foldM] in Hrun.
    apply bind_inv_ok in Hrun as (acc1 & w1 & Hone & Hrest).
    destruct Hin as [<-|Hin].
    + pose proof (proj1 (sn_foldM ingest fs Hsn acc1 w1)) as Hkeep.
      rewrite Hrest in Hkeep. apply Hkeep. eapply Hok; eauto.
    + eapply IH; eauto.
Qed.

(** When [POST /index] answers 200, every file of the request is gone. *)
Lemma V1_post_index_success_cleans req w b w' :
  V1.post_index E req w = (Ok (Response 200 b), w') ->
  forall fs f, req_files req = Some fs -> In f fs ->
    files w' !! file_path f = None.
Proof.
  unfold V1.post_index, try_catch. intros Hrun fs f Hfs Hin. rewrite Hfs in Hrun.
  destruct fs as [|f0 fs]; [destruct Hin|].
  match type of Hrun with (match ?body w with _ => _ end) = _ =>
    destruct (body w) as [[resp|e] w1] eqn:Hbody end; [|discriminate].
  injection Hrun as -> ->.
  apply bind_inv_ok in Hbody as (handle & wa & _ & Hbody).
  apply bind_inv_ok in Hbody as (allChunks & wb & Hloop & Hrest).
  pose proof (foldM_ingest_ok _ (sn_V1_ingest_file _) (V1_ingest_file_ok _)
                _ _ _ _ _ Hloop f Hin) as Hgone.
  match type of Hrest with ?rest wb = _ =>
    assert (stages_nothing rest) as Hsn end.
  { apply sn_seq; [apply sn_V1_getEmbeddings|]. intros embeddings.
    apply sn_seq; [apply sn_upsert|]. intros _.
    apply sn_seq; [apply sn_log|]. intros _. apply sn_ret. }
  pose proof (proj1 (Hsn wb)) as Hkeep. rewrite Hrest in Hkeep. now apply Hkeep.
Qed.

(** When [POST /upload] answers 200, every file of the request is gone. *)
Lemma V3_post_upload_success_cleans req w b w' :
  V3.post_upload E req w = (Ok (Response 200 b), w') ->
  forall fs f, req_files req = Some fs -> In f fs ->
    files w' !! file_path f = None.
Proof.
  unfold V3.post_upload, try_catch. intros Hrun fs f Hfs Hin. rewrite Hfs in Hrun.
  destruct fs as [|f0 fs]; [destruct Hin|].
  match type of Hrun with (match ?body w with _ => _ end) = _ =>
    destruct (body w) as [[resp|e] w1] eqn:Hbody end; [|discriminate].
  injection Hrun as -> ->.
  apply bind_inv_ok in Hbody as (handle & wa & _ & Hbody).
  apply bind_inv_ok in Hbody as (allChunks & wb & Hloop & Hrest).
  pose proof (foldM_ingest_ok _ (sn_V3_ingest_file _) (V3_ingest_file_ok _)
                _ _ _ _ _ Hloop f Hin) as Hgone.
  match type of Hrest with ?rest wb = _ =>
    assert (stages_nothing rest) as Hsn end.
  { apply sn_seq; [apply sn_V3_getEmbeddings|]. intros embeddings.
    apply sn_seq; [apply sn_V3_ids_from|]. intros ids.
    apply sn_seq; [apply sn_upsert|]. intros _. apply sn_ret. }
  pose proof (proj1 (Hsn wb)) as Hkeep. rewrite Hrest in Hkeep. now apply Hkeep.
Qed.

End Cleanup.

(** ** The word-count chunker of the second listing *)

Lemma total_app (g1 g2 : list string) : total (g1 ++ g2)%list = total g1 + total g2.
Proof. apply sum_list_with_app. Qed.

Lemma total_single (s : string) : total [s] = words s.
Proof. unfold total. cbn. lia. Qed.

Lemma packed_extend targetWords (g : list string) (s : string) : forall gs,
  g <> [] ->
  packed targetWords (gs ++ [g])%list -> packed targetWords (gs ++ [g ++ [s]])%list.
Proof.
  intros gs Hg. induction gs as [|a gs IH]; [auto|].
  destruct gs as [|b gs].
  - simpl. destruct g as [|x g]; [now elim Hg|]. simpl. auto.
  - intros [Hab Hrest]. split; [exact Hab|]. apply IH. exact Hrest.
Qed.

Lemma packed_close targetWords (g : list string) (s : string) : forall gs,
  (targetWords < Z.of_nat (total g + words s))%Z ->
  packed targetWords (gs ++ [g])%list -> packed targetWords ((gs ++ [g]) ++ [[s]])%list.
Proof.
  intros gs Hlt. induction gs as [|a gs IH].
  - cbn. auto.
  - destruct gs as [|b gs].
    + cbn. intros [Hag _]. auto.
    + intros [Hab Hrest]. split; [exact Hab|]. apply IH. exact Hrest.
Qed.

Lemma gathered_init targetWords : gathered targetWords [] (V2.Gather [] [] 0).
Proof.
  exists []. cbn. split_and!; auto.
Qed.

Lemma gathered_step targetWords seen st s :
  gathered targetWords seen st ->
  gathered targetWords (seen ++ [s])%list (V2.step targetWords st s).
Proof.
  intros (groups & Hc & Hne & Hseen & Hw & Hfit & Hcur & Hpack & Hfirst).
  unfold V2.step. fold (words s).
  destruct (V2.cur st) as [|x cur'] eqn:Hcurst.
  - (* the first sentence opens the first group *)
    cbn [length Nat.eqb negb]. rewrite andb_false_r.
    rewrite (Hfirst eq_refl) in *. exists []. cbn. split_and!.
    + exact Hc.
    + constructor.
    + now rewrite <- Hseen.
    + rewrite Hw. cbn. lia.
    + constructor.
    + right. left. reflexivity.
    + exact I.
    + reflexivity.
  - cbn [length Nat.eqb negb]. rewrite andb_true_r.
    destruct (Z.gtb_spec (Z.of_nat (V2.curWords st + words s)) targetWords) as [Hgt|Hle].
    + (* the open group is closed *)
      exists (groups ++ [x :: cur'])%list. cbn [V2.chunks V2.cur V2.curWords]. split_and!.
      * now rewrite List.map_app, Hc.
      * apply Forall_app. split; [exact Hne|]. constructor; [discriminate|constructor].
      * rewrite concat_app. cbn [concat]. now rewrite List.app_nil_r, Hseen.
      * now rewrite total_single.
      * apply Forall_app. split; [exact Hfit|].
        constructor; [|constructor]. destruct Hcur as [Hcur|Hcur]; [discriminate|exact Hcur].
      * right. left. reflexivity.
      * apply packed_close; [|exact Hpack]. rewrite <- Hw. lia.
      * discriminate.
    + (* the sentence joins the open group *)
      exists groups. cbn [V2.chunks V2.cur V2.curWords]. split_and!; auto.
      * now rewrite List.app_assoc, Hseen.
      * change (x :: cur' ++ [s])%list with ((x :: cur') ++ [s])%list.
        rewrite total_app, total_single, Hw. reflexivity.
      * right. right.
        change (x :: cur' ++ [s])%list with ((x :: cur') ++ [s])%list.
        rewrite total_app, total_single, <- Hw. lia.
      * change (x :: cur' ++ [s])%list with ((x :: cur') ++ [s])%list.
        apply packed_extend; [discriminate|exact Hpack].
      * discriminate.
Qed.

Lemma gathered_fold targetWords sentences : forall seen st,
  gathered targetWords seen st ->
  gathered targetWords (seen ++ sentences)%list
           (fold_left (V2.step targetWords) sentences st).
Proof.
  induction sentences as [|s sentences IH]; intros seen st Hst; cbn.
  - now rewrite List.app_nil_r.
  - replace (seen ++ s :: sentences)%list with ((seen ++ [s]) ++ sentences)%list
      by now rewrite <- List.app_assoc.
    apply IH. now apply gathered_step.
Qed.

Lemma split_from_nonempty behind s : forall acc m, V2.split_from behind acc m s <> [].
Proof.
  induction s as [|c s IH]; intros acc m; cbn; [discriminate|].
  destruct m as [after|].
  - destruct (is_space c && (negb behind || after)); [discriminate|apply IH].
  - destruct (is_space c); apply IH.
Qed.

(** X1. The word-count chunker splits the text's sentences into
    consecutive non-empty groups and returns each group joined by spaces.
    There is at least one group; a group of several sentences has at most
    [targetWords] words; and a group was closed only because the next
    sentence would have taken it past [targetWords]. *)
Theorem wordcount_chunker_packs (text : string) (targetWords : Z) :
  exists groups : list (list string),
    V2.semanticChunk text targetWords = List.map join groups /\
    concat groups = V2.split_sentences text /\
    groups <> [] /\
    Forall (fun g => g <> []) groups /\
    Forall (fits targetWords) groups /\
    packed targetWords groups.
Proof.
  unfold V2.semanticChunk.
  destruct (gathered_fold targetWords (V2.split_sentences text) []
              (V2.Gather [] [] 0) (gathered_init targetWords))
    as (groups & Hc & Hne & Hseen & Hw & Hfit & Hcur & Hpack & Hfirst).
  cbn [app] in Hseen.
  set (st := fold_left (V2.step targetWords) (V2.split_sentences text)
                       (V2.Gather [] [] 0)) in *.
  assert (V2.cur st <> []) as Hopen.
  { intros Hnil. rewrite Hnil, (Hfirst Hnil) in Hseen. cbn in Hseen.
    symmetry in Hseen. revert Hseen. apply split_from_nonempty. }
  exists (groups ++ [V2.cur st])%list. unfold V2.finish.
  destruct (V2.cur st) as [|x cur'] eqn:Hcurst; [now elim Hopen|].
  split_and!.
  - now rewrite List.map_app, Hc.
  - rewrite concat_app. cbn [concat]. now rewrite List.app_nil_r.
  - destruct groups; discriminate.
  - apply Forall_app. split; [exact Hne|]. constructor; [discriminate|constructor].
  - apply Forall_app. split; [exact Hfit|]. constructor; [|constructor].
    destruct Hcur as [Hcur|Hcur]; [discriminate|exact Hcur].
  - exact Hpack.
Qed.

(** ** What the word-count chunker keeps *)

Lemma non_space_chars_append (a b : string) :
  non_space_chars (a ++ b) = (non_space_chars a ++ non_space_chars b)%list.
Proof.
  unfold non_space_chars. induction a as [|c a IH]; [reflexivity|].
  rewrite append_cons. cbn. destruct (is_space c); cbn; now rewrite IH.
Qed.

Lemma non_space_chars_join (g : list string) :
  non_space_chars (join g) = non_space_of g.
Proof.
  unfold non_space_of. induction g as [|x g IH]; [reflexivity|].
  destruct g as [|y g].
  - cbn. now rewrite List.app_nil_r.
  - change (join (x :: y :: g)) with (x ++ " " ++ join (y :: g)).
    rewrite !non_space_chars_append, IH. reflexivity.
Qed.

Lemma non_space_of_nil : non_space_of [] = [].
Proof. reflexivity. Qed.

Lemma non_space_of_cons (x : string) (l : list string) :
  non_space_of (x :: l) = (non_space_chars x ++ non_space_of l)%list.
Proof. reflexivity. Qed.

Lemma non_space_of_app (l1 l2 : list string) :
  non_space_of (l1 ++ l2) = (non_space_of l1 ++ non_space_of l2)%list.
Proof. unfold non_space_of. now rewrite List.map_app, concat_app. Qed.

Lemma non_space_chars_space (c : ascii) (s : string) :
  is_space c = true -> non_space_chars (String c s) = non_space_chars s.
Proof. intros H. unfold non_space_chars. cbn. now rewrite H. Qed.

Lemma split_from_keeps behind (s : string) : forall acc m,
  (m = V2.InSeparator -> acc = EmptyString) ->
  non_space_of (V2.split_from behind acc m s) =
  (non_space_chars acc ++ non_space_chars s)%list.
Proof.
  induction s as [|c s IH]; intros acc m Hm.
  - cbn. unfold non_space_of. cbn. now rewrite !List.app_nil_r.
  - cbn [V2.split_from]. destruct m as [after|].
    + destruct (is_space c) eqn:Hc; cbn [andb].
      * destruct (negb behind || after).
        -- change (non_space_of (acc :: ?l)) with (non_space_chars acc ++ non_space_of l)%list.
           rewrite IH, non_space_chars_space by auto. reflexivity.
        -- rewrite IH by discriminate. unfold snoc. rewrite non_space_chars_append.
           rewrite <- List.app_assoc. f_equal.
           now rewrite <- non_space_chars_append.
      * rewrite IH by discriminate. unfold snoc. rewrite non_space_chars_append.
        rewrite <- List.app_assoc. f_equal.
        now rewrite <- non_space_chars_append.
    + rewrite (Hm eq_refl). destruct (is_space c) eqn:Hc.
      * rewrite IH, non_space_chars_space by auto. reflexivity.
      * rewrite IH by discriminate. now rewrite <- non_space_chars_append.
Qed.

Lemma step_keeps targetWords st s :
  (non_space_of (V2.chunks (V2.step targetWords st s)) ++
   non_space_of (V2.cur (V2.step targetWords st s)))%list =
  ((non_space_of (V2.chunks st) ++ non_space_of (V2.cur st)) ++ non_space_chars s)%list.
Proof.
  unfold V2.step.
  destruct (_ && _); cbn [V2.chunks V2.cur].
  - rewrite non_space_of_app. fold (join (V2.cur st)).
    rewrite !non_space_of_cons, !non_space_of_nil, non_space_chars_join, !List.app_nil_r.
    reflexivity.
  - rewrite non_space_of_app, non_space_of_cons, non_space_of_nil.
    now rewrite List.app_nil_r, List.app_assoc.
Qed.

Lemma fold_keeps targetWords sentences : forall st,
  (non_space_of (V2.chunks (fold_left (V2.step targetWords) sentences st)) ++
   non_space_of (V2.cur (fold_left (V2.step targetWords) sentences st)))%list =
  ((non_space_of (V2.chunks st) ++ non_space_of (V2.cur st)) ++
   non_space_of sentences)%list.
Proof.
  induction sentences as [|s sentences IH]; intros st; cbn [fold_left].
  - now rewrite non_space_of_nil, List.app_nil_r.
  - rewrite IH, step_keeps, non_space_of_cons. now rewrite <- !List.app_assoc.
Qed.

(** X2. The word-count chunker loses no character but white space: the
    non-whitespace characters of the chunks, in order, are those of the
    text, whatever the text and the target. *)
Theorem wordcount_chunker_keeps_characters (text : string) (targetWords : Z) :
  non_space_of (V2.semanticChunk text targetWords) = non_space_chars text.
Proof.
  unfold V2.semanticChunk.
  pose proof (fold_keeps targetWords (V2.split_sentences text) (V2.Gather [] [] 0))
    as Hfold.
  set (st := fold_left (V2.step targetWords) (V2.split_sentences text)
                       (V2.Gather [] [] 0)) in *.
  cbn [V2.chunks V2.cur] in Hfold. rewrite non_space_of_nil in Hfold.
  cbn [app] in Hfold.
  unfold V2.split_sentences in Hfold.
  rewrite split_from_keeps in Hfold by discriminate.
  change (non_space_chars EmptyString) with (@nil ascii) in Hfold. cbn [app] in Hfold.
  rewrite <- Hfold. unfold V2.finish.
  destruct (V2.cur st) as [|x cur'] eqn:Hcur.
  - now rewrite non_space_of_nil, List.app_nil_r.
  - rewrite non_space_of_app. f_equal. fold (join (x :: cur')).
    now rewrite non_space_of_cons, non_space_of_nil, non_space_chars_join, List.app_nil_r.
Qed.

Lemma split_from_no_terminator (s : string) : forall acc,
  no_terminator s ->
  V2.split_from true acc (V2.InPiece false) s = [acc ++ s].
Proof.
  induction s as [|c s IH]; intros acc Hs.
  - cbn. now rewrite append_nil_r.
  - cbn [V2.split_from negb orb]. rewrite andb_false_r.
    rewrite (Hs c) by (cbn; auto).
    rewrite IH by (intros c' Hc'; apply Hs; cbn; auto).
    unfold snoc. now rewrite append_assoc.
Qed.

(** X3. A text without [.], [!] or [?] is one sentence and comes back as
    one chunk, unchanged and untrimmed, whatever the target; the empty
    text gives one empty chunk. *)
Theorem wordcount_chunker_unterminated (text : string) (targetWords : Z) :
  no_terminator text ->
  V2.semanticChunk text targetWords = [text].
Proof.
  intros Hs. unfold V2.semanticChunk, V2.split_sentences.
  rewrite split_from_no_terminator by auto.
  cbn [fold_left]. unfold V2.step. cbn [V2.cur length Nat.eqb negb].
  rewrite andb_false_r. reflexivity.
Qed.

Lemma wordcount_chunker_unterminated_witness :
  V2.semanticChunk "  no full stop here " 3 = ["  no full stop here "].
Proof.
  apply (wordcount_chunker_unterminated "  no full stop here " 3).
  intros c Hc. cbn in Hc.
  repeat (destruct Hc as [<-|Hc]; [reflexivity|]). destruct Hc.
Defined.

(** ** More on the segmenter *)

Lemma non_space_chars_trimStart (s : string) :
  non_space_chars (trimStart s) = non_space_chars s.
Proof.
  induction s as [|c s IH]; [reflexivity|]. cbn [trimStart].
  destruct (is_space c) eqn:Hc; [|reflexivity].
  now rewrite IH, non_space_chars_space.
Qed.

Lemma non_space_chars_cons (c : ascii) (s : string) :
  non_space_chars (String c s) =
  ((if is_space c then [] else [c]) ++ non_space_chars s)%list.
Proof. unfold non_space_chars. cbn. now destruct (is_space c). Qed.

Lemma non_space_chars_trimEnd (s : string) :
  non_space_chars (trimEnd s) = non_space_chars s.
Proof.
  induction s as [|c s IH]; [reflexivity|]. cbn [trimEnd].
  rewrite (non_space_chars_cons c s), <- IH.
  destruct (trimEnd s) as [|d t].
  - destruct (is_space c) eqn:Hc; [reflexivity|].
    now rewrite non_space_chars_cons, Hc.
  - now rewrite (non_space_chars_cons c (String d t)).
Qed.

Lemma non_space_chars_trim (s : string) :
  non_space_chars (trim s) = non_space_chars s.
Proof. unfold trim. now rewrite non_space_chars_trimEnd, non_space_chars_trimStart. Qed.

(** Trimming the sentences and dropping the empty ones loses no
    non-whitespace character. *)
Lemma non_space_of_clean (sentences : list string) :
  non_space_of (List.filter (fun s => negb (is_empty s)) (List.map trim sentences)) =
  non_space_of sentences.
Proof.
  induction sentences as [|s l IH]; [reflexivity|]. cbn [List.map List.filter].
  rewrite non_space_of_cons, <- IH, <- (non_space_chars_trim s).
  destruct (trim s); reflexivity.
Qed.

Lemma last_char_cons (c : ascii) (s : string) :
  s <> EmptyString -> last_char (String c s) = last_char s.
Proof. destruct s; [intros H; now elim H|reflexivity]. Qed.

(** Once a match is open, a text that ends with a terminator is matched
    to its last character. *)
Lemma match_from_keeps (s : string) : forall st,
  st <> Outside ->
  (s = EmptyString /\ (exists acc, st = InTerm acc)) \/
  (exists c, last_char s = Some c /\ is_terminator c = true) ->
  non_space_of (match_from st s) =
  (non_space_chars (acc_of st) ++ non_space_chars s)%list.
Proof.
  induction s as [|c s IH]; intros st Hst Hend.
  - destruct Hend as [[_ [acc ->]]|[c [Hc _]]]; [|discriminate].
    cbn [match_from]. rewrite non_space_of_cons, non_space_of_nil. reflexivity.
  - assert ((s = EmptyString /\ is_terminator c = true) \/
            (s <> EmptyString /\ exists d, last_char s = Some d /\ is_terminator d = true))
      as Hs.
    { destruct Hend as [[? _]|[d [Hd Hterm]]]; [discriminate|].
      destruct s as [|e s]; [left|right].
      - cbn in Hd. injection Hd as ->. auto.
      - split; [discriminate|]. exists d. split; [|exact Hterm].
        now rewrite last_char_cons in Hd by discriminate. }
    cbn [match_from]. destruct (is_terminator c) eqn:Hc.
    + assert (non_space_of (match_from (InTerm (snoc (acc_of st) c)) s) =
              (non_space_chars (acc_of st) ++ non_space_chars (String c s))%list) as Hgo.
      { rewrite IH; [|discriminate|].
        - cbn [acc_of]. unfold snoc. rewrite non_space_chars_append.
          rewrite <- List.app_assoc. f_equal.
          now rewrite <- non_space_chars_append.
        - destruct Hs as [[-> _]|[_ Hs]]; [left; eauto|right; exact Hs]. }
      destruct st as [|acc|acc]; [now elim Hst|exact Hgo|exact Hgo].
    + destruct Hs as [[_ Hs]|[Hne Hs]]; [congruence|].
      destruct st as [|acc|acc]; [now elim Hst| |].
      * rewrite IH; [|discriminate|right; exact Hs].
        cbn [acc_of]. unfold snoc. rewrite non_space_chars_append.
        rewrite <- List.app_assoc. f_equal.
        now rewrite <- non_space_chars_append.
      * rewrite non_space_of_cons, IH; [|discriminate|right; exact Hs].
        cbn [acc_of]. f_equal. now rewrite <- non_space_chars_append.
Qed.

(** X4. On a text made of terminated sentences (it begins with a
    character other than [.], [!], [?] and ends with one of them), and on
    a text without any terminator, the segmenter loses nothing but white
    space: the non-whitespace characters of its sentences, in order, are
    those of the text. *)
Theorem segment_keeps_terminated_text (text : string) :
  well_terminated text \/ no_terminator text ->
  non_space_of (segment text) = non_space_chars text.
Proof.
  intros Htext. unfold segment, match_sentences.
  rewrite non_space_of_clean.
  assert (non_space_of (match_from Outside text) = non_space_chars text \/
          match_from Outside text = []) as Hmatch.
  { destruct Htext as [[[c [Hfirst Hc]] [e [He Hterm]]]|Hnone].
    - left. destruct text as [|c' rest]; [discriminate|]. injection Hfirst as ->.
      cbn [match_from]. rewrite Hc.
      destruct rest as [|d rest']; [cbn in He; congruence|].
      rewrite match_from_keeps; [|discriminate|].
      + cbn [acc_of]. now rewrite <- non_space_chars_append.
      + right. rewrite last_char_cons in He by discriminate. eauto.
    - right. apply match_from_no_terminator; auto. }
  destruct (match_from Outside text) as [|m ms].
  - now rewrite non_space_of_cons, non_space_of_nil, List.app_nil_r.
  - destruct Hmatch as [Hmatch|Hmatch]; [exact Hmatch|discriminate].
Qed.

Lemma segment_keeps_terminated_text_witness :
  non_space_of (segment "Cats are mammals. Dogs too!") =
  non_space_chars "Cats are mammals. Dogs too!".
Proof.
  apply (segment_keeps_terminated_text "Cats are mammals. Dogs too!").
  left. split; [exists "C"%char|exists "!"%char]; split; reflexivity.
Defined.

Lemma non_space_chars_snoc (acc : string) (c : ascii) (s : string) :
  (non_space_chars (snoc acc c) ++ non_space_chars s)%list =
  (non_space_chars acc ++ non_space_chars (String c s))%list.
Proof.
  unfold snoc. rewrite non_space_chars_append, <- List.app_assoc. f_equal.
  now rewrite <- non_space_chars_append.
Qed.

Lemma match_from_sublist (s : string) : forall st,
  sublist (non_space_of (match_from st s))
          (non_space_chars (acc_of st) ++ non_space_chars s)%list.
Proof.
  induction s as [|c s IH]; intros st.
  - destruct st; cbn [match_from]; try apply sublist_nil_l.
    now rewrite non_space_of_cons, non_space_of_nil.
  - cbn [match_from]. destruct (is_terminator c), st as [|acc|acc]; cbn [acc_of].
    + etrans; [apply (IH Outside)|]. cbn [acc_of app].
      change (non_space_chars EmptyString) with (@nil ascii). cbn [app].
      rewrite (non_space_chars_cons c s). apply sublist_inserts_l. reflexivity.
    + rewrite <- non_space_chars_snoc. apply (IH (InTerm (snoc acc c))).
    + rewrite <- non_space_chars_snoc. apply (IH (InTerm (snoc acc c))).
    + change (non_space_chars EmptyString) with (@nil ascii). cbn [app].
      etrans; [apply (IH (InBody (String c EmptyString)))|]. cbn [acc_of].
      now rewrite <- non_space_chars_append.
    + rewrite <- non_space_chars_snoc. apply (IH (InBody (snoc acc c))).
    + rewrite non_space_of_cons. apply sublist_app; [reflexivity|].
      etrans; [apply (IH (InBody (String c EmptyString)))|]. cbn [acc_of].
      now rewrite <- non_space_chars_append.
Qed.

(** X5. The segmenter invents and repeats nothing: for every text, the
    non-whitespace characters of its sentences, in order, are obtained
    from those of the text by leaving characters out. *)
Theorem segment_invents_nothing (text : string) :
  sublist (non_space_of (segment text)) (non_space_chars text).
Proof.
  unfold segment, match_sentences. rewrite non_space_of_clean.
  pose proof (match_from_sublist text Outside) as Hsub. cbn [acc_of] in Hsub.
  change (non_space_chars EmptyString) with (@nil ascii) in Hsub. cbn [app] in Hsub.
  destruct (match_from Outside text) as [|m ms].
  - now rewrite non_space_of_cons, non_space_of_nil, List.app_nil_r.
  - exact Hsub.
Qed.

Lemma first_char_trimStart (s : string) (c : ascii) :
  first_char (trimStart s) = Some c -> is_space c = false.
Proof.
  induction s as [|d s IH]; [discriminate|]. cbn [trimStart].
  destruct (is_space d) eqn:Hd; [exact IH|]. cbn. now intros [= <-].
Qed.

Lemma first_char_trimEnd (s : string) (c : ascii) :
  first_char (trimEnd s) = Some c -> first_char s = Some c.
Proof.
  destruct s as [|d s]; [discriminate|]. cbn [trimEnd].
  destruct (trimEnd s); [destruct (is_space d)|]; cbn; auto; discriminate.
Qed.

Lemma last_char_trimEnd (s : string) (c : ascii) :
  last_char (trimEnd s) = Some c -> is_space c = false.
Proof.
  induction s as [|d s IH]; [discriminate|]. cbn [trimEnd].
  destruct (trimEnd s) as [|e t].
  - destruct (is_space d) eqn:Hd; [discriminate|]. cbn. now intros [= <-].
  - rewrite last_char_cons by discriminate. exact IH.
Qed.

(** X6. Every sentence the segmenter returns is non-empty and trimmed: it
    neither begins nor ends with a white-space character. *)
Theorem segment_sentences_trimmed (text s : string) :
  In s (segment text) ->
  s <> EmptyString /\
  (forall c, first_char s = Some c -> is_space c = false) /\
  (forall c, last_char s = Some c -> is_space c = false).
Proof.
  unfold segment. intros Hs. apply List.filter_In in Hs as [Hs Hne].
  apply List.in_map_iff in Hs as (raw & <- & _). split_and!.
  - destruct (trim raw); [discriminate|discriminate].
  - intros c Hc. apply first_char_trimEnd in Hc. now apply first_char_trimStart in Hc.
  - intros c Hc. now apply last_char_trimEnd in Hc.
Qed.

Lemma segment_sentences_trimmed_witness :
  "Dogs too!" <> EmptyString /\
  (forall c, first_char "Dogs too!" = Some c -> is_space c = false) /\
  (forall c, last_char "Dogs too!" = Some c -> is_space c = false).
Proof.
  apply (segment_sentences_trimmed "  Cats are mammals.   Dogs too!  " "Dogs too!").
  vm_compute. auto.
Defined.

Lemma chars_append (a b : string) :
  list_ascii_of_string (a ++ b) =
  (list_ascii_of_string a ++ list_ascii_of_string b)%list.
Proof.
  induction a as [|c a IH]; [reflexivity|]. rewrite append_cons. cbn. now rewrite IH.
Qed.

Lemma no_terminator_snoc (acc : string) (c : ascii) :
  no_terminator acc -> is_terminator c = false -> no_terminator (snoc acc c).
Proof.
  intros Hacc Hc d Hd. unfold snoc in Hd. rewrite chars_append in Hd.
  apply List.in_app_or in Hd as [Hd|[<-|[]]]; auto.
Qed.

Lemma all_terminators_snoc (acc : string) (c : ascii) :
  all_terminators acc -> is_terminator c = true -> all_terminators (snoc acc c).
Proof.
  intros Hacc Hc d Hd. unfold snoc in Hd. rewrite chars_append in Hd.
  apply List.in_app_or in Hd as [Hd|[<-|[]]]; auto.
Qed.

Lemma snoc_nonempty (acc : string) (c : ascii) : snoc acc c <> EmptyString.
Proof. unfold snoc. apply append_nonempty_r. discriminate. Qed.

Lemma match_from_shaped (s : string) : forall st,
  match st with
  | Outside => True
  | InBody acc => acc <> EmptyString /\ no_terminator acc
  | InTerm acc => sentence_shaped acc
  end ->
  forall m, In m (match_from st s) -> sentence_shaped m.
Proof.
  induction s as [|c s IH]; intros st Hst m Hm.
  - destruct st; cbn in Hm; try contradiction.
    destruct Hm as [<-|[]]. exact Hst.
  - cbn [match_from] in Hm. destruct (is_terminator c) eqn:Hc.
    + destruct st as [|acc|acc].
      * now apply (IH Outside).
      * apply (IH (InTerm (snoc acc c))); [|exact Hm].
        destruct Hst as [Hne Hno].
        exists acc, (String c EmptyString). split_and!; auto; try discriminate.
        intros d [<-|[]]. exact Hc.
      * apply (IH (InTerm (snoc acc c))); [|exact Hm].
        destruct Hst as (body & terms & -> & Hb & Hnb & Ht & Hat).
        exists body, (snoc terms c). split_and!; auto.
        -- unfold snoc. now rewrite append_assoc.
        -- apply snoc_nonempty.
        -- now apply all_terminators_snoc.
    + destruct st as [|acc|acc].
      * apply (IH (InBody (String c EmptyString))); [|exact Hm].
        split; [discriminate|]. intros d [<-|[]]. exact Hc.
      * apply (IH (InBody (snoc acc c))); [|exact Hm].
        destruct Hst as [Hne Hno]. split; [apply snoc_nonempty|].
        now apply no_terminator_snoc.
      * destruct Hm as [<-|Hm]; [exact Hst|].
        apply (IH (InBody (String c EmptyString))); [|exact Hm].
        split; [discriminate|]. intros d [<-|[]]. exact Hc.
Qed.

(** X7. Every match of the sentence pattern is a non-empty run of
    characters other than [.], [!], [?] followed by a non-empty run of
    such terminators: a sentence has no terminator inside. *)
Theorem matches_are_sentence_shaped (text m : string) (ms : list string) :
  match_sentences text = Some ms -> In m ms -> sentence_shaped m.
Proof.
  unfold match_sentences. intros Hms Hm.
  apply (match_from_shaped text Outside I).
  destruct (match_from Outside text); [discriminate|]. now injection Hms as <-.
Qed.

Lemma matches_are_sentence_shaped_witness : sentence_shaped " Dogs too?!".
Proof.
  apply (matches_are_sentence_shaped "Cats. Dogs too?! and" " Dogs too?!"
           ["Cats."; " Dogs too?!"]).
  - vm_compute. reflexivity.
  - right. left. reflexivity.
Defined.

(** ** More on cosine similarity *)

Lemma mul_comm (x y : Num.num) : (x * y)%num = (y * x)%num.
Proof.
  destruct x as [sx|sx| |sx mx ex], y as [sy|sy| |sy my ey]; cbn;
    rewrite ?(xorb_comm sx sy); try reflexivity.
  now rewrite (Pos.mul_comm mx my), (Z.add_comm ex ey).
Qed.

Lemma at_index_middle (pre : vec) (b : Num.num) (B : vec) :
  at_index (pre ++ b :: B)%list (length pre) = b.
Proof.
  unfold at_index, vec in *.
  now rewrite (list_lookup_middle pre B b (length pre) eq_refl).
Qed.

(** The dot product pairs the components position by position. *)
Lemma dot_from_zip (A : vec) : forall (B pre : vec) acc,
  length A <= length B ->
  reduce_from (fun sum a i => (sum + a * at_index (pre ++ B)%list i)%num)
              (length pre) A acc =
  fold_left (fun sum (p : Num.num * Num.num) => (sum + p.1 * p.2)%num) (zip A B) acc.
Proof.
  induction A as [|a A IH]; intros B pre acc Hlen; [reflexivity|].
  destruct B as [|b B]; [cbn in Hlen; lia|].
  cbn [reduce_from zip zip_with fold_left]. rewrite at_index_middle.
  replace (pre ++ b :: B)%list with ((pre ++ [b]) ++ B)%list
    by now rewrite <- List.app_assoc.
  replace (S (length pre)) with (length (pre ++ [b])%list)
    by (rewrite length_app; cbn; lia).
  apply IH. cbn in Hlen. lia.
Qed.

Lemma zip_fold_swap (A : vec) : forall (B : vec) acc,
  fold_left (fun sum (p : Num.num * Num.num) => (sum + p.1 * p.2)%num) (zip A B) acc =
  fold_left (fun sum (p : Num.num * Num.num) => (sum + p.1 * p.2)%num) (zip B A) acc.
Proof.
  induction A as [|a A IH]; intros [|b B] acc; try reflexivity.
  cbn [zip zip_with fold_left fst snd]. rewrite (mul_comm a b). apply IH.
Qed.

Lemma dot_comm (vecA vecB : vec) :
  length vecA = length vecB -> dot vecA vecB = dot vecB vecA.
Proof.
  intros Hlen. unfold dot, reduce.
  pose proof (dot_from_zip vecA vecB [] Num.zero) as HA.
  pose proof (dot_from_zip vecB vecA [] Num.zero) as HB.
  cbn [app length] in HA, HB.
  rewrite HA, HB by lia. apply zip_fold_swap.
Qed.

(** X8. Between vectors of the same dimension the similarity does not
    depend on which one is the anchor. *)
Theorem cosineSimilarity_comm (vecA vecB : vec) :
  length vecA = length vecB ->
  cosineSimilarity vecA vecB = cosineSimilarity vecB vecA.
Proof.
  intros Hlen. unfold cosineSimilarity.
  now rewrite (dot_comm vecA vecB Hlen), (mul_comm (magnitude vecA)).
Qed.

Lemma cosineSimilarity_comm_witness :
  cosineSimilarity [Num.of_Z 1; Num.of_Z 2] [Num.of_Z 3; Num.of_Z (-1)] =
  cosineSimilarity [Num.of_Z 3; Num.of_Z (-1)] [Num.of_Z 1; Num.of_Z 2].
Proof.
  apply (cosineSimilarity_comm [Num.of_Z 1; Num.of_Z 2] [Num.of_Z 3; Num.of_Z (-1)]).
  reflexivity.
Defined.

Lemma add_nan_l (x : Num.num) : (Num.nan + x)%num = Num.nan.
Proof. reflexivity. Qed.

Lemma add_nan_r (x : Num.num) : (x + Num.nan)%num = Num.nan.
Proof. now destruct x. Qed.

Lemma mul_nan_r (x : Num.num) : (x * Num.nan)%num = Num.nan.
Proof. now destruct x. Qed.

Lemma div_nan_l (x : Num.num) : (Num.nan / x)%num = Num.nan.
Proof. reflexivity. Qed.

Lemma dot_from_nan (vecB : vec) (A : vec) : forall i,
  reduce_from (fun sum a i => (sum + a * at_index vecB i)%num) i A Num.nan = Num.nan.
Proof. induction A as [|a A IH]; intros i; cbn; [reflexivity|apply IH]. Qed.

Lemma dot_from_short (vecB : vec) (A : vec) : forall i acc,
  i <= length vecB -> length vecB < i + length A ->
  reduce_from (fun sum a i => (sum + a * at_index vecB i)%num) i A acc = Num.nan.
Proof.
  induction A as [|a A IH]; intros i acc Hi Hlen; [cbn in Hlen; lia|].
  cbn [reduce_from].
  destruct (decide (i = length vecB)) as [->|Hne].
  - assert (at_index vecB (length vecB) = Num.nan) as ->.
    { unfold at_index, vec in *. now rewrite lookup_ge_None_2. }
    rewrite mul_nan_r, add_nan_r. apply dot_from_nan.
  - apply IH; cbn in Hlen; lia.
Qed.

(** X9. When the compared vector has fewer components than the anchor,
    the missing ones read as [undefined]: the similarity is NaN, and the
    test against any threshold fails. *)
Theorem cosineSimilarity_shorter_vector (vecA vecB : vec) (threshold : Num.num) :
  length vecB < length vecA ->
  cosineSimilarity vecA vecB = Num.nan /\
  Num.geb (cosineSimilarity vecA vecB) threshold = false.
Proof.
  intros Hlen.
  assert (cosineSimilarity vecA vecB = Num.nan) as Hnan.
  { unfold cosineSimilarity, dot, reduce.
    rewrite dot_from_short by lia. apply div_nan_l. }
  split; [exact Hnan|]. rewrite Hnan. apply geb_nan.
Qed.

Lemma cosineSimilarity_shorter_vector_witness :
  cosineSimilarity [Num.of_Z 1; Num.of_Z 2] [Num.of_Z 1] = Num.nan /\
  Num.geb (cosineSimilarity [Num.of_Z 1; Num.of_Z 2] [Num.of_Z 1]) three_quarters = false.
Proof.
  apply (cosineSimilarity_shorter_vector [Num.of_Z 1; Num.of_Z 2] [Num.of_Z 1]).
  cbn. lia.
Defined.

(** ** More on the chunking loop *)

(** The anchor after an iteration is the anchor before it or one of the
    vectors. *)
Lemma step_anchor threshold vecs i s st st' :
  step threshold vecs i s st = Ok st' ->
  currentVec st' = currentVec st \/ In (currentVec st') vecs.
Proof.
  unfold step. destruct (vecs !! i) as [v|] eqn:Hv; [|discriminate].
  destruct (Num.geb _ _); intros [= <-]; cbn; [now left|right].
  apply list_elem_of_In. eapply list_elem_of_lookup_2; eauto.
Qed.

Lemma chunk_from_short threshold vecs rest : forall i st,
  i <= length vecs -> length vecs < i + length rest ->
  exists anchor,
    (anchor = currentVec st \/ In anchor vecs) /\
    chunk_from threshold vecs i rest st = Throw (cosineSimilarity_undefined anchor).
Proof.
  induction rest as [|s rest IH]; intros i st Hi Hlen; [cbn in Hlen; lia|].
  cbn [chunk_from].
  destruct (decide (i = length vecs)) as [->|Hne].
  - exists (currentVec st). split; [now left|].
    unfold step. now rewrite lookup_ge_None_2.
  - destruct (step_total threshold vecs i s st) as [st' Hst]; [lia|]. rewrite Hst.
    destruct (IH (S i) st') as (anchor & Hin & Hrun); [lia|cbn in Hlen; lia|].
    exists anchor. split; [|exact Hrun].
    destruct Hin as [->|Hin]; [|now right].
    apply step_anchor in Hst. exact Hst.
Qed.

(** X10. When the embedding call answers with fewer vectors than there
    are sentences (a flat vector counts as one), the chunker returns no
    chunk at all: the comparison with the missing vector throws the
    [TypeError] of reading a property of [undefined], the property [0]
    (line 45) unless the anchor, one of the vectors, has no component,
    and then the property [reduce] (line 47). *)
Theorem chunkLoop_too_few_vectors threshold cleanSentences embeddings :
  length (vecs_of embeddings) < length cleanSentences ->
  exists anchor,
    In anchor (vecs_of embeddings) /\
    chunkLoop threshold cleanSentences embeddings =
    Throw (TypeError_reading (match anchor with [] => "reduce" | _ :: _ => "0" end)).
Proof.
  intros Hlen. unfold chunkLoop.
  pose proof (vecs_of_nonempty embeddings) as Hne.
  destruct cleanSentences as [|s0 rest]; [cbn in Hlen; lia|].
  destruct (vecs_of embeddings) as [|v0 vs]; [now elim Hne|].
  destruct (chunk_from_short threshold (v0 :: vs) rest 1 (Chunker [] s0 v0))
    as (anchor & Hin & Hrun); [cbn; lia|cbn in *; lia|].
  rewrite Hrun. exists anchor. split.
  - destruct Hin as [->|Hin]; [now left|exact Hin].
  - now destruct anchor.
Qed.

Lemma chunkLoop_too_few_vectors_witness :
  chunkLoop three_quarters ["Cats are mammals."; "Dogs are mammals too."]
            (Flat [Num.of_Z 1; Num.of_Z 0]) =
  Throw "Cannot read properties of undefined (reading '0')".
Proof.
  destruct (chunkLoop_too_few_vectors three_quarters
              ["Cats are mammals."; "Dogs are mammals too."]
              (Flat [Num.of_Z 1; Num.of_Z 0])) as (anchor & Hin & Hrun).
  - cbn. lia.
  - rewrite Hrun. destruct Hin as [<-|[]]. reflexivity.
Defined.

Lemma chunk_from_all_similar threshold vecs v0 rest : forall i cur,
  i + length rest <= length vecs ->
  (forall j v, i <= j -> vecs !! j = Some v ->
     Num.geb (cosineSimilarity v0 v) threshold = true) ->
  chunk_from threshold vecs i rest (Chunker [] cur v0) =
  Ok (Chunker [] (fold_left (fun c s => c ++ " " ++ s) rest cur) v0).
Proof.
  induction rest as [|s rest IH]; intros i cur Hlen Hsim; [reflexivity|].
  cbn [chunk_from fold_left].
  destruct (lookup_lt_is_Some_2 vecs i) as [v Hv]; [cbn in Hlen; lia|].
  rewrite (step_similar _ _ _ _ _ v Hv) by (apply (Hsim i); [lia|exact Hv]).
  cbn [chunks currentChunk currentVec].
  apply IH; [cbn in Hlen; lia|]. intros j v' Hj. apply Hsim. lia.
Qed.

Lemma join_fold (rest : list string) : forall s0,
  fold_left (fun c s => c ++ " " ++ s) rest s0 = join (s0 :: rest).
Proof.
  induction rest as [|s rest IH] using rev_ind; intros s0; [reflexivity|].
  rewrite fold_left_app. cbn [fold_left]. rewrite IH.
  change (s0 :: rest ++ [s])%list with ((s0 :: rest) ++ [s])%list.
  now rewrite join_snoc by discriminate.
Qed.

(** X11. When every later sentence is at least as similar to the first
    one as the threshold asks, the whole text is one chunk: the sentences
    joined by spaces. *)
Theorem chunkLoop_all_similar threshold s0 rest v0 vs :
  nonempty s0 ->
  length rest <= length vs ->
  Forall (fun v => Num.geb (cosineSimilarity v0 v) threshold = true) vs ->
  chunkLoop threshold (s0 :: rest) (Nested (v0 :: vs)) = Ok [join (s0 :: rest)].
Proof.
  intros Hs0 Hlen Hsim. unfold chunkLoop. cbn [vecs_of].
  rewrite (chunk_from_all_similar threshold (v0 :: vs) v0 rest 1 s0).
  - unfold finish. cbn [chunks currentChunk]. rewrite join_fold.
    rewrite is_empty_false; [reflexivity|].
    destruct rest as [|s rest]; [exact Hs0|].
    change (join (s0 :: s :: rest)) with (s0 ++ " " ++ join (s :: rest)).
    apply append_nonempty_r. discriminate.
  - cbn. lia.
  - intros [|j] v Hj Hv; [lia|]. cbn in Hv.
    eapply Forall_lookup_1 in Hsim; eauto.
Qed.

Lemma chunkLoop_all_similar_witness :
  chunkLoop (Num.of_Z 0) ["Cats are mammals."; "Dogs are mammals too."]
            (Nested [[Num.of_Z 1; Num.of_Z 0]; [Num.of_Z 1; Num.of_Z 1]]) =
  Ok [join ["Cats are mammals."; "Dogs are mammals too."]].
Proof.
  apply (chunkLoop_all_similar (Num.of_Z 0) "Cats are mammals."
           ["Dogs are mammals too."] [Num.of_Z 1; Num.of_Z 0]
           [[Num.of_Z 1; Num.of_Z 1]]).
  - discriminate.
  - cbn. lia.
  - repeat constructor.
Defined.

Lemma chunk_from_all_boundaries threshold vecs rest : forall i cs cur v,
  i + length rest <= length vecs ->
  Forall nonempty (cur :: rest) ->
  (forall a b, vecs !! i = Some b -> a = v ->
     Num.geb (cosineSimilarity a b) threshold = false) ->
  (forall j a b, i <= j -> vecs !! j = Some a -> vecs !! (S j) = Some b ->
     Num.geb (cosineSimilarity a b) threshold = false) ->
  exists st, chunk_from threshold vecs i rest (Chunker cs cur v) = Ok st /\
             finish st = (cs ++ cur :: rest)%list.
Proof.
  induction rest as [|s rest IH]; intros i cs cur v Hlen Hne Hfirst Hnext.
  - eexists. split; [reflexivity|]. unfold finish. cbn.
    rewrite is_empty_false; [reflexivity|]. now inversion Hne.
  - cbn [chunk_from].
    destruct (lookup_lt_is_Some_2 vecs i) as [b Hb]; [cbn in Hlen; lia|].
    rewrite (step_boundary _ _ _ _ _ b Hb) by (apply (Hfirst v b Hb eq_refl)).
    cbn [chunks currentChunk currentVec].
    destruct (IH (S i) (cs ++ [cur])%list s b) as (st & Hrun & Hfin).
    + cbn in Hlen. lia.
    + now inversion Hne.
    + intros a b' Hb' ->. apply (Hnext i b b'); auto.
    + intros j a b' Hj. apply Hnext. lia.
    + exists st. split; [exact Hrun|]. rewrite Hfin. now rewrite <- List.app_assoc.
Qed.

(** X12. When no sentence is similar enough to the one before it, every
    sentence is a chunk of its own: the chunks are the sentences. *)
Theorem chunkLoop_all_boundaries threshold cleanSentences vs :
  Forall nonempty cleanSentences ->
  length cleanSentences <= length vs ->
  (forall j a b, vs !! j = Some a -> vs !! (S j) = Some b ->
     Num.geb (cosineSimilarity a b) threshold = false) ->
  chunkLoop threshold cleanSentences (Nested vs) = Ok cleanSentences.
Proof.
  intros Hne Hlen Hsim. unfold chunkLoop.
  destruct cleanSentences as [|s0 rest]; [reflexivity|].
  destruct vs as [|v0 vs]; [cbn in Hlen; lia|]. cbn [vecs_of].
  destruct (chunk_from_all_boundaries threshold (v0 :: vs) rest 1 [] s0 v0)
    as (st & -> & Hfin).
  - cbn in *. lia.
  - exact Hne.
  - intros a b Hb ->. apply (Hsim 0 v0 b); auto.
  - intros j a b _. apply Hsim.
  - now rewrite Hfin.
Qed.

Lemma chunkLoop_all_boundaries_witness :
  chunkLoop three_quarters ["Cats are mammals."; "The market crashed."]
            (Nested [[Num.of_Z 1; Num.of_Z 0]; [Num.of_Z 0; Num.of_Z 1]]) =
  Ok ["Cats are mammals."; "The market crashed."].
Proof.
  apply (chunkLoop_all_boundaries three_quarters
           ["Cats are mammals."; "The market crashed."]
           [[Num.of_Z 1; Num.of_Z 0]; [Num.of_Z 0; Num.of_Z 1]]).
  - repeat constructor; discriminate.
  - cbn. lia.
  - intros [|[|j]] a b Ha Hb; cbn in Ha, Hb; try discriminate.
    injection Ha as <-. injection Hb as <-. vm_compute. reflexivity.
Defined.

Lemma space_is_no_terminator (c : ascii) : is_space c = true -> is_terminator c = false.
Proof.
  destruct c as [[] [] [] [] [] [] [] []]; cbn; intros H; try discriminate H; reflexivity.
Qed.

Lemma trimStart_blank (text : string) : blank text -> trimStart text = EmptyString.
Proof.
  induction text as [|c text IH]; intros Hb; [reflexivity|].
  cbn [trimStart]. rewrite (Hb c) by (cbn; auto).
  apply IH. intros d Hd. apply Hb. cbn. auto.
Qed.

Lemma segment_blank (text : string) : blank text -> segment text = [].
Proof.
  intros Hb. unfold segment, match_sentences.
  rewrite match_from_no_terminator; auto.
  - cbn. unfold trim. now rewrite trimStart_blank.
  - intros c Hc. apply space_is_no_terminator. now apply Hb.
Qed.

(** X13. A text of white space only (an empty file included) has no
    sentence: [semanticChunking] returns no chunk and makes no call, in
    the first listing and in the third. *)
Theorem semanticChunking_blank E text threshold w :
  blank text ->
  V1.semanticChunking E text threshold w = (Ok [], w) /\
  V3.semanticChunking E text threshold w = (Ok [], w).
Proof.
  intros Hb. unfold V1.semanticChunking, V3.semanticChunking.
  rewrite (segment_blank text Hb). split; reflexivity.
Qed.

Lemma semanticChunking_blank_witness :
  V1.semanticChunking env_up "   " three_quarters boot = (Ok [], boot) /\
  V3.semanticChunking env_up "   " three_quarters boot = (Ok [], boot).
Proof.
  apply (semanticChunking_blank env_up "   " three_quarters boot).
  intros c Hc. cbn in Hc.
  repeat (destruct Hc as [<-|Hc]; [reflexivity|]). destruct Hc.
Defined.

(** ** Frames: what a computation leaves as it was *)

Section Frame.

Variable E : env.
Variable R : world -> world -> Prop.

Hypothesis R_refl : forall w, R w w.
Hypothesis R_trans : forall w1 w2 w3, R w1 w2 -> R w2 w3 -> R w1 w3.
Hypothesis R_trace : forall t w, R w (with_trace t w).
Hypothesis R_stdout : forall o w, R w (with_stdout o w).
Hypothesis R_stderr : forall o w, R w (with_stderr o w).
Hypothesis R_console : forall l w, R w (with_console_log l w).
Hypothesis R_ticks : forall n w, R w (with_ticks n w).
Hypothesis R_unlink : forall p w, R w (with_files (delete p (files w)) w).
Hypothesis R_created : forall name w, R w (created name w).
Hypothesis R_upsert : forall name rs w,
  R w (with_store (<[name := upsert_all rs (default ∅ (store w !! name))]> (store w)) w).

Lemma fr_ret {A} (a : A) : frames R (mret a).
Proof. now apply respects_ret. Qed.

Lemma fr_throw {A} (e : exn) : frames R (@throw A e).
Proof. now apply respects_throw. Qed.

Lemma fr_lift {A} (r : result A) : frames R (lift r).
Proof. now apply respects_lift. Qed.

Lemma fr_get : frames R get.
Proof. now apply respects_get. Qed.

Lemma fr_seq {A B} (m : M A) (f : A -> M B) :
  frames R m -> (forall a, frames R (f a)) -> frames R (m ≫= f).
Proof. now apply respects_seq. Qed.

Lemma fr_try_catch {A} (body : M A) (handler : exn -> M A) :
  frames R body -> (forall e, frames R (handler e)) -> frames R (try_catch body handler).
Proof. now apply respects_try_catch. Qed.

Lemma fr_foldM {A B} (f : B -> A -> M B) (l : list A) :
  (forall acc a, frames R (f acc a)) -> forall acc, frames R (foldM f acc l).
Proof.
  intros Hf acc.
  apply (respects_foldM R R_refl R_trans (fun _ => True)); [|exact I].
  intros acc' a _. apply Hf.
Qed.

Lemma fr_emit ev : frames R (emit ev).
Proof. apply respects_modify. intros w. apply R_trace. Qed.

Lemma fr_log msg : frames R (log msg).
Proof.
  apply respects_modify. intros w. destruct (console_log w); [apply R_stdout|apply R_refl].
Qed.

Lemma fr_log_error msg : frames R (log_error msg).
Proof. apply respects_modify. intros w. apply R_stderr. Qed.

Lemma fr_hf_settle inputs : frames R (hf_settle E inputs).
Proof.
  apply fr_seq; [|intros _; apply fr_lift].
  apply fr_foldM. intros acc line. apply fr_log.
Qed.

Lemma fr_hf inputs : frames R (hf_featureExtraction E inputs).
Proof. apply fr_seq; [apply fr_emit|]. intros _. apply fr_hf_settle. Qed.

Lemma fr_getOrCreateCollection name : frames R (getOrCreateCollection E name).
Proof.
  apply fr_seq; [apply fr_emit|]. intros _.
  destruct (store_fault E _); [apply fr_throw|].
  apply fr_seq; [|intros _; apply fr_ret].
  apply respects_modify. intros w. apply (R_created name w).
Qed.

Lemma fr_upsert name rs : frames R (collection_upsert E name rs).
Proof.
  apply fr_seq; [apply fr_emit|]. intros _.
  destruct (store_fault E _); [apply fr_throw|].
  apply respects_modify. intros w. apply R_upsert.
Qed.

Lemma fr_query name qe n where_ : frames R (collection_query E name qe n where_).
Proof.
  apply fr_seq; [apply fr_emit|]. intros _.
  destruct (store_fault E _); [apply fr_throw|].
  apply fr_seq; [apply fr_get|]. intros w. apply fr_ret.
Qed.

Lemma fr_generate prompt : frames R (llm_generateContent E prompt).
Proof. apply fr_seq; [apply fr_emit|]. intros _. apply fr_lift. Qed.

Lemma fr_readFileSync p : frames R (readFileSync p).
Proof.
  apply fr_seq; [apply fr_emit|]. intros _.
  apply fr_seq; [apply fr_get|]. intros w.
  destruct (files w !! p); [apply fr_ret|apply fr_throw].
Qed.

Lemma fr_unlinkSync p : frames R (unlinkSync p).
Proof.
  apply fr_seq; [apply fr_emit|]. intros _.
  apply fr_seq; [apply fr_get|]. intros w.
  destruct (files w !! p); [|apply fr_throw].
  apply respects_modify. intros w'. apply R_unlink.
Qed.

Lemma fr_Date_now : frames R (Date_now E).
Proof.
  apply fr_seq; [apply fr_get|]. intros w.
  apply fr_seq; [|intros _; apply fr_ret].
  apply respects_modify. intros w'. apply R_ticks.
Qed.

Lemma fr_V1_getEmbeddings texts : frames R (V1.getEmbeddings E texts).
Proof.
  apply fr_seq.
  - apply fr_seq; [apply fr_get|]. intros w.
    apply fr_seq; [apply respects_modify; intros w'; apply R_console|]. intros _.
    apply fr_seq; [apply fr_emit|]. intros _. apply fr_ret.
  - intros originalLog.
    apply fr_seq; [apply fr_hf_settle|]. intros resp.
    apply fr_seq; [apply respects_modify; intros w'; apply R_console|]. intros _.
    apply fr_ret.
Qed.

Lemma fr_V3_getEmbeddings texts : frames R (V3.getEmbeddings E texts).
Proof.
  apply fr_try_catch.
  - apply fr_seq; [apply fr_hf|]. intros resp. apply fr_ret.
  - intros e. apply fr_seq; [apply fr_log_error|]. intros _. apply fr_throw.
Qed.

Lemma fr_V1_semanticChunking text threshold :
  frames R (V1.semanticChunking E text threshold).
Proof.
  unfold V1.semanticChunking, V1.chunk_sentences.
  destruct (segment text) as [|s0 rest]; [apply fr_ret|].
  apply fr_seq; [apply fr_log|]. intros _.
  apply fr_seq; [apply fr_V1_getEmbeddings|]. intros resp. apply fr_lift.
Qed.

Lemma fr_V3_semanticChunking text threshold :
  frames R (V3.semanticChunking E text threshold).
Proof.
  unfold V3.semanticChunking, V3.chunk_sentences.
  destruct (segment text) as [|s0 rest]; [apply fr_ret|].
  apply fr_seq; [apply fr_V3_getEmbeddings|]. intros resp. apply fr_lift.
Qed.

Lemma fr_V1_ingest_file ctx allChunks f : frames R (V1.ingest_file E ctx allChunks f).
Proof.
  apply fr_seq; [apply fr_readFileSync|]. intros text.
  apply fr_seq; [apply fr_V1_semanticChunking|]. intros chunks.
  apply fr_seq; [apply fr_unlinkSync|]. intros _. apply fr_ret.
Qed.

Lemma fr_V3_ingest_file ctx allChunks f : frames R (V3.ingest_file E ctx allChunks f).
Proof.
  apply fr_seq; [apply fr_readFileSync|]. intros text.
  apply fr_seq; [apply fr_V3_semanticChunking|]. intros chunks.
  apply fr_seq; [apply fr_unlinkSync|]. intros _. apply fr_ret.
Qed.

Lemma fr_V3_ids_from ctx allChunks : forall i, frames R (V3.ids_from E ctx i allChunks).
Proof.
  induction allChunks as [|c rest IH]; intros i; cbn [V3.ids_from].
  - apply fr_ret.
  - apply fr_seq; [apply fr_Date_now|]. intros now.
    apply fr_seq; [apply IH|]. intros ids. apply fr_ret.
Qed.

Lemma fr_V1_post_index req : frames R (V1.post_index E req).
Proof.
  unfold V1.post_index. apply fr_try_catch.
  - destruct (req_files req) as [[|f fs]|]; try apply fr_ret.
    apply fr_seq; [apply fr_getOrCreateCollection|]. intros collection.
    apply fr_seq; [apply fr_foldM; intros; apply fr_V1_ingest_file|]. intros allChunks.
    apply fr_seq; [apply fr_V1_getEmbeddings|]. intros embeddings.
    apply fr_seq; [apply fr_upsert|]. intros _.
    apply fr_seq; [apply fr_log|]. intros _. apply fr_ret.
  - intros e. apply fr_seq; [apply fr_log_error|]. intros _. apply fr_ret.
Qed.

Lemma fr_V3_post_upload req : frames R (V3.post_upload E req).
Proof.
  unfold V3.post_upload. apply fr_try_catch.
  - destruct (req_files req) as [[|f fs]|]; try apply fr_ret.
    apply fr_seq; [apply fr_getOrCreateCollection|]. intros collection.
    apply fr_seq; [apply fr_foldM; intros; apply fr_V3_ingest_file|]. intros allChunks.
    apply fr_seq; [apply fr_V3_getEmbeddings|]. intros embeddings.
    apply fr_seq; [apply fr_V3_ids_from|]. intros ids.
    apply fr_seq; [apply fr_upsert|]. intros _. apply fr_ret.
  - intros e. apply fr_seq; [apply fr_log_error|]. intros _. apply fr_ret.
Qed.

Lemma fr_V1_post_query req : frames R (V1.post_query E req).
Proof.
  unfold V1.post_query. apply fr_try_catch.
  - destruct (req_body req) as [b|]; [|apply fr_throw].
    destruct (negb (truthy (q_of b))); [apply fr_ret|].
    apply fr_seq; [apply fr_V1_getEmbeddings|]. intros embeddings.
    apply fr_seq; [apply fr_getOrCreateCollection|]. intros collection.
    apply fr_seq; [apply fr_query|]. intros result.
    apply fr_seq; [apply fr_generate|]. intros answer.
    apply fr_seq; [apply fr_log|]. intros _. apply fr_ret.
  - intros e. apply fr_seq; [apply fr_log_error|]. intros _. apply fr_ret.
Qed.

Lemma fr_V3_post_chat req : frames R (V3.post_chat E req).
Proof.
  unfold V3.post_chat. apply fr_try_catch.
  - destruct (req_body req) as [b|]; [|apply fr_throw].
    destruct (negb (truthy (q_of b))); [apply fr_ret|].
    apply fr_seq; [apply fr_V3_getEmbeddings|]. intros embeddings.
    apply fr_seq; [apply fr_getOrCreateCollection|]. intros collection.
    apply fr_seq; [apply fr_query|]. intros [|r result]; [apply fr_ret|].
    apply fr_seq; [apply fr_generate|]. intros answer. apply fr_ret.
  - intros e. apply fr_seq; [apply fr_log_error|]. intros _. apply fr_ret.
Qed.

End Frame.

Lemma same_records_refl w : same_records w w.
Proof. intros name. reflexivity. Qed.

Lemma same_records_trans w1 w2 w3 :
  same_records w1 w2 -> same_records w2 w3 -> same_records w1 w3.
Proof. intros H12 H23 name. now rewrite H23, H12. Qed.

Lemma same_records_created name w : same_records w (created name w).
Proof.
  intros name'. unfold created.
  destruct (store w !! name) eqn:Hs; [reflexivity|].
  cbn. destruct (decide (name = name')) as [<-|Hne].
  - now rewrite lookup_insert_eq, Hs.
  - now rewrite lookup_insert_ne.
Qed.

Lemma read_only_same_store w w' :
  files w' = files w -> store w' = store w -> read_only w w'.
Proof. intros Hf Hs. split; [exact Hf|]. intros name. now rewrite Hs. Qed.

Lemma read_only_created name w : read_only w (created name w).
Proof.
  split; [|apply same_records_created].
  unfold created. now destruct (store w !! name).
Qed.

Lemma read_only_refl w : read_only w w.
Proof. split; [reflexivity|apply same_records_refl]. Qed.

Lemma read_only_trans w1 w2 w3 : read_only w1 w2 -> read_only w2 w3 -> read_only w1 w3.
Proof.
  intros [Hf12 Hr12] [Hf23 Hr23]. split; [congruence|].
  eapply same_records_trans; eauto.
Qed.

(** X17. A query writes nothing: whatever [POST /query] or [POST /chat]
    is asked and however it ends, the staged files are the same and every
    collection holds the same records. *)
Theorem queries_are_read_only (E : env) (req : query_request) (w : world) :
  read_only w (V1.post_query E req w).2 /\
  read_only w (V3.post_chat E req w).2.
Proof.
  split.
  - apply (fr_V1_post_query E read_only read_only_refl read_only_trans);
      try (intros; apply read_only_same_store; reflexivity).
    apply read_only_created.
  - apply (fr_V3_post_chat E read_only read_only_refl read_only_trans);
      try (intros; apply read_only_same_store; reflexivity).
    apply read_only_created.
Qed.

(** ** How the handlers answer *)

(** X14. A query without a usable [q] makes no call.  When the body has
    no [q], a [null] one or the empty string, [POST /query] and
    [POST /chat] answer 400 and leave the world as it was.  When the
    request has no body at all, destructuring [req.body] (lines 143 and
    489) throws inside the [try]: the answer is 500 with the message of
    that [TypeError], one line is written on standard error, and nothing
    else has changed. *)
Theorem query_without_q_is_rejected E req w :
  (forall b, req_body req = Some b -> truthy (q_of b) = false ->
     V1.post_query E req w = (Ok (Response 400 (ErrorBody "Missing query")), w) /\
     V3.post_chat E req w = (Ok (Response 400 (ErrorBody "Missing query")), w)) /\
  (req_body req = None ->
     let msg := "Cannot destructure property 'q' of 'req.body' as it is undefined." in
     exists line1 line3,
       V1.post_query E req w =
         (Ok (Response 500 (ErrorBody msg)), with_stderr (stderr w ++ [line1]) w) /\
       V3.post_chat E req w =
         (Ok (Response 500 (ErrorBody msg)), with_stderr (stderr w ++ [line3]) w)).
Proof.
  split.
  - intros b Hb Hq. unfold V1.post_query, V3.post_chat, try_catch.
    rewrite Hb, Hq. split; reflexivity.
  - intros Hb msg. unfold V1.post_query, V3.post_chat, try_catch.
    rewrite Hb. do 2 eexists. split; reflexivity.
Qed.

Lemma query_without_q_is_rejected_witness :
  let empty_q := QueryRequest (Some (QueryBody (Some EmptyString) (Some 3) (Some "A"))) in
  let no_body := QueryRequest None in
  let msg := "Cannot destructure property 'q' of 'req.body' as it is undefined." in
  (V1.post_query env_up empty_q boot =
     (Ok (Response 400 (ErrorBody "Missing query")), boot) /\
   V3.post_chat env_up empty_q boot =
     (Ok (Response 400 (ErrorBody "Missing query")), boot)) /\
  (exists line1 line3,
     V1.post_query env_up no_body boot =
       (Ok (Response 500 (ErrorBody msg)), with_stderr (stderr boot ++ [line1]) boot) /\
     V3.post_chat env_up no_body boot =
       (Ok (Response 500 (ErrorBody msg)), with_stderr (stderr boot ++ [line3]) boot)).
Proof.
  intros empty_q no_body msg. split.
  - apply (proj1 (query_without_q_is_rejected env_up empty_q boot)
             (QueryBody (Some EmptyString) (Some 3) (Some "A"))); reflexivity.
  - apply (proj2 (query_without_q_is_rejected env_up no_body boot)). reflexivity.
Defined.

Lemma then_200 {A} (m : M A) (f : A -> M response) :
  (forall a, returns_200 (f a)) -> returns_200 (m ≫= f).
Proof.
  intros Hf. apply (respects_bind _ (fun _ _ _ _ _ => I) (fun _ => True)).
  - intros w. split; auto.
  - intros a _. apply Hf.
Qed.

Lemma ret_200 (b : body) : returns_200 (mret (Response 200 b)).
Proof. now apply respects_ret. Qed.

Lemma returns_200_ok (m : M response) w resp w' :
  returns_200 m -> m w = (Ok resp, w') -> status resp = 200.
Proof. intros Hm Hrun. apply (proj2 (Hm w)). now rewrite Hrun. Qed.

(** ** No partial write *)

Lemma frames_run {A} (R : world -> world -> Prop) (m : M A) w r w' :
  frames R m -> m w = (r, w') -> R w w'.
Proof. intros Hm Hrun. pose proof (proj1 (Hm w)) as H. now rewrite Hrun in H. Qed.

Lemma on_throw_bind {A B} (R : world -> world -> Prop) (m : M A) (f : A -> M B) :
  (forall w1 w2 w3, R w1 w2 -> R w2 w3 -> R w1 w3) ->
  frames R m -> (forall a, on_throw R (f a)) -> on_throw R (m ≫= f).
Proof.
  intros Htrans Hm Hf w e w' Hrun.
  apply bind_inv_throw in Hrun as [Hrun|(a & w1 & Hrun & Hrest)].
  - eapply frames_run; eauto.
  - eapply Htrans; [eapply frames_run; eauto|]. eapply Hf; eauto.
Qed.

Lemma same_records_same_store w w' : store w' = store w -> same_records w w'.
Proof. intros Hs name. now rewrite Hs. Qed.

(** An upsert that rejects has written nothing, and nothing after the
    upsert can fail. *)
Lemma on_throw_upsert {B} E name rs (k : unit -> M B) :
  (forall u w, exists b w', k u w = (Ok b, w')) ->
  on_throw same_records (collection_upsert E name rs ≫= k).
Proof.
  intros Hk w e w' Hrun.
  apply bind_inv_throw in Hrun as [Hrun|(u & w1 & _ & Hrest)].
  - unfold collection_upsert, mbind, M_bind in Hrun. cbn in Hrun.
    destruct (store_fault E _); [|discriminate].
    injection Hrun as _ <-. now apply same_records_same_store.
  - destruct (Hk u w1) as (b & w2 & Hok). congruence.
Qed.

Section Records.

Variable E : env.

Lemma sr_getOrCreateCollection name :
  frames same_records (getOrCreateCollection E name).
Proof.
  apply (fr_getOrCreateCollection E same_records same_records_refl same_records_trans).
  - intros; now apply same_records_same_store.
  - apply same_records_created.
Qed.

Lemma sr_V1_getEmbeddings texts : frames same_records (V1.getEmbeddings E texts).
Proof.
  apply (fr_V1_getEmbeddings E same_records same_records_refl same_records_trans);
    intros; now apply same_records_same_store.
Qed.

Lemma sr_V3_getEmbeddings texts : frames same_records (V3.getEmbeddings E texts).
Proof.
  apply (fr_V3_getEmbeddings E same_records same_records_refl same_records_trans);
    intros; now apply same_records_same_store.
Qed.

Lemma sr_V1_files ctx fs acc :
  frames same_records (foldM (V1.ingest_file E ctx) acc fs).
Proof.
  apply (fr_foldM same_records same_records_refl same_records_trans). intros acc' f.
  apply (fr_V1_ingest_file E same_records same_records_refl same_records_trans);
    intros; now apply same_records_same_store.
Qed.

Lemma sr_V3_files ctx fs acc :
  frames same_records (foldM (V3.ingest_file E ctx) acc fs).
Proof.
  apply (fr_foldM same_records same_records_refl same_records_trans). intros acc' f.
  apply (fr_V3_ingest_file E same_records same_records_refl same_records_trans);
    intros; now apply same_records_same_store.
Qed.

Lemma sr_V3_ids ctx allChunks : frames same_records (V3.ids_of E ctx allChunks).
Proof.
  apply (fr_V3_ids_from E same_records same_records_refl same_records_trans);
    intros; now apply same_records_same_store.
Qed.

(** X16. An ingestion that does not answer 200 has written no record:
    after [POST /index] or [POST /upload] with any other status, every
    collection holds the records it held before the request. *)
Theorem failed_ingestion_writes_nothing req w resp w' :
  status resp <> 200 ->
  (V1.post_index E req w = (Ok resp, w') -> same_records w w') /\
  (V3.post_upload E req w = (Ok resp, w') -> same_records w w').
Proof.
  intros Hstatus. split.
  - unfold V1.post_index, try_catch.
    destruct (req_files req) as [[|f fs]|];
      try (intros [= _ <-]; apply same_records_refl).
    match goal with |- (match ?body w with _ => _ end) = _ -> _ =>
      destruct (body w) as [[r|e] w1] eqn:Hbody end.
    + intros [= -> _]. elim Hstatus. revert Hbody. apply returns_200_ok.
      do 5 (apply then_200; intros ?). apply ret_200.
    + intros [= _ <-].
      apply (same_records_trans w w1); [|now apply same_records_same_store].
      revert Hbody. apply on_throw_bind;
        [apply same_records_trans|apply sr_getOrCreateCollection|]. intros collection.
      apply on_throw_bind; [apply same_records_trans|apply sr_V1_files|]. intros allChunks.
      apply on_throw_bind; [apply same_records_trans|apply sr_V1_getEmbeddings|].
      intros embeddings. apply on_throw_upsert. intros u w0. eauto.
  - unfold V3.post_upload, try_catch.
    destruct (req_files req) as [[|f fs]|];
      try (intros [= _ <-]; apply same_records_refl).
    match goal with |- (match ?body w with _ => _ end) = _ -> _ =>
      destruct (body w) as [[r|e] w1] eqn:Hbody end.
    + intros [= -> _]. elim Hstatus. revert Hbody. apply returns_200_ok.
      do 5 (apply then_200; intros ?). apply ret_200.
    + intros [= _ <-].
      apply (same_records_trans w w1); [|now apply same_records_same_store].
      revert Hbody. apply on_throw_bind;
        [apply same_records_trans|apply sr_getOrCreateCollection|]. intros collection.
      apply on_throw_bind; [apply same_records_trans|apply sr_V3_files|]. intros allChunks.
      apply on_throw_bind; [apply same_records_trans|apply sr_V3_getEmbeddings|].
      intros embeddings.
      apply on_throw_bind; [apply same_records_trans|apply sr_V3_ids|]. intros ids.
      apply on_throw_upsert. intros u w0. eauto.
Qed.

End Records.

Lemma failed_ingestion_writes_nothing_witness :
  same_records staged_a (V1.post_index env_hf_down upload_a staged_a).2.
Proof.
  refine (proj1 (failed_ingestion_writes_nothing env_hf_down upload_a staged_a
            (Response 500 (ErrorBody "Invalid credentials in Authorization header"))
            _ _) _).
  - cbn. lia.
  - vm_compute. reflexivity.
Defined.

(** ** Ids within one call *)

Lemma NoDup_lookup_inj {A} (l : list A) :
  (forall i j a, l !! i = Some a -> l !! j = Some a -> i = j) -> NoDup l.
Proof. intros H. now apply NoDup_alt. Qed.

Lemma V1_ids_of_length context (allChunks : list chunk) :
  length (V1.ids_of context allChunks) = length allChunks.
Proof. apply mapi_from_length. Qed.

Lemma V1_ids_NoDup context (allChunks : list chunk) :
  NoDup (V1.ids_of context allChunks).
Proof.
  apply NoDup_lookup_inj. intros i j a Hi Hj.
  pose proof (lookup_lt_Some _ _ _ Hi) as Hli.
  pose proof (lookup_lt_Some _ _ _ Hj) as Hlj.
  rewrite V1_ids_of_length in Hli, Hlj.
  rewrite V1_ids_of_lookup in Hi, Hj by assumption.
  rewrite <- Hj in Hi. injection Hi as Hi.
  apply (inj (String.append context)) in Hi.
  apply (inj (String.append "-")) in Hi.
  now apply show_nat_inj.
Qed.

Lemma V3_ids_run E context (allChunks : list chunk) w :
  exists ids,
    V3.ids_of E context allChunks w =
      (Ok ids, with_ticks (ticks w + length allChunks) w) /\
    length ids = length allChunks /\ NoDup ids.
Proof.
  destruct (V3_ids_from_spec E context allChunks 0 w) as (ids & Hrun & Hlen & Hat).
  exists ids. split_and!; [exact Hrun|exact Hlen|].
  apply NoDup_lookup_inj. intros i j a Hi Hj.
  pose proof (lookup_lt_Some _ _ _ Hi) as Hli.
  pose proof (lookup_lt_Some _ _ _ Hj) as Hlj.
  rewrite Hlen in Hli, Hlj.
  rewrite Hat in Hi, Hj by assumption.
  rewrite <- Hj in Hi. injection Hi as Hi.
  apply upload_id_inj in Hi as [_ Hi]. lia.
Qed.

(** X19. The ids one ingestion call builds are pairwise distinct, one per
    chunk, whatever the context, the chunks and the clock: no record of a
    call overwrites another record of the same call. *)
Theorem ids_within_one_call_distinct E context (allChunks : list chunk) w :
  (NoDup (V1.ids_of context allChunks) /\
   length (V1.ids_of context allChunks) = length allChunks) /\
  exists ids w',
    V3.ids_of E context allChunks w = (Ok ids, w') /\
    NoDup ids /\ length ids = length allChunks.
Proof.
  split; [split; [apply V1_ids_NoDup|apply V1_ids_of_length]|].
  destruct (V3_ids_run E context allChunks w) as (ids & Hrun & Hlen & Hnd).
  eauto 6.
Qed.

(** ** What a successful ingestion has written *)

Lemma upsert_all_cons ir rs (coll : gmap string record) :
  upsert_all (ir :: rs) coll = upsert_all rs (<[ir.1 := ir.2]> coll).
Proof. reflexivity. Qed.

Lemma upsert_all_other rs : forall (coll : gmap string record) id,
  id ∉ rs.*1 -> upsert_all rs coll !! id = coll !! id.
Proof.
  induction rs as [|[i x] rs IH]; intros coll id Hid; [reflexivity|].
  rewrite upsert_all_cons. cbn in Hid. apply not_elem_of_cons in Hid as [Hne Hid].
  rewrite IH by exact Hid. cbn. now apply lookup_insert_ne.
Qed.

(** With pairwise distinct ids, every record of the batch is in the
    collection afterwards. *)
Lemma upsert_all_lookup rs : forall (coll : gmap string record) id r,
  NoDup rs.*1 -> (id, r) ∈ rs -> upsert_all rs coll !! id = Some r.
Proof.
  induction rs as [|[i x] rs IH]; intros coll id r Hnd Hin.
  - now apply elem_of_nil in Hin.
  - rewrite upsert_all_cons. cbn in Hnd. apply NoDup_cons in Hnd as [Hi Hnd].
    apply elem_of_cons in Hin as [[= -> ->]|Hin].
    + rewrite upsert_all_other by exact Hi. cbn. apply lookup_insert_eq.
    + now apply IH.
Qed.

Lemma collection_upsert_ok E name rs w u w' :
  collection_upsert E name rs w = (Ok u, w') ->
  w' = with_store (<[name := upsert_all rs (default ∅ (store w !! name))]> (store w))
         (traced (Upsert name rs) w).
Proof.
  unfold collection_upsert, mbind, M_bind. cbn.
  destruct (store_fault E _); [discriminate|]. now intros [= _ <-].
Qed.

Lemma collection_upsert_stored E name rs w u w' id r :
  collection_upsert E name rs w = (Ok u, w') ->
  NoDup rs.*1 -> (id, r) ∈ rs -> stored name id w' = Some r.
Proof.
  intros Hrun Hnd Hin. apply collection_upsert_ok in Hrun as ->.
  unfold stored. cbn. rewrite lookup_insert_eq. cbn.
  now apply upsert_all_lookup.
Qed.

Lemma collection_upsert_last E name rs w u w' :
  collection_upsert E name rs w = (Ok u, w') ->
  last (trace w') = Some (Upsert name rs).
Proof. intros Hrun. apply collection_upsert_ok in Hrun as ->. cbn. apply last_snoc. Qed.

Lemma zip_ids_fst (ids : list string) (recs : list record) :
  length ids = length recs -> (zip ids recs).*1 = ids.
Proof. intros H. apply fst_zip. lia. Qed.

Lemma zip_ids_length (ids : list string) (recs : list record) :
  length ids = length recs -> length (zip ids recs) = length recs.
Proof. intros H. rewrite length_zip. lia. Qed.

Lemma mapi_length {A B} (f : A -> nat -> B) (l : list A) : length (mapi f l) = length l.
Proof. apply mapi_from_length. Qed.

(** What a 200 answer of an ingestion handler tells about the run. *)
Lemma ingestion_200_inv E req w b w' :
  V1.post_index E req w = (Ok (Response 200 b), w') \/
  V3.post_upload E req w = (Ok (Response 200 b), w') ->
  exists rs,
    last (trace w') = Some (Upsert COLLECTION rs) /\
    reports b (length rs) /\
    NoDup rs.*1 /\
    forall id r, (id, r) ∈ rs -> stored COLLECTION id w' = Some r.
Proof.
  intros [Hrun|Hrun].
  - unfold V1.post_index, try_catch in Hrun.
    destruct (req_files req) as [[|f fs]|]; try discriminate.
    match type of Hrun with (match ?body w with _ => _ end) = _ =>
      destruct (body w) as [[resp|e] w1] eqn:Hbody end; [|discriminate].
    injection Hrun as -> ->.
    apply bind_inv_ok in Hbody as (collection & wa & Hgoc & Hbody).
    assert (collection = COLLECTION) as ->.
    { unfold getOrCreateCollection, mbind, M_bind in Hgoc. cbn in Hgoc.
      destruct (store_fault E _); [discriminate|]. now injection Hgoc. }
    apply bind_inv_ok in Hbody as (allChunks & wb & _ & Hbody).
    apply bind_inv_ok in Hbody as (embeddings & wc & _ & Hbody).
    apply bind_inv_ok in Hbody as (u & wd & Hup & Hbody).
    apply bind_inv_ok in Hbody as (u' & we & Hlog & Hbody).
    injection Hbody as <- <-.
    match type of Hup with collection_upsert _ _ (zip ?ids ?recs) _ = _ =>
      assert (length ids = length recs) as Hlen
        by (now rewrite V1_ids_of_length, mapi_length);
      assert (length recs = length allChunks) as Hrecs by apply mapi_length;
      exists (zip ids recs) end.
    assert (trace we = trace wd /\ store we = store wd) as [Ht Hs].
    { unfold log, modify in Hlog. apply (f_equal snd) in Hlog. cbn in Hlog.
      subst we. now destruct wd as [? ? [] ? ? ? ?]. }
    split_and!.
    + rewrite Ht. eapply collection_upsert_last; eauto.
    + rewrite zip_ids_length, Hrecs by exact Hlen. now exists ".".
    + rewrite zip_ids_fst by exact Hlen. apply V1_ids_NoDup.
    + intros id r Hin. unfold stored. rewrite Hs.
      eapply collection_upsert_stored; eauto.
      rewrite zip_ids_fst by exact Hlen. apply V1_ids_NoDup.
  - unfold V3.post_upload, try_catch in Hrun.
    destruct (req_files req) as [[|f fs]|]; try discriminate.
    match type of Hrun with (match ?body w with _ => _ end) = _ =>
      destruct (body w) as [[resp|e] w1] eqn:Hbody end; [|discriminate].
    injection Hrun as -> ->.
    apply bind_inv_ok in Hbody as (collection & wa & Hgoc & Hbody).
    assert (collection = COLLECTION) as ->.
    { unfold getOrCreateCollection, mbind, M_bind in Hgoc. cbn in Hgoc.
      destruct (store_fault E _); [discriminate|]. now injection Hgoc. }
    apply bind_inv_ok in Hbody as (allChunks & wb & _ & Hbody).
    apply bind_inv_ok in Hbody as (embeddings & wc & _ & Hbody).
    apply bind_inv_ok in Hbody as (ids & wd & Hids & Hbody).
    apply bind_inv_ok in Hbody as (u & we & Hup & Hbody).
    injection Hbody as <- <-.
    destruct (V3_ids_run E (or_else (req_context req)
                                    ("ctx-" ++ substring 0 8 (randomUUID E)))
                         allChunks wc) as (ids' & Hrun' & Hlen' & Hnd).
    rewrite Hrun' in Hids. injection Hids as -> _.
    match type of Hup with collection_upsert _ _ (zip _ ?recs) _ = _ =>
      assert (length recs = length allChunks) as Hrecs by apply mapi_length;
      assert (length ids = length recs) as Hlen by congruence;
      exists (zip ids recs) end.
    split_and!.
    + eapply collection_upsert_last; eauto.
    + rewrite zip_ids_length, Hrecs by exact Hlen. eexists. reflexivity.
    + now rewrite zip_ids_fst by exact Hlen.
    + intros id r Hin. eapply collection_upsert_stored; eauto.
      now rewrite zip_ids_fst by exact Hlen.
Qed.

(** X20. An ingestion that answers 200 has written what it reports: the
    last store call of the request is one upsert into the collection, the
    number in the response is the number of its records, their ids are
    pairwise distinct, and each of them is in the collection, under its
    id, when the request completes. *)
Theorem successful_ingestion_is_stored E req w b w' :
  V1.post_index E req w = (Ok (Response 200 b), w') \/
  V3.post_upload E req w = (Ok (Response 200 b), w') ->
  exists rs,
    last (trace w') = Some (Upsert COLLECTION rs) /\
    reports b (length rs) /\
    NoDup rs.*1 /\
    forall id r, (id, r) ∈ rs -> stored COLLECTION id w' = Some r.
Proof. apply ingestion_200_inv. Qed.

Lemma successful_ingestion_is_stored_witness :
  exists rs,
    last (trace (V3.post_upload env_ticking upload_a staged_a).2)
      = Some (Upsert COLLECTION rs) /\
    reports (OkBody "Indexed 2 chunks for context: A") (length rs) /\
    NoDup rs.*1 /\
    forall id r, (id, r) ∈ rs ->
      stored COLLECTION id (V3.post_upload env_ticking upload_a staged_a).2 = Some r.
Proof.
  apply (successful_ingestion_is_stored env_ticking upload_a staged_a).
  right. vm_compute. reflexivity.
Defined.

(** ** Staged files after a successful ingestion *)

(** X21. An ingestion that answers 200 has deleted every file of the
    request: none of their paths is on disk when the request completes. *)
Theorem successful_ingestion_deletes_files E req w b w' fs :
  V1.post_index E req w = (Ok (Response 200 b), w') \/
  V3.post_upload E req w = (Ok (Response 200 b), w') ->
  req_files req = Some fs ->
  Forall (fun f => files w' !! file_path f = None) fs.
Proof.
  intros Hrun Hfs. apply Forall_forall. intros f Hin.
  apply list_elem_of_In in Hin. destruct Hrun as [Hrun|Hrun].
  - eapply V1_post_index_success_cleans; eauto.
  - eapply V3_post_upload_success_cleans; eauto.
Qed.

Lemma successful_ingestion_deletes_files_witness :
  Forall (fun f => files (V1.post_index env_up upload_a staged_a).2 !! file_path f = None)
         [File "/tmp/u1" "a.txt"].
Proof.
  apply (successful_ingestion_deletes_files env_up upload_a staged_a
           (OkBody "Indexed 2 chunks.")).
  - left. vm_compute. reflexivity.
  - reflexivity.
Defined.

(** ** Ids of separate uploads *)

Lemma upload_ids_distinct_witness :
  Forall (fun id => id ∉ ["A-1700000000002-0"])
         ["A-1700000000000-0"; "A-1700000000001-1"].
Proof.
  pose (c := Chunk "Cats purr." (Metadata "a.txt" 0 "A")).
  pose (d := Chunk "The dog barks." (Metadata "b.txt" 0 "A")).
  apply Forall_forall.
  apply (upload_ids_distinct env_ticking "A" [c; d] [d]
           boot (with_ticks 2 boot) _ _ (with_ticks 2 boot) (with_ticks 3 boot)).
  - vm_compute. reflexivity.
  - vm_compute. reflexivity.
  - intros a b Ha Hb. unfold env_ticking, clock, boot, with_ticks, ticks.
    cbn in Ha, Hb. lia.
Defined.

(** ** [POST /chat] on an empty result *)

Lemma chat_skips_generation_on_empty_result_witness :
  exists w',
    V3.post_chat env_up question boot = (Ok (Response 200 (AnswerBody V3.NO_MATCH [])), w') /\
    trace w' = [FeatureExtraction ["What is this document about?"];
                GetOrCreateCollection COLLECTION;
                Query COLLECTION 5 None].
Proof.
  eapply (chat_skips_generation_on_empty_result env_up question boot
            "What is this document about?").
  - reflexivity.
  - discriminate.
  - reflexivity.
  - reflexivity.
  - reflexivity.
  - vm_compute. reflexivity.
Defined.

(** ** When a service is down *)

(** X25. With files in the request and a vector store that rejects
    [getOrCreateCollection], both ingestion handlers answer 500 with the
    store's message, having made that one call only: no file was read or
    deleted, no embedding was asked for, and nothing was written. *)
Theorem ingestion_with_store_down E req w f fs e :
  req_files req = Some (f :: fs) ->
  store_fault E (GetOrCreateCollection COLLECTION) = Some e ->
  (exists w',
     V1.post_index E req w = (Ok (Response 500 (ErrorBody e)), w') /\
     trace w' = (trace w ++ [GetOrCreateCollection COLLECTION])%list /\
     files w' = files w /\ store w' = store w) /\
  (exists w',
     V3.post_upload E req w = (Ok (Response 500 (ErrorBody e)), w') /\
     trace w' = (trace w ++ [GetOrCreateCollection COLLECTION])%list /\
     files w' = files w /\ store w' = store w).
Proof.
  intros Hfs Hdown. split.
  - unfold V1.post_index, try_catch. rewrite Hfs.
    erewrite bind_throw by (apply getOrCreateCollection_throw; exact Hdown).
    eexists. split; [reflexivity|]. now destruct w.
  - unfold V3.post_upload, try_catch. rewrite Hfs.
    erewrite bind_throw by (apply getOrCreateCollection_throw; exact Hdown).
    eexists. split; [reflexivity|]. now destruct w.
Qed.

Lemma ingestion_with_store_down_witness :
  (exists w',
     V1.post_index env_store_down upload_a staged_a =
       (Ok (Response 500 (ErrorBody "Failed to connect to chromadb")), w') /\
     trace w' = (trace staged_a ++ [GetOrCreateCollection COLLECTION])%list /\
     files w' = files staged_a /\ store w' = store staged_a) /\
  (exists w',
     V3.post_upload env_store_down upload_a staged_a =
       (Ok (Response 500 (ErrorBody "Failed to connect to chromadb")), w') /\
     trace w' = (trace staged_a ++ [GetOrCreateCollection COLLECTION])%list /\
     files w' = files staged_a /\ store w' = store staged_a).
Proof.
  apply (ingestion_with_store_down env_store_down upload_a staged_a
           (File "/tmp/u1" "a.txt") []); reflexivity.
Defined.

(** X26. A query whose embedding call is rejected is answered 500 with
    the embedding service's message, and that call is the only one made:
    the store and the generation service are not contacted. *)
Theorem query_with_embedding_down E req w q e :
  body_q req = Some q -> nonempty q ->
  featureExtraction E [q] = Throw e ->
  (exists w',
     V1.post_query E req w = (Ok (Response 500 (ErrorBody e)), w') /\
     trace w' = (trace w ++ [FeatureExtraction [q]])%list) /\
  (exists w',
     V3.post_chat E req w = (Ok (Response 500 (ErrorBody e)), w') /\
     trace w' = (trace w ++ [FeatureExtraction [q]])%list).
Proof.
  intros Hq Hne Hdown.
  destruct (request_with_q req q Hq) as (b & Hb & Hqb & _ & _). split.
  - unfold V1.post_query, try_catch.
    rewrite Hb, Hqb, truthy_Some, or_else_Some by exact Hne. cbn [negb].
    erewrite bind_throw by (apply V1_getEmbeddings_throw; exact Hdown).
    eexists. split; [reflexivity|]. now destruct w.
  - unfold V3.post_chat, try_catch.
    rewrite Hb, Hqb, truthy_Some, or_else_Some by exact Hne. cbn [negb].
    erewrite bind_throw by (apply V3_getEmbeddings_throw; exact Hdown).
    eexists. split; [reflexivity|].
    cbn [trace with_stderr]. rewrite trace_printed. now destruct w.
Qed.

Lemma query_with_embedding_down_witness :
  (exists w',
     V1.post_query env_hf_down question boot =
       (Ok (Response 500 (ErrorBody "Invalid credentials in Authorization header")), w') /\
     trace w' = [FeatureExtraction ["What is this document about?"]]) /\
  (exists w',
     V3.post_chat env_hf_down question boot =
       (Ok (Response 500 (ErrorBody "Invalid credentials in Authorization header")), w') /\
     trace w' = [FeatureExtraction ["What is this document about?"]]).
Proof.
  apply (query_with_embedding_down env_hf_down question boot
           "What is this document about?").
  - reflexivity.
  - discriminate.
  - reflexivity.
Defined.

(** ** One collection for every call *)

Lemma V1_getEmbeddings_inv E texts resp w w' :
  V1.getEmbeddings E texts w = (Ok resp, w') ->
  featureExtraction E texts = Ok resp /\
  w' = traced (FeatureExtraction texts) w.
Proof.
  destruct (featureExtraction E texts) as [r|e] eqn:H.
  - rewrite (V1_getEmbeddings_ok E texts r w H). now intros [= -> <-].
  - rewrite (V1_getEmbeddings_throw E texts e w H). discriminate.
Qed.

Lemma V3_getEmbeddings_inv E texts resp w w' :
  V3.getEmbeddings E texts w = (Ok resp, w') ->
  featureExtraction E texts = Ok resp /\
  w' = printed (diagnostics E texts) (traced (FeatureExtraction texts) w).
Proof.
  destruct (featureExtraction E texts) as [r|e] eqn:H.
  - rewrite (V3_getEmbeddings_ok E texts r w H). now intros [= -> <-].
  - rewrite (V3_getEmbeddings_throw E texts e w H). discriminate.
Qed.

Lemma getOrCreateCollection_inv E name handle w w' :
  getOrCreateCollection E name w = (Ok handle, w') ->
  handle = name /\ w' = created name (traced (GetOrCreateCollection name) w).
Proof.
  destruct (store_fault E (GetOrCreateCollection name)) as [e|] eqn:H.
  - rewrite (getOrCreateCollection_throw E name e w H). discriminate.
  - rewrite (getOrCreateCollection_run E name w H). now intros [= <- <-].
Qed.

Lemma collection_query_inv E name qe n where_ result w w' :
  collection_query E name qe n where_ w = (Ok result, w') ->
  result = search E name qe n where_ w.
Proof.
  destruct (store_fault E (Query name n where_)) as [e|] eqn:H.
  - rewrite (collection_query_throw E name qe n where_ e w H). discriminate.
  - rewrite (collection_query_run E name qe n where_ w H). now intros [= <- _].
Qed.

Lemma truthy_inv (s : option string) :
  truthy s = true -> exists q, s = Some q /\ nonempty q.
Proof.
  destruct s as [q|]; [|discriminate]. cbn. intros H. exists q. split; [reflexivity|].
  intros ->. discriminate.
Qed.

(** What the answer of a query that returned 200 was retrieved from. *)
Lemma V1_post_query_200 E req w a retrieved w' :
  V1.post_query E req w = (Ok (Response 200 (AnswerBody a retrieved)), w') ->
  exists q resp,
    body_q req = Some q /\ nonempty q /\ featureExtraction E [q] = Ok resp /\
    retrieved =
      to_retrieved (search E COLLECTION (resp_at resp 0) (default 5 (body_k req))
                           (where_filter (body_c req)) w).
Proof.
  unfold V1.post_query, try_catch, body_q, body_k, body_c.
  destruct (req_body req) as [b|]; [|discriminate]. cbn [mbind option_bind].
  destruct (truthy (q_of b)) eqn:Hq; [|discriminate]. cbn [negb].
  destruct (truthy_inv _ Hq) as (q & Hqb & Hne).
  rewrite Hqb, or_else_Some by exact Hne.
  match goal with |- (match ?body w with _ => _ end) = _ -> _ =>
    destruct (body w) as [[r|e] w1] eqn:Hbody end; [|discriminate].
  intros [= -> ->].
  apply bind_inv_ok in Hbody as (embeddings & wa & Hemb & Hbody).
  apply V1_getEmbeddings_inv in Hemb as [Hresp ->].
  apply bind_inv_ok in Hbody as (collection & wb & Hgoc & Hbody).
  apply getOrCreateCollection_inv in Hgoc as [-> ->].
  apply bind_inv_ok in Hbody as (result & wc & Hquery & Hbody).
  apply collection_query_inv in Hquery as ->.
  apply bind_inv_ok in Hbody as (answer & wd & _ & Hbody).
  apply bind_inv_ok in Hbody as (u & we & _ & Hbody).
  injection Hbody as _ <- _.
  exists q, embeddings. split_and!; auto.
  now rewrite search_created, search_traced, search_traced.
Qed.

Lemma V3_post_chat_200 E req w a retrieved w' :
  V3.post_chat E req w = (Ok (Response 200 (AnswerBody a retrieved)), w') ->
  exists q resp,
    body_q req = Some q /\ nonempty q /\ featureExtraction E [q] = Ok resp /\
    retrieved =
      to_retrieved (search E COLLECTION (resp_at resp 0) (default 5 (body_k req))
                           (where_filter (body_c req)) w).
Proof.
  unfold V3.post_chat, try_catch, body_q, body_k, body_c.
  destruct (req_body req) as [b|]; [|discriminate]. cbn [mbind option_bind].
  destruct (truthy (q_of b)) eqn:Hq; [|discriminate]. cbn [negb].
  destruct (truthy_inv _ Hq) as (q & Hqb & Hne).
  rewrite Hqb, or_else_Some by exact Hne.
  match goal with |- (match ?body w with _ => _ end) = _ -> _ =>
    destruct (body w) as [[r|e] w1] eqn:Hbody end; [|discriminate].
  intros [= -> ->].
  apply bind_inv_ok in Hbody as (embeddings & wa & Hemb & Hbody).
  apply V3_getEmbeddings_inv in Hemb as [Hresp ->].
  apply bind_inv_ok in Hbody as (collection & wb & Hgoc & Hbody).
  apply getOrCreateCollection_inv in Hgoc as [-> ->].
  apply bind_inv_ok in Hbody as (result & wc & Hquery & Hbody).
  apply collection_query_inv in Hquery as ->.
  rewrite search_created, search_traced, search_printed, search_traced in Hbody.
  exists q, embeddings. split_and!; auto.
  destruct (search _ _ _ _ _ _) as [|r0 result].
  - now injection Hbody as _ <- _.
  - apply bind_inv_ok in Hbody as (answer & wd & _ & Hbody).
    now injection Hbody as _ <- _.
Qed.

Lemma last_in_tail {A} (l : list A) x l' y :
  last (l ++ x :: l') = Some y -> In y (x :: l').
Proof.
  rewrite last_app_cons. intros H. apply list_elem_of_In.
  now apply last_Some_elem_of.
Qed.

(** C10. Every call works on one collection, ["Damian_Ingested"], and
    contexts are told apart by the [context] metadata and the query
    filter only.
    - Whatever the request, the store calls of [POST /index],
      [POST /upload], [POST /query] and [POST /chat] name that collection;
      upserted records carry the call's context in their metadata; the
      query filter is made from [c] and is absent when [c] is missing or
      empty.
    - An ingestion request with files resolves the collection as its first
      call, and one answered 200 ends with an upsert into it of records
      tagged with the call's context.
    - A query with a [q], once the question is embedded, resolves the
      collection as its next call, and once that has succeeded searches
      it with [k] and the filter made from [c].
    - What a query answered 200 returns as [retrieved] are the [k] first
      of the store's ranking of the records of that one collection, as it
      was when the request came in, that pass the filter: those whose
      [context] equals [c], and every record of the collection, whatever
      its context, when [c] is missing or empty. *)
Theorem single_collection_for_every_call (E : env) :
  COLLECTION = "Damian_Ingested" /\
  (forall req w, exists evs,
     trace (V1.post_index E req w).2 = (trace w ++ evs)%list /\
     Forall (ingest_event_ok (context_of E req)) evs) /\
  (forall req w, exists evs,
     trace (V3.post_upload E req w).2 = (trace w ++ evs)%list /\
     Forall (ingest_event_ok (context_of E req)) evs) /\
  (forall req w, exists evs,
     trace (V1.post_query E req w).2 = (trace w ++ evs)%list /\
     Forall (query_event_ok (body_c req)) evs) /\
  (forall req w, exists evs,
     trace (V3.post_chat E req w).2 = (trace w ++ evs)%list /\
     Forall (query_event_ok (body_c req)) evs) /\
  (where_filter None = None /\
   forall ctx, where_filter (Some ctx) = if is_empty ctx then None else Some ctx) /\
  (forall coll, candidates None coll = (map_to_list coll).*2) /\
  (forall ctx coll r,
     In r (candidates (Some ctx) coll) <->
     In r (map_to_list coll).*2 /\ context (meta r) = ctx) /\
  (forall req w f fs,
     req_files req = Some (f :: fs) ->
     (exists evs, trace (V1.post_index E req w).2
                  = (trace w ++ GetOrCreateCollection COLLECTION :: evs)%list) /\
     (exists evs, trace (V3.post_upload E req w).2
                  = (trace w ++ GetOrCreateCollection COLLECTION :: evs)%list)) /\
  (forall req w b w',
     V1.post_index E req w = (Ok (Response 200 b), w') \/
     V3.post_upload E req w = (Ok (Response 200 b), w') ->
     exists rs,
       last (trace w') = Some (Upsert COLLECTION rs) /\
       Forall (fun ir => context (meta ir.2) = context_of E req) rs) /\
  (forall req w q resp,
     body_q req = Some q -> nonempty q -> featureExtraction E [q] = Ok resp ->
     forall w', w' = (V1.post_query E req w).2 \/ w' = (V3.post_chat E req w).2 ->
     exists evs,
       trace w' = (trace w ++ FeatureExtraction [q] ::
                   GetOrCreateCollection COLLECTION :: evs)%list /\
       (store_fault E (GetOrCreateCollection COLLECTION) = None ->
        exists evs',
          evs = Query COLLECTION (default 5 (body_k req))
                      (where_filter (body_c req)) :: evs')) /\
  (forall req w a retrieved w',
     V1.post_query E req w = (Ok (Response 200 (AnswerBody a retrieved)), w') \/
     V3.post_chat E req w = (Ok (Response 200 (AnswerBody a retrieved)), w') ->
     exists q resp,
       body_q req = Some q /\ featureExtraction E [q] = Ok resp /\
       retrieved =
         to_retrieved
           (take (default 5 (body_k req))
              (rank E (resp_at resp 0)
                 (candidates (where_filter (body_c req))
                             (default ∅ (store w !! COLLECTION))))) /\
       (truthy (body_c req) = false ->
        retrieved =
          to_retrieved
            (take (default 5 (body_k req))
               (rank E (resp_at resp 0)
                  (map_to_list (default ∅ (store w !! COLLECTION))).*2)))).
Proof.
  split_and!.
  - reflexivity.
  - intros req w. apply emits_trace.
    apply (emits_V1_post_index E (ingest_event_ok (context_of E req)))
      with (ctx := context_of E req); cbn; auto.
  - intros req w. apply emits_trace.
    apply (emits_V3_post_upload E (ingest_event_ok (context_of E req)))
      with (ctx := context_of E req); cbn; auto.
  - intros req w. apply emits_trace.
    apply (emits_V1_post_query E (query_event_ok (body_c req))) with (c := body_c req);
      cbn; auto.
  - intros req w. apply emits_trace.
    apply (emits_V3_post_chat E (query_event_ok (body_c req))) with (c := body_c req);
      cbn; auto.
  - reflexivity.
  - intros ctx. unfold where_filter. cbn. now destruct (is_empty ctx).
  - apply candidates_unfiltered.
  - apply candidates_filtered.
  - intros req w f fs Hfs. split.
    + destruct (V1_post_index_resolves E (fun _ => True)) with
        (ctx := context_of E req) (req := req) (w := w) (f := f) (fs := fs)
        as (evs & Htrace & _); cbn; eauto.
    + destruct (V3_post_upload_resolves E (fun _ => True)) with
        (ctx := context_of E req) (req := req) (w := w) (f := f) (fs := fs)
        as (evs & Htrace & _); cbn; eauto.
  - intros req w b w' Hrun.
    destruct (ingestion_200_inv E req w b w' Hrun) as (rs & Hlast & _).
    exists rs. split; [exact Hlast|].
    assert (exists evs, trace w' = (trace w ++ GetOrCreateCollection COLLECTION :: evs)%list /\
                        Forall (ingest_event_ok (context_of E req)) evs)
      as (evs & Htrace & Hevs).
    { destruct Hrun as [Hrun|Hrun].
      - assert (exists f fs, req_files req = Some (f :: fs)) as (f & fs & Hfs).
        { unfold V1.post_index, try_catch in Hrun.
          destruct (req_files req) as [[|f fs]|]; try discriminate. eauto. }
        destruct (V1_post_index_resolves E (ingest_event_ok (context_of E req)))
          with (ctx := context_of E req) (req := req) (w := w) (f := f) (fs := fs)
          as (evs & Htrace & Hevs); cbn; auto.
        rewrite Hrun in Htrace. eauto.
      - assert (exists f fs, req_files req = Some (f :: fs)) as (f & fs & Hfs).
        { unfold V3.post_upload, try_catch in Hrun.
          destruct (req_files req) as [[|f fs]|]; try discriminate. eauto. }
        destruct (V3_post_upload_resolves E (ingest_event_ok (context_of E req)))
          with (ctx := context_of E req) (req := req) (w := w) (f := f) (fs := fs)
          as (evs & Htrace & Hevs); cbn; auto.
        rewrite Hrun in Htrace. eauto. }
    rewrite Htrace in Hlast. apply last_in_tail in Hlast as [Heq|Hin];
      [discriminate|].
    apply list_elem_of_In in Hin.
    pose proof (proj1 (Forall_forall _ _) Hevs _ Hin) as Hok. cbn in Hok. tauto.
  - intros req w q resp Hq Hne Hresp w' Hw'.
    destruct (request_with_q req q Hq) as (b & Hb & Hqb & Hk & Hc).
    rewrite Hk, Hc.
    destruct Hw' as [->| ->].
    + destruct (V1_post_query_resolves E (fun _ => True)) with
        (c := c_of b) (req := req) (w := w) (b := b) (q := q) (resp := resp)
        as (evs & Htrace & _ & Hnext); cbn; eauto.
    + destruct (V3_post_chat_resolves E (fun _ => True)) with
        (c := c_of b) (req := req) (w := w) (b := b) (q := q) (resp := resp)
        as (evs & Htrace & _ & Hnext); cbn; eauto.
  - intros req w a retrieved w' Hrun.
    assert (exists q resp,
              body_q req = Some q /\ nonempty q /\ featureExtraction E [q] = Ok resp /\
              retrieved =
                to_retrieved (search E COLLECTION (resp_at resp 0)
                                (default 5 (body_k req)) (where_filter (body_c req)) w))
      as (q & resp & Hq & _ & Hresp & Hret).
    { destruct Hrun as [Hrun|Hrun];
        [eapply V1_post_query_200|eapply V3_post_chat_200]; eauto. }
    exists q, resp. split_and!; [exact Hq|exact Hresp|exact Hret|].
    intros Hc. rewrite Hret. unfold search, where_filter. rewrite Hc.
    now rewrite candidates_unfiltered.
Qed.

(** ** The embedding client and the console *)

Lemma console_log_printed lines w : console_log (printed lines w) = console_log w.
Proof. unfold printed. now destruct (console_log w) eqn:H; cbn. Qed.

Lemma stdout_printed_native lines w :
  console_log w = NativeLog -> stdout (printed lines w) = (stdout w ++ lines)%list.
Proof. intros H. unfold printed. now rewrite H. Qed.

Lemma V1_getEmbeddings_resume_run E saved texts w :
  V1.getEmbeddings_resume E saved texts w =
  match featureExtraction E texts with
  | Ok resp => (Ok resp, with_console_log saved (printed (diagnostics E texts) w))
  | Throw e => (Throw e, printed (diagnostics E texts) w)
  end.
Proof.
  unfold V1.getEmbeddings_resume, mbind, M_bind. rewrite hf_settle_run.
  now destruct (featureExtraction E texts).
Qed.

(** X18. What the embedding client prints through [console.log] while
    it is called.  In the first listing a call of [getEmbeddings] that
    runs alone lets none of it reach standard output, whether the call
    resolves or rejects.  In the third listing the client is called with
    [console.log] as it is: when the native function is bound, all of it
    is on standard output after the call, in order, and the binding is
    never changed. *)
Theorem embedding_diagnostics_and_the_console E texts w :
  stdout (V1.getEmbeddings E texts w).2 = stdout w /\
  console_log (V3.getEmbeddings E texts w).2 = console_log w /\
  (console_log w = NativeLog ->
   stdout (V3.getEmbeddings E texts w).2 = (stdout w ++ diagnostics E texts)%list).
Proof.
  destruct (featureExtraction E texts) as [resp|e] eqn:Hresp.
  - rewrite (V1_getEmbeddings_ok E texts resp w Hresp),
            (V3_getEmbeddings_ok E texts resp w Hresp).
    cbn [fst snd]. split_and!; [reflexivity|now rewrite console_log_printed|].
    intros Hnative. now rewrite stdout_printed_native.
  - rewrite (V1_getEmbeddings_throw E texts e w Hresp),
            (V3_getEmbeddings_throw E texts e w Hresp).
    cbn [fst snd]. split_and!; [reflexivity|cbn; now rewrite console_log_printed|].
    intros Hnative. cbn. now rewrite stdout_printed_native.
Qed.

Lemma embedding_diagnostics_and_the_console_witness :
  stdout (V1.getEmbeddings env_chatty ["Cats purr."] boot).2 = [] /\
  console_log (V3.getEmbeddings env_chatty ["Cats purr."] boot).2 = NativeLog /\
  stdout (V3.getEmbeddings env_chatty ["Cats purr."] boot).2 = ["embedding 1 inputs"].
Proof.
  destruct (embedding_diagnostics_and_the_console env_chatty ["Cats purr."] boot)
    as (H1 & H2 & H3).
  split_and!; [exact H1|exact H2|]. apply H3. reflexivity.
Defined.

(** ** Calls of [getEmbeddings] that overlap *)

(** X24. The saved binding of [console.log] is restored by calls of the
    first listing's [getEmbeddings] that follow one another, and lost by
    calls that overlap.  Of two calls that both resolve: when the second
    is made after the first has returned, [console.log] ends bound to
    what it was bound to; when the second is made while the first is
    awaited and the promises settle in the order of the calls, it ends
    bound to the silent function, whatever it was bound to, although no
    call failed; when the second promise settles first, it ends as it
    was. *)
Theorem overlapping_calls_silence_the_logger E texts1 texts2 resp1 resp2 w :
  featureExtraction E texts1 = Ok resp1 ->
  featureExtraction E texts2 = Ok resp2 ->
  (exists w',
     one_after_the_other E texts1 texts2 w = (Ok (Ok resp1, Ok resp2), w') /\
     console_log w' = console_log w) /\
  (exists w',
     overlapping E texts1 texts2 w = (Ok (Ok resp1, Ok resp2), w') /\
     console_log w' = SilentLog) /\
  (exists w',
     overlapping_reversed E texts1 texts2 w = (Ok (Ok resp1, Ok resp2), w') /\
     console_log w' = console_log w).
Proof.
  intros H1 H2. split_and!.
  - unfold one_after_the_other.
    erewrite bind_ok
      by (unfold settled; rewrite (V1_getEmbeddings_ok E texts1 resp1 _ H1); reflexivity).
    erewrite bind_ok
      by (unfold settled; rewrite (V1_getEmbeddings_ok E texts2 resp2 _ H2); reflexivity).
    eexists. split; reflexivity.
  - unfold overlapping.
    erewrite bind_ok by apply V1_getEmbeddings_begin_run.
    erewrite bind_ok by apply V1_getEmbeddings_begin_run.
    erewrite bind_ok
      by (unfold settled; rewrite V1_getEmbeddings_resume_run, H1; reflexivity).
    erewrite bind_ok
      by (unfold settled; rewrite V1_getEmbeddings_resume_run, H2; reflexivity).
    eexists. split; reflexivity.
  - unfold overlapping_reversed.
    erewrite bind_ok by apply V1_getEmbeddings_begin_run.
    erewrite bind_ok by apply V1_getEmbeddings_begin_run.
    erewrite bind_ok
      by (unfold settled; rewrite V1_getEmbeddings_resume_run, H2; reflexivity).
    erewrite bind_ok
      by (unfold settled; rewrite V1_getEmbeddings_resume_run, H1; reflexivity).
    eexists. split; reflexivity.
Qed.

Lemma overlapping_calls_silence_the_logger_witness :
  let texts1 := ["What is this document about?"] in
  let texts2 := ["Who wrote it?"] in
  let resp1 := Nested [toy_embed "What is this document about?"] in
  let resp2 := Nested [toy_embed "Who wrote it?"] in
  (exists w',
     one_after_the_other env_up texts1 texts2 boot = (Ok (Ok resp1, Ok resp2), w') /\
     console_log w' = NativeLog) /\
  (exists w',
     overlapping env_up texts1 texts2 boot = (Ok (Ok resp1, Ok resp2), w') /\
     console_log w' = SilentLog) /\
  (exists w',
     overlapping_reversed env_up texts1 texts2 boot = (Ok (Ok resp1, Ok resp2), w') /\
     console_log w' = NativeLog).
Proof.
  intros texts1 texts2 resp1 resp2.
  apply (overlapping_calls_silence_the_logger env_up texts1 texts2 resp1 resp2 boot);
    reflexivity.
Defined.

Lemma single_collection_for_every_call_witness :
  let indexed := (V1.post_index env_up upload_a staged_a).2 in
  (exists evs,
     trace indexed = (trace staged_a ++ GetOrCreateCollection COLLECTION :: evs)%list) /\
  (exists rs,
     last (trace indexed) = Some (Upsert COLLECTION rs) /\
     Forall (fun ir => context (meta ir.2) = "A") rs) /\
  (exists evs,
     trace (V3.post_chat env_up question indexed).2
       = (trace indexed ++ FeatureExtraction ["What is this document about?"] ::
          GetOrCreateCollection COLLECTION :: Query COLLECTION 5 None :: evs)%list) /\
  (exists a retrieved w' resp,
     V3.post_chat env_up question indexed
       = (Ok (Response 200 (AnswerBody a retrieved)), w') /\
     length retrieved = 2 /\
     retrieved =
       to_retrieved
         (take 5 (rank env_up (resp_at resp 0)
                    (map_to_list (default ∅ (store indexed !! COLLECTION))).*2))).
Proof.
  intros indexed.
  destruct (single_collection_for_every_call env_up)
    as (_ & _ & _ & _ & _ & _ & _ & _ & Hresolve & Hupsert & Hquery & Hretrieved).
  split_and!.
  - apply (proj1 (Hresolve upload_a staged_a (File "/tmp/u1" "a.txt") [] eq_refl)).
  - apply (Hupsert upload_a staged_a (OkBody "Indexed 2 chunks.") indexed).
    left. vm_compute. reflexivity.
  - destruct (Hquery question indexed "What is this document about?"
                (Nested [toy_embed "What is this document about?"])
                eq_refl ltac:(discriminate) eq_refl
                (V3.post_chat env_up question indexed).2 (or_intror eq_refl))
      as (evs & Htrace & Hnext).
    destruct (Hnext eq_refl) as (evs' & ->). exists evs'. exact Htrace.
  - destruct (V3.post_chat env_up question indexed) as [r w'] eqn:Hrun.
    assert (exists a retrieved,
              r = Ok (Response 200 (AnswerBody a retrieved)) /\ length retrieved = 2)
      as (a & retrieved & -> & Hlen).
    { apply (f_equal fst) in Hrun. cbn [fst] in Hrun. subst r.
      vm_compute. eauto. }
    destruct (Hretrieved question indexed a retrieved w' (or_intror Hrun))
      as (q & resp & _ & _ & _ & Hall).
    exists a, retrieved, w', resp. split_and!; [reflexivity|exact Hlen|].
    now apply Hall.
Defined.
